(** * do-mpc: the MPC controller's NLP transcription (do_mpc/controller.py)

    A shallow embedding of the methods of [class MPC] that set the
    objective, check the configuration, assemble the nonlinear program,
    propagate the bounds and run one control step.

    Conventions of the embedding.
    - CasADi expressions are symbolic: they are embedded as the syntax
      tree [expr]; [obj += t] on the scalar [obj = DM(0)] is embedded as
      appending the summand [t] to the list of summands of the objective.
    - The numeric bounds are floats; they are embedded as rationals
      extended with the two infinities ([ebound]); NaN is not represented.
    - [warnings.warn] appends to a log carried by the controller state;
      [time.sleep] has no counterpart.
    - A method of [self] is a function from the controller state to an
      [outcome]: either it is done, or it raised; both carry the state
      reached, since Python keeps the mutations made before a raise. *)

From Stdlib Require Import List Arith Lia Bool ZArith QArith String.
Import ListNotations.
Local Close Scope Q_scope.
Local Open Scope nat_scope.

(** ** Symbolic expressions *)

(** Power indices into the decision-variable structure [opt_x]:
    [opt_x['_x', k, s, i]], [opt_x['_z', k, s, i]], [opt_x['_u', k, s]],
    [opt_x['_eps', k, s]]. *)
Inductive opt_x_ref : Type :=
| x_at (k s i : nat)
| z_at (k s i : nat)
| u_at (k s : nat)
| eps_at (k s : nat).

(** Power indices into the parameter structure [opt_p]. *)
Inductive opt_p_ref : Type :=
| p_x0
| p_tvp (k : nat)
| p_p (c : nat)
| p_u_prev.

Inductive var_class : Type := cls_x | cls_u | cls_z.

(** The CasADi functions the assembler calls. [ifcn] has two outputs. *)
Inductive fname : Type :=
| f_ifcn_g | f_ifcn_xf | f_nl_cons | f_lterm | f_mterm | f_epsterm | f_aux.

Unset Elimination Schemes.
Inductive expr : Type :=
| OptX (r : opt_x_ref)                     (* opt_x[r] *)
| OptXUnscaled (r : opt_x_ref)             (* opt_x_unscaled[r] *)
| OptP (r : opt_p_ref)                     (* opt_p[r] *)
| W0                                       (* _w = self.model._w(0) *)
| Vertcat (es : list expr)                 (* vertcat( *es ) *)
| Sub (a b : expr)                         (* a - b *)
| DivScaling (a : expr) (c : var_class)    (* a / self._c_scaling *)
| Square (a : expr)                        (* a ** 2 *)
| RtermDot (a : expr)                      (* self.rterm_factor.cat.T @ a *)
| Scale (w : Q) (a : expr)                 (* w * a *)
| Call (f : fname) (args : list expr).
Set Elimination Schemes.

(** Entries of [cons_lb] and [cons_ub]. *)
Inductive cons_bound : Type :=
| Zeros (rows : nat)      (* np.zeros(rows) / np.zeros((rows, 1)) *)
| NlConsLb                (* self._nl_cons_lb *)
| NlConsUb.               (* self._nl_cons_ub *)

(** ** Numbers of the bound structures *)

Inductive ebound : Type :=
| NegInf
| Fin (q : Q)
| PosInf.

(** [a > b] on floats that are not NaN. *)
Definition ebound_gtb (a b : ebound) : bool :=
  match a, b with
  | NegInf, _ => false
  | _, PosInf => false
  | PosInf, _ => true
  | Fin _, NegInf => true
  | Fin p, Fin q => negb (Qle_bool p q)
  end.

Definition is_pos_inf (a : ebound) : bool :=
  match a with PosInf => true | _ => false end.

Definition is_neg_inf (a : ebound) : bool :=
  match a with NegInf => true | _ => false end.

(** ** Python values handed to [set_objective] *)

Inductive casadi_type : Type := DM | SX | MX.

Inductive pyobj : Type :=
| PyNone
| PyCasadi (ty : casadi_type) (shape : nat * nat) (valid_inputs : bool)
| PyArray (shape : nat * nat)       (* has .shape, is no CasADi type *)
| PyOther.                          (* has no attribute .shape *)

(** ** Exceptions and warnings *)

Inductive exn : Type :=
| AssertionError (msg : string)
| AttributeError (msg : string)
| ZeroDivisionError
| NameError (name : string)
| TypeError (msg : string)
| Exception_ (msg : string).

Inductive warning : Type :=
| WarnRtermNotSet
| WarnNegativeRterm
| WarnNoInitialGuess.

(** ** The controller state *)

Record Model : Type := {
  n_x : nat;
  n_u : nat;
  n_z : nat;
  tvp_size : nat;          (* self.model._tvp.size *)
  p_size : nat             (* self.model._p.size *)
}.

Record Flags : Type := {
  flag_setup : bool;
  flag_set_objective : bool;
  flag_set_rterm : bool;
  flag_set_tvp_fun : bool;
  flag_set_p_fun : bool;
  flag_set_initial_guess : bool;
  flag_prepare_nlp : bool
}.

Record Settings : Type := {
  n_horizon : nat;
  n_robust : nat;
  n_combinations : nat;
  open_loop : bool;
  use_terminal_bounds : bool;
  nl_cons_check_colloc_points : bool;
  nl_cons_single_slack : bool;
  cons_check_colloc_points : bool;
  t_step : Q
}.

Record Bounds : Type := {
  x_lb : list ebound;  x_ub : list ebound;
  u_lb : list ebound;  u_ub : list ebound;
  z_lb : list ebound;  z_ub : list ebound;
  eps_lb : list ebound;  eps_ub : list ebound;
  x_terminal_lb : list ebound;  x_terminal_ub : list ebound
}.

(** A bound structure shaped like [opt_x]: one vector per power index. *)
Definition bound_struct : Type := opt_x_ref -> list ebound.

(** A numeric structure shaped like [opt_x] or [opt_p]. *)
Definition opt_x_struct : Type := opt_x_ref -> list Q.
Definition opt_p_struct : Type := opt_p_ref -> list Q.

Record Nlp : Type := {
  nlp_obj : list expr;
  nlp_cons : list expr;
  nlp_cons_lb : list cons_bound;
  nlp_cons_ub : list cons_bound;
  nlp_opt_aux : list (nat * nat * expr)
}.

Record MPC : Type := {
  model : Model;
  flags : Flags;
  settings : Settings;
  bounds : Bounds;
  rterm_factor : list Q;
  n_nl_cons : nat;               (* rows of self._nl_cons_lb and _nl_cons_ub *)
  x_scaling : list Q;  u_scaling : list Q;  z_scaling : list Q;
  mterm : option pyobj;
  lterm : option pyobj;
  has_mterm_fun : bool;
  has_lterm_fun : bool;
  has_tvp_fun : bool;            (* 'tvp_fun' in self.__dict__ *)
  has_p_fun : bool;              (* 'p_fun' in self.__dict__ *)
  lb_opt_x : bound_struct;
  ub_opt_x : bound_struct;
  nlp : option Nlp;
  opt_x_num : option opt_x_struct;
  opt_p_num : option opt_p_struct;
  t0 : Q;
  x0 : list Q;  u0 : list Q;  z0 : list Q;
  warnings : list warning
}.

(** Attribute assignment [self.f = v], one function per attribute that
    the embedded methods assign. *)
Definition set_flags (v : Flags) (s : MPC) : MPC :=
  {| model := model s; flags := v; settings := settings s; bounds :=
     bounds s; rterm_factor := rterm_factor s; n_nl_cons := n_nl_cons s;
     x_scaling := x_scaling s; u_scaling := u_scaling s; z_scaling :=
     z_scaling s; mterm := mterm s; lterm := lterm s; has_mterm_fun :=
     has_mterm_fun s; has_lterm_fun := has_lterm_fun s; has_tvp_fun :=
     has_tvp_fun s; has_p_fun := has_p_fun s; lb_opt_x := lb_opt_x s;
     ub_opt_x := ub_opt_x s; nlp := nlp s; opt_x_num := opt_x_num s;
     opt_p_num := opt_p_num s; t0 := t0 s; x0 := x0 s; u0 := u0 s; z0 :=
     z0 s; warnings := warnings s |}.

Definition set_settings (v : Settings) (s : MPC) : MPC :=
  {| model := model s; flags := flags s; settings := v; bounds := bounds
     s; rterm_factor := rterm_factor s; n_nl_cons := n_nl_cons s;
     x_scaling := x_scaling s; u_scaling := u_scaling s; z_scaling :=
     z_scaling s; mterm := mterm s; lterm := lterm s; has_mterm_fun :=
     has_mterm_fun s; has_lterm_fun := has_lterm_fun s; has_tvp_fun :=
     has_tvp_fun s; has_p_fun := has_p_fun s; lb_opt_x := lb_opt_x s;
     ub_opt_x := ub_opt_x s; nlp := nlp s; opt_x_num := opt_x_num s;
     opt_p_num := opt_p_num s; t0 := t0 s; x0 := x0 s; u0 := u0 s; z0 :=
     z0 s; warnings := warnings s |}.

Definition set_bounds (v : Bounds) (s : MPC) : MPC :=
  {| model := model s; flags := flags s; settings := settings s; bounds :=
     v; rterm_factor := rterm_factor s; n_nl_cons := n_nl_cons s;
     x_scaling := x_scaling s; u_scaling := u_scaling s; z_scaling :=
     z_scaling s; mterm := mterm s; lterm := lterm s; has_mterm_fun :=
     has_mterm_fun s; has_lterm_fun := has_lterm_fun s; has_tvp_fun :=
     has_tvp_fun s; has_p_fun := has_p_fun s; lb_opt_x := lb_opt_x s;
     ub_opt_x := ub_opt_x s; nlp := nlp s; opt_x_num := opt_x_num s;
     opt_p_num := opt_p_num s; t0 := t0 s; x0 := x0 s; u0 := u0 s; z0 :=
     z0 s; warnings := warnings s |}.

Definition set_mterm (v : option pyobj) (s : MPC) : MPC :=
  {| model := model s; flags := flags s; settings := settings s; bounds :=
     bounds s; rterm_factor := rterm_factor s; n_nl_cons := n_nl_cons s;
     x_scaling := x_scaling s; u_scaling := u_scaling s; z_scaling :=
     z_scaling s; mterm := v; lterm := lterm s; has_mterm_fun :=
     has_mterm_fun s; has_lterm_fun := has_lterm_fun s; has_tvp_fun :=
     has_tvp_fun s; has_p_fun := has_p_fun s; lb_opt_x := lb_opt_x s;
     ub_opt_x := ub_opt_x s; nlp := nlp s; opt_x_num := opt_x_num s;
     opt_p_num := opt_p_num s; t0 := t0 s; x0 := x0 s; u0 := u0 s; z0 :=
     z0 s; warnings := warnings s |}.

Definition set_lterm (v : option pyobj) (s : MPC) : MPC :=
  {| model := model s; flags := flags s; settings := settings s; bounds :=
     bounds s; rterm_factor := rterm_factor s; n_nl_cons := n_nl_cons s;
     x_scaling := x_scaling s; u_scaling := u_scaling s; z_scaling :=
     z_scaling s; mterm := mterm s; lterm := v; has_mterm_fun :=
     has_mterm_fun s; has_lterm_fun := has_lterm_fun s; has_tvp_fun :=
     has_tvp_fun s; has_p_fun := has_p_fun s; lb_opt_x := lb_opt_x s;
     ub_opt_x := ub_opt_x s; nlp := nlp s; opt_x_num := opt_x_num s;
     opt_p_num := opt_p_num s; t0 := t0 s; x0 := x0 s; u0 := u0 s; z0 :=
     z0 s; warnings := warnings s |}.

Definition set_has_mterm_fun (v : bool) (s : MPC) : MPC :=
  {| model := model s; flags := flags s; settings := settings s; bounds :=
     bounds s; rterm_factor := rterm_factor s; n_nl_cons := n_nl_cons s;
     x_scaling := x_scaling s; u_scaling := u_scaling s; z_scaling :=
     z_scaling s; mterm := mterm s; lterm := lterm s; has_mterm_fun := v;
     has_lterm_fun := has_lterm_fun s; has_tvp_fun := has_tvp_fun s;
     has_p_fun := has_p_fun s; lb_opt_x := lb_opt_x s; ub_opt_x :=
     ub_opt_x s; nlp := nlp s; opt_x_num := opt_x_num s; opt_p_num :=
     opt_p_num s; t0 := t0 s; x0 := x0 s; u0 := u0 s; z0 := z0 s; warnings
     := warnings s |}.

Definition set_has_lterm_fun (v : bool) (s : MPC) : MPC :=
  {| model := model s; flags := flags s; settings := settings s; bounds :=
     bounds s; rterm_factor := rterm_factor s; n_nl_cons := n_nl_cons s;
     x_scaling := x_scaling s; u_scaling := u_scaling s; z_scaling :=
     z_scaling s; mterm := mterm s; lterm := lterm s; has_mterm_fun :=
     has_mterm_fun s; has_lterm_fun := v; has_tvp_fun := has_tvp_fun s;
     has_p_fun := has_p_fun s; lb_opt_x := lb_opt_x s; ub_opt_x :=
     ub_opt_x s; nlp := nlp s; opt_x_num := opt_x_num s; opt_p_num :=
     opt_p_num s; t0 := t0 s; x0 := x0 s; u0 := u0 s; z0 := z0 s; warnings
     := warnings s |}.

Definition set_has_tvp_fun (v : bool) (s : MPC) : MPC :=
  {| model := model s; flags := flags s; settings := settings s; bounds :=
     bounds s; rterm_factor := rterm_factor s; n_nl_cons := n_nl_cons s;
     x_scaling := x_scaling s; u_scaling := u_scaling s; z_scaling :=
     z_scaling s; mterm := mterm s; lterm := lterm s; has_mterm_fun :=
     has_mterm_fun s; has_lterm_fun := has_lterm_fun s; has_tvp_fun := v;
     has_p_fun := has_p_fun s; lb_opt_x := lb_opt_x s; ub_opt_x :=
     ub_opt_x s; nlp := nlp s; opt_x_num := opt_x_num s; opt_p_num :=
     opt_p_num s; t0 := t0 s; x0 := x0 s; u0 := u0 s; z0 := z0 s; warnings
     := warnings s |}.

Definition set_has_p_fun (v : bool) (s : MPC) : MPC :=
  {| model := model s; flags := flags s; settings := settings s; bounds :=
     bounds s; rterm_factor := rterm_factor s; n_nl_cons := n_nl_cons s;
     x_scaling := x_scaling s; u_scaling := u_scaling s; z_scaling :=
     z_scaling s; mterm := mterm s; lterm := lterm s; has_mterm_fun :=
     has_mterm_fun s; has_lterm_fun := has_lterm_fun s; has_tvp_fun :=
     has_tvp_fun s; has_p_fun := v; lb_opt_x := lb_opt_x s; ub_opt_x :=
     ub_opt_x s; nlp := nlp s; opt_x_num := opt_x_num s; opt_p_num :=
     opt_p_num s; t0 := t0 s; x0 := x0 s; u0 := u0 s; z0 := z0 s; warnings
     := warnings s |}.

Definition set_lb_opt_x (v : bound_struct) (s : MPC) : MPC :=
  {| model := model s; flags := flags s; settings := settings s; bounds :=
     bounds s; rterm_factor := rterm_factor s; n_nl_cons := n_nl_cons s;
     x_scaling := x_scaling s; u_scaling := u_scaling s; z_scaling :=
     z_scaling s; mterm := mterm s; lterm := lterm s; has_mterm_fun :=
     has_mterm_fun s; has_lterm_fun := has_lterm_fun s; has_tvp_fun :=
     has_tvp_fun s; has_p_fun := has_p_fun s; lb_opt_x := v; ub_opt_x :=
     ub_opt_x s; nlp := nlp s; opt_x_num := opt_x_num s; opt_p_num :=
     opt_p_num s; t0 := t0 s; x0 := x0 s; u0 := u0 s; z0 := z0 s; warnings
     := warnings s |}.

Definition set_ub_opt_x (v : bound_struct) (s : MPC) : MPC :=
  {| model := model s; flags := flags s; settings := settings s; bounds :=
     bounds s; rterm_factor := rterm_factor s; n_nl_cons := n_nl_cons s;
     x_scaling := x_scaling s; u_scaling := u_scaling s; z_scaling :=
     z_scaling s; mterm := mterm s; lterm := lterm s; has_mterm_fun :=
     has_mterm_fun s; has_lterm_fun := has_lterm_fun s; has_tvp_fun :=
     has_tvp_fun s; has_p_fun := has_p_fun s; lb_opt_x := lb_opt_x s;
     ub_opt_x := v; nlp := nlp s; opt_x_num := opt_x_num s; opt_p_num :=
     opt_p_num s; t0 := t0 s; x0 := x0 s; u0 := u0 s; z0 := z0 s; warnings
     := warnings s |}.

Definition set_nlp (v : option Nlp) (s : MPC) : MPC :=
  {| model := model s; flags := flags s; settings := settings s; bounds :=
     bounds s; rterm_factor := rterm_factor s; n_nl_cons := n_nl_cons s;
     x_scaling := x_scaling s; u_scaling := u_scaling s; z_scaling :=
     z_scaling s; mterm := mterm s; lterm := lterm s; has_mterm_fun :=
     has_mterm_fun s; has_lterm_fun := has_lterm_fun s; has_tvp_fun :=
     has_tvp_fun s; has_p_fun := has_p_fun s; lb_opt_x := lb_opt_x s;
     ub_opt_x := ub_opt_x s; nlp := v; opt_x_num := opt_x_num s; opt_p_num
     := opt_p_num s; t0 := t0 s; x0 := x0 s; u0 := u0 s; z0 := z0 s;
     warnings := warnings s |}.

Definition set_opt_x_num (v : option opt_x_struct) (s : MPC) : MPC :=
  {| model := model s; flags := flags s; settings := settings s; bounds :=
     bounds s; rterm_factor := rterm_factor s; n_nl_cons := n_nl_cons s;
     x_scaling := x_scaling s; u_scaling := u_scaling s; z_scaling :=
     z_scaling s; mterm := mterm s; lterm := lterm s; has_mterm_fun :=
     has_mterm_fun s; has_lterm_fun := has_lterm_fun s; has_tvp_fun :=
     has_tvp_fun s; has_p_fun := has_p_fun s; lb_opt_x := lb_opt_x s;
     ub_opt_x := ub_opt_x s; nlp := nlp s; opt_x_num := v; opt_p_num :=
     opt_p_num s; t0 := t0 s; x0 := x0 s; u0 := u0 s; z0 := z0 s; warnings
     := warnings s |}.

Definition set_opt_p_num (v : option opt_p_struct) (s : MPC) : MPC :=
  {| model := model s; flags := flags s; settings := settings s; bounds :=
     bounds s; rterm_factor := rterm_factor s; n_nl_cons := n_nl_cons s;
     x_scaling := x_scaling s; u_scaling := u_scaling s; z_scaling :=
     z_scaling s; mterm := mterm s; lterm := lterm s; has_mterm_fun :=
     has_mterm_fun s; has_lterm_fun := has_lterm_fun s; has_tvp_fun :=
     has_tvp_fun s; has_p_fun := has_p_fun s; lb_opt_x := lb_opt_x s;
     ub_opt_x := ub_opt_x s; nlp := nlp s; opt_x_num := opt_x_num s;
     opt_p_num := v; t0 := t0 s; x0 := x0 s; u0 := u0 s; z0 := z0 s;
     warnings := warnings s |}.

Definition set_t0 (v : Q) (s : MPC) : MPC :=
  {| model := model s; flags := flags s; settings := settings s; bounds :=
     bounds s; rterm_factor := rterm_factor s; n_nl_cons := n_nl_cons s;
     x_scaling := x_scaling s; u_scaling := u_scaling s; z_scaling :=
     z_scaling s; mterm := mterm s; lterm := lterm s; has_mterm_fun :=
     has_mterm_fun s; has_lterm_fun := has_lterm_fun s; has_tvp_fun :=
     has_tvp_fun s; has_p_fun := has_p_fun s; lb_opt_x := lb_opt_x s;
     ub_opt_x := ub_opt_x s; nlp := nlp s; opt_x_num := opt_x_num s;
     opt_p_num := opt_p_num s; t0 := v; x0 := x0 s; u0 := u0 s; z0 := z0
     s; warnings := warnings s |}.

Definition set_x0 (v : list Q) (s : MPC) : MPC :=
  {| model := model s; flags := flags s; settings := settings s; bounds :=
     bounds s; rterm_factor := rterm_factor s; n_nl_cons := n_nl_cons s;
     x_scaling := x_scaling s; u_scaling := u_scaling s; z_scaling :=
     z_scaling s; mterm := mterm s; lterm := lterm s; has_mterm_fun :=
     has_mterm_fun s; has_lterm_fun := has_lterm_fun s; has_tvp_fun :=
     has_tvp_fun s; has_p_fun := has_p_fun s; lb_opt_x := lb_opt_x s;
     ub_opt_x := ub_opt_x s; nlp := nlp s; opt_x_num := opt_x_num s;
     opt_p_num := opt_p_num s; t0 := t0 s; x0 := v; u0 := u0 s; z0 := z0
     s; warnings := warnings s |}.

Definition set_u0 (v : list Q) (s : MPC) : MPC :=
  {| model := model s; flags := flags s; settings := settings s; bounds :=
     bounds s; rterm_factor := rterm_factor s; n_nl_cons := n_nl_cons s;
     x_scaling := x_scaling s; u_scaling := u_scaling s; z_scaling :=
     z_scaling s; mterm := mterm s; lterm := lterm s; has_mterm_fun :=
     has_mterm_fun s; has_lterm_fun := has_lterm_fun s; has_tvp_fun :=
     has_tvp_fun s; has_p_fun := has_p_fun s; lb_opt_x := lb_opt_x s;
     ub_opt_x := ub_opt_x s; nlp := nlp s; opt_x_num := opt_x_num s;
     opt_p_num := opt_p_num s; t0 := t0 s; x0 := x0 s; u0 := v; z0 := z0
     s; warnings := warnings s |}.

Definition set_z0 (v : list Q) (s : MPC) : MPC :=
  {| model := model s; flags := flags s; settings := settings s; bounds :=
     bounds s; rterm_factor := rterm_factor s; n_nl_cons := n_nl_cons s;
     x_scaling := x_scaling s; u_scaling := u_scaling s; z_scaling :=
     z_scaling s; mterm := mterm s; lterm := lterm s; has_mterm_fun :=
     has_mterm_fun s; has_lterm_fun := has_lterm_fun s; has_tvp_fun :=
     has_tvp_fun s; has_p_fun := has_p_fun s; lb_opt_x := lb_opt_x s;
     ub_opt_x := ub_opt_x s; nlp := nlp s; opt_x_num := opt_x_num s;
     opt_p_num := opt_p_num s; t0 := t0 s; x0 := x0 s; u0 := u0 s; z0 :=
     v; warnings := warnings s |}.

Definition set_warnings (v : list warning) (s : MPC) : MPC :=
  {| model := model s; flags := flags s; settings := settings s; bounds :=
     bounds s; rterm_factor := rterm_factor s; n_nl_cons := n_nl_cons s;
     x_scaling := x_scaling s; u_scaling := u_scaling s; z_scaling :=
     z_scaling s; mterm := mterm s; lterm := lterm s; has_mterm_fun :=
     has_mterm_fun s; has_lterm_fun := has_lterm_fun s; has_tvp_fun :=
     has_tvp_fun s; has_p_fun := has_p_fun s; lb_opt_x := lb_opt_x s;
     ub_opt_x := ub_opt_x s; nlp := nlp s; opt_x_num := opt_x_num s;
     opt_p_num := opt_p_num s; t0 := t0 s; x0 := x0 s; u0 := u0 s; z0 :=
     z0 s; warnings := v |}.

(** [self.flags[name] = v] *)
Definition set_flag_setup (v : bool) (s : MPC) : MPC :=
  set_flags {| flag_setup := v; flag_set_objective := flag_set_objective
    (flags s); flag_set_rterm := flag_set_rterm (flags s);
    flag_set_tvp_fun := flag_set_tvp_fun (flags s); flag_set_p_fun :=
    flag_set_p_fun (flags s); flag_set_initial_guess :=
    flag_set_initial_guess (flags s); flag_prepare_nlp := flag_prepare_nlp
    (flags s) |} s.

Definition set_flag_set_objective (v : bool) (s : MPC) : MPC :=
  set_flags {| flag_setup := flag_setup (flags s); flag_set_objective :=
    v; flag_set_rterm := flag_set_rterm (flags s); flag_set_tvp_fun :=
    flag_set_tvp_fun (flags s); flag_set_p_fun := flag_set_p_fun (flags
    s); flag_set_initial_guess := flag_set_initial_guess (flags s);
    flag_prepare_nlp := flag_prepare_nlp (flags s) |} s.

Definition set_flag_set_tvp_fun (v : bool) (s : MPC) : MPC :=
  set_flags {| flag_setup := flag_setup (flags s); flag_set_objective :=
    flag_set_objective (flags s); flag_set_rterm := flag_set_rterm (flags
    s); flag_set_tvp_fun := v; flag_set_p_fun := flag_set_p_fun (flags s);
    flag_set_initial_guess := flag_set_initial_guess (flags s);
    flag_prepare_nlp := flag_prepare_nlp (flags s) |} s.

Definition set_flag_set_p_fun (v : bool) (s : MPC) : MPC :=
  set_flags {| flag_setup := flag_setup (flags s); flag_set_objective :=
    flag_set_objective (flags s); flag_set_rterm := flag_set_rterm (flags
    s); flag_set_tvp_fun := flag_set_tvp_fun (flags s); flag_set_p_fun :=
    v; flag_set_initial_guess := flag_set_initial_guess (flags s);
    flag_prepare_nlp := flag_prepare_nlp (flags s) |} s.

Definition set_flag_set_initial_guess (v : bool) (s : MPC) : MPC :=
  set_flags {| flag_setup := flag_setup (flags s); flag_set_objective :=
    flag_set_objective (flags s); flag_set_rterm := flag_set_rterm (flags
    s); flag_set_tvp_fun := flag_set_tvp_fun (flags s); flag_set_p_fun :=
    flag_set_p_fun (flags s); flag_set_initial_guess := v;
    flag_prepare_nlp := flag_prepare_nlp (flags s) |} s.

Definition set_flag_prepare_nlp (v : bool) (s : MPC) : MPC :=
  set_flags {| flag_setup := flag_setup (flags s); flag_set_objective :=
    flag_set_objective (flags s); flag_set_rterm := flag_set_rterm (flags
    s); flag_set_tvp_fun := flag_set_tvp_fun (flags s); flag_set_p_fun :=
    flag_set_p_fun (flags s); flag_set_initial_guess :=
    flag_set_initial_guess (flags s); flag_prepare_nlp := v |} s.

(** [self.n_combinations = v] *)
Definition set_n_combinations (v : nat) (s : MPC) : MPC :=
  set_settings {| n_horizon := n_horizon (settings s); n_robust :=
    n_robust (settings s); n_combinations := v; open_loop := open_loop
    (settings s); use_terminal_bounds := use_terminal_bounds (settings s);
    nl_cons_check_colloc_points := nl_cons_check_colloc_points (settings
    s); nl_cons_single_slack := nl_cons_single_slack (settings s);
    cons_check_colloc_points := cons_check_colloc_points (settings s);
    t_step := t_step (settings s) |} s.

(** [self._x_terminal_lb = v] *)
Definition set_x_terminal_lb (v : list ebound) (s : MPC) : MPC :=
  set_bounds {| x_lb := x_lb (bounds s); x_ub := x_ub (bounds s); u_lb :=
    u_lb (bounds s); u_ub := u_ub (bounds s); z_lb := z_lb (bounds s);
    z_ub := z_ub (bounds s); eps_lb := eps_lb (bounds s); eps_ub := eps_ub
    (bounds s); x_terminal_lb := v; x_terminal_ub := x_terminal_ub (bounds
    s) |} s.

(** [self._x_terminal_ub = v] *)
Definition set_x_terminal_ub (v : list ebound) (s : MPC) : MPC :=
  set_bounds {| x_lb := x_lb (bounds s); x_ub := x_ub (bounds s); u_lb :=
    u_lb (bounds s); u_ub := u_ub (bounds s); z_lb := z_lb (bounds s);
    z_ub := z_ub (bounds s); eps_lb := eps_lb (bounds s); eps_ub := eps_ub
    (bounds s); x_terminal_lb := x_terminal_lb (bounds s); x_terminal_ub
    := v |} s.

Inductive outcome (A : Type) : Type :=
| Done (a : A) (s : MPC)
| Raised (e : exn) (s : MPC).
Arguments Done {A} a s.
Arguments Raised {A} e s.

Definition method (A : Type) : Type := MPC -> outcome A.

Definition ret {A : Type} (a : A) : method A := fun s => Done a s.

Definition bind {A B : Type} (m : method A) (f : A -> method B) : method B :=
  fun s => match m s with
           | Done a s' => f a s'
           | Raised e s' => Raised e s'
           end.

Definition raise {A : Type} (e : exn) : method A := fun s => Raised e s.

Definition get : method MPC := fun s => Done s s.

Definition modify (f : MPC -> MPC) : method unit := fun s => Done tt (f s).

Definition py_assert (b : bool) (msg : string) : method unit :=
  if b then ret tt else raise (AssertionError msg).

Declare Scope method_scope.
Delimit Scope method_scope with method.
Notation "x <- m ;; k" := (bind m (fun x => k))
  (at level 61, m at next level, right associativity) : method_scope.
Notation "m ;;; k" := (bind m (fun _ => k))
  (at level 61, right associativity) : method_scope.

Definition warn (w : warning) : method unit :=
  modify (fun s => set_warnings (warnings s ++ [w]) s).

(** ** What [_prepare_nlp] obtains from the optimizer base class

    [_setup_discretization] and [_setup_scenario_tree] are methods of
    [do_mpc.optimizer.Optimizer]; [_prepare_nlp] only consumes what they
    return, so the returned values are arguments of the embedding. *)

(** [ifcn, n_total_coll_points = self._setup_discretization()]; of [ifcn]
    the assembler reads the number of rows of its first output,
    [g_ksb.shape[0]]. *)
Record Discretization : Type := {
  n_total_coll_points : nat;
  g_rows : nat
}.

(** [n_branches, n_scenarios, child_scenario, parent_scenario,
    branch_offset = self._setup_scenario_tree()]: integer tables, read
    as [n_scenarios[k]], [child_scenario[k][s][b]], ... The embedding
    reads them as total functions of the indices; the claims are stated
    for the indices the loops visit. *)
Record ScenarioTree : Type := {
  n_branches : nat -> nat;
  n_scenarios : nat -> nat;
  child_scenario : nat -> nat -> nat -> nat;
  parent_scenario : nat -> nat -> nat;
  branch_offset : nat -> nat -> nat
}.

(** Rows of a block of [cons], read off its entry in [cons_lb] or
    [cons_ub]; [nl_rows] is the number of rows of [self._nl_cons_lb]. *)
Definition bound_rows (nl_rows : nat) (b : cons_bound) : nat :=
  match b with
  | Zeros r => r
  | NlConsLb | NlConsUb => nl_rows
  end.

(** ** The assembly loops of [_prepare_nlp] *)

(** The rational [1/n], for [n] positive. *)
Definition one_over (n : nat) : Q := Qmake 1 (Pos.of_nat n).

(** [1. / n]: division of a float by the integer [n]; it raises when
    [n] is [0]. The quotient is kept as a rational. *)
Definition py_inv (n : nat) : exn + Q :=
  match n with
  | 0 => inl ZeroDivisionError
  | S _ => inr (one_over n)
  end.

(** [[1. / n_scenarios[k + 1] for k in ks]] *)
Fixpoint omega_of (n_scen : nat -> nat) (ks : list nat) : exn + list Q :=
  match ks with
  | [] => inr []
  | k :: ks' =>
      match py_inv (n_scen (k + 1)) with
      | inl e => inl e
      | inr w =>
          match omega_of n_scen ks' with
          | inl e => inl e
          | inr ws => inr (w :: ws)
          end
      end
  end.

(** The local variables of [_prepare_nlp] that the loops update. The loop
    variables [s], [s_u] and [current_scenario] stay bound after their
    loops, and the padding loop reads them. *)
Record acc : Type := {
  obj : list expr;
  cons : list expr;
  cons_lb : list cons_bound;
  cons_ub : list cons_bound;
  opt_aux : list (nat * nat * expr);
  var_s : option nat;
  var_s_u : option nat;
  var_current_scenario : option nat
}.

(** [cons.append(e); cons_lb.append(lb); cons_ub.append(ub)] *)
Definition cons_append (e : expr) (lb ub : cons_bound) (a : acc) : acc :=
  {| obj := obj a; cons := cons a ++ [e]; cons_lb := cons_lb a ++ [lb];
     cons_ub := cons_ub a ++ [ub]; opt_aux := opt_aux a;
     var_s := var_s a; var_s_u := var_s_u a;
     var_current_scenario := var_current_scenario a |}.

(** [obj += e] *)
Definition obj_add (e : expr) (a : acc) : acc :=
  {| obj := obj a ++ [e]; cons := cons a; cons_lb := cons_lb a;
     cons_ub := cons_ub a; opt_aux := opt_aux a;
     var_s := var_s a; var_s_u := var_s_u a;
     var_current_scenario := var_current_scenario a |}.

(** [opt_aux['_aux', k, s] = e] *)
Definition aux_assign (k s : nat) (e : expr) (a : acc) : acc :=
  {| obj := obj a; cons := cons a; cons_lb := cons_lb a;
     cons_ub := cons_ub a; opt_aux := opt_aux a ++ [(k, s, e)];
     var_s := var_s a; var_s_u := var_s_u a;
     var_current_scenario := var_current_scenario a |}.

Definition bind_s (s s_u : nat) (a : acc) : acc :=
  {| obj := obj a; cons := cons a; cons_lb := cons_lb a;
     cons_ub := cons_ub a; opt_aux := opt_aux a;
     var_s := Some s; var_s_u := Some s_u;
     var_current_scenario := var_current_scenario a |}.

Definition bind_current_scenario (c : nat) (a : acc) : acc :=
  {| obj := obj a; cons := cons a; cons_lb := cons_lb a;
     cons_ub := cons_ub a; opt_aux := opt_aux a;
     var_s := var_s a; var_s_u := var_s_u a;
     var_current_scenario := Some c |}.

Section Assembler.

Variable disc : Discretization.
Variable tree : ScenarioTree.
Variable self : MPC.

Let N := n_horizon (settings self).
Let ncp := n_total_coll_points disc.

(** [n_max_scenarios = self.n_combinations ** self.n_robust] *)
Definition n_max_scenarios : nat :=
  n_combinations (settings self) ^ n_robust (settings self).

Definition n_u_scenarios : nat :=
  if open_loop (settings self) then 1 else n_max_scenarios.

Definition n_eps : nat :=
  if nl_cons_single_slack (settings self) then 1 else N.

(** The index [-1] on the collocation axis of ['_x'], of length
    [1 + n_total_coll_points], and of ['_z'], of length
    [max(n_total_coll_points, 1)]. *)
Definition x_last : nat := ncp.
Definition z_last : nat := Nat.max ncp 1 - 1.

(** The arguments, common to the stage cost, the auxiliary expressions
    and the nonlinear constraints, at collocation indices [ix], [iz]. *)
Definition stage_args (k s s_u ix iz current_scenario : nat) : list expr :=
  [OptXUnscaled (x_at k s ix); OptXUnscaled (u_at k s_u);
   OptXUnscaled (z_at k s iz); OptP (p_tvp k);
   OptP (p_p current_scenario)].

(** The body of [for b in range(n_branches[k])]. *)
Definition branch_body (omega : list Q) (k s s_u b : nat) (a : acc) : acc :=
  let current_scenario := b + branch_offset tree k s in
  let a := bind_current_scenario current_scenario a in
  let child := child_scenario tree k s b in
  let col_xk :=
    Vertcat (map (fun i => OptX (x_at (k + 1) child i)) (seq 0 ncp)) in
  let col_zk :=
    Vertcat (map (fun i => OptX (z_at k child i)) (seq 0 (Nat.max ncp 1))) in
  let ifcn_args :=
    [OptX (x_at k s x_last); col_xk; OptX (u_at k s_u); col_zk;
     OptP (p_tvp k); OptP (p_p current_scenario); W0] in
  let g_ksb := Call f_ifcn_g ifcn_args in
  let xf_ksb := Call f_ifcn_xf ifcn_args in
  (* collocation equations *)
  let a := cons_append g_ksb (Zeros (g_rows disc)) (Zeros (g_rows disc)) a in
  (* continuity constraints *)
  let a := cons_append (Sub xf_ksb (OptX (x_at (k + 1) child x_last)))
             (Zeros (n_x (model self))) (Zeros (n_x (model self))) a in
  let k_eps := Nat.min k (n_eps - 1) in
  let a :=
    if nl_cons_check_colloc_points (settings self) then
      fold_left
        (fun a i =>
           cons_append
             (Call f_nl_cons (stage_args k s s_u i i current_scenario
                                ++ [OptXUnscaled (eps_at k_eps s)]))
             NlConsLb NlConsUb a)
        (seq 0 ncp) a
    else
      cons_append
        (Call f_nl_cons (stage_args k s s_u x_last 0 current_scenario
                           ++ [OptXUnscaled (eps_at k_eps s)]))
        NlConsLb NlConsUb a in
  (* contribution to the cost *)
  let a := obj_add (Scale (nth k omega 0%Q)
                      (Call f_lterm
                         (stage_args k s s_u x_last z_last current_scenario)))
             a in
  let a := obj_add (Call f_epsterm [OptXUnscaled (eps_at k_eps s)]) a in
  let a :=
    if k =? N - 1 then
      obj_add (Scale (nth k omega 0%Q)
                 (Call f_mterm [OptXUnscaled (x_at (k + 1) s x_last);
                                OptP (p_tvp (k + 1));
                                OptP (p_p current_scenario)])) a
    else a in
  (* U regularization *)
  let a :=
    if k =? 0 then
      obj_add (RtermDot (Square (Sub (OptX (u_at 0 s_u))
                                   (DivScaling (OptP p_u_prev) cls_u)))) a
    else
      obj_add (RtermDot
                 (Square (Sub (OptX (u_at k s_u))
                            (OptX (u_at (k - 1)
                                     (parent_scenario tree k s_u)))))) a in
  aux_assign k s
    (Call f_aux (stage_args k s s_u x_last z_last current_scenario)) a.

(** The body of [for s in range(n_scenarios[k])]. *)
Definition scenario_body (omega : list Q) (k s : nat) (a : acc) : acc :=
  let s_u := if open_loop (settings self) then 0 else s in
  let a := bind_s s s_u a in
  fold_left (fun a b => branch_body omega k s s_u b a)
    (seq 0 (n_branches tree k)) a.

(** The body of [for s_ in range(n_scenarios[k], n_max_scenarios)]: it
    reads [s], [s_u] and [current_scenario] as the loops above left
    them. *)
Definition padding_body (k s_ : nat) (a : acc) : exn + acc :=
  match var_s a, var_s_u a, var_current_scenario a with
  | Some s, Some s_u, Some current_scenario =>
      inr (aux_assign k s_
             (Call f_aux (stage_args k s s_u x_last z_last current_scenario))
             a)
  | None, _, _ => inl (NameError "s")
  | _, None, _ => inl (NameError "s_u")
  | _, _, None => inl (NameError "current_scenario")
  end.

(** A [for] loop whose body may raise. *)
Fixpoint for_each {X : Type} (body : X -> acc -> exn + acc)
    (xs : list X) (a : acc) : exn + acc :=
  match xs with
  | [] => inr a
  | x :: xs' =>
      match body x a with
      | inl e => inl e
      | inr a' => for_each body xs' a'
      end
  end.

(** [range(lo, hi)] *)
Definition py_range (lo hi : nat) : list nat := seq lo (hi - lo).

(** The body of [for k in range(self.n_horizon)]. *)
Definition stage_body (omega : list Q) (k : nat) (a : acc) : exn + acc :=
  let a := fold_left (fun a s => scenario_body omega k s a)
             (seq 0 (n_scenarios tree k)) a in
  for_each (padding_body k)
    (py_range (n_scenarios tree k) n_max_scenarios) a.

(** The locals before the loops: [obj = DM(0)], the initial condition
    as first constraint. *)
Definition acc_init : acc :=
  cons_append
    (Sub (OptX (x_at 0 0 x_last)) (DivScaling (OptP p_x0) cls_x))
    (Zeros (n_x (model self))) (Zeros (n_x (model self)))
    {| obj := []; cons := []; cons_lb := []; cons_ub := [];
       opt_aux := []; var_s := None; var_s_u := None;
       var_current_scenario := None |}.

(** From [obj = DM(0)] to the end of the loop over the stages. *)
Definition assemble : exn + acc :=
  let a := acc_init in
  match omega_of (n_scenarios tree) (seq 0 N) with
  | inl e => inl e
  | inr omega =>
      (* omega_delta_u is computed alike and never read *)
      for_each (stage_body omega) (seq 0 N) a
  end.

End Assembler.

(** ** [MPC.set_objective] *)

Local Open Scope method_scope.

(** [v.shape]: [None] and objects without the attribute raise. *)
Definition py_shape (v : pyobj) : method (nat * nat) :=
  match v with
  | PyCasadi _ sh _ => ret sh
  | PyArray sh => ret sh
  | PyNone => raise (AttributeError "'NoneType' object has no attribute 'shape'")
  | PyOther => raise (AttributeError "object has no attribute 'shape'")
  end.

Definition shape_eqb (a b : nat * nat) : bool :=
  (fst a =? fst b) && (snd a =? snd b).

(** [isinstance(v, (casadi.DM, casadi.SX, casadi.MX))] *)
Definition is_casadi (v : pyobj) : bool :=
  match v with PyCasadi _ _ _ => true | _ => false end.

Definition is_none (v : pyobj) : bool :=
  match v with PyNone => true | _ => false end.

(** Whether a [Function] of the expression evaluates on numeric inputs. *)
Definition evaluates (v : pyobj) : bool :=
  match v with PyCasadi _ _ ok => ok | _ => false end.

(** [DM(0)] *)
Definition DM_0 : pyobj := PyCasadi DM (1, 1) true.

Definition set_objective (mterm_arg lterm_arg : pyobj) : method unit :=
  sh <- py_shape mterm_arg ;;
  py_assert (shape_eqb sh (1, 1)) "mterm must have shape=(1,1)." ;;;
  sh <- py_shape lterm_arg ;;
  py_assert (shape_eqb sh (1, 1)) "lterm must have shape=(1,1)." ;;;
  s <- get ;;
  py_assert (negb (flag_setup (flags s)))
    "Cannot call .set_objective after .setup()." ;;;
  (if negb (is_casadi mterm_arg)
   then raise (Exception_ "mterm must be of type casadi.DM, casadi.SX or casadi.MX.")
   else ret tt) ;;;
  (if negb (is_casadi lterm_arg)
   then raise (Exception_ "lterm must be of type casadi.DM, casadi.SX or casadi.MX.")
   else ret tt) ;;;
  (if is_none mterm_arg
   then modify (set_mterm (Some DM_0))
   else modify (set_mterm (Some mterm_arg))) ;;;
  modify (set_has_mterm_fun true) ;;;
  (if is_none lterm_arg
   then modify (set_lterm (Some DM_0))
   else modify (set_lterm (Some lterm_arg))) ;;;
  modify (set_has_lterm_fun true) ;;;
  (* try: self.mterm_fun(...) except: raise Exception(...) *)
  (if negb (evaluates mterm_arg)
   then raise (Exception_ "mterm contains invalid symbolic variables as inputs.")
   else ret tt) ;;;
  (* try: self.lterm(...) except: err_msg.format(...) -- nothing is raised *)
  modify (set_flag_set_objective true).

(** ** [MPC._check_validity] *)

(** [lb.cat > ub.cat], elementwise. *)
Definition bound_check (lb ub : list ebound) : list bool :=
  map (fun lu => ebound_gtb (fst lu) (snd lu)) (combine lb ub).

Definition np_any (bs : list bool) : bool := existsb (fun b => b) bs.
Definition np_all (bs : list bool) : bool := forallb (fun b => b) bs.

Definition Qltb (a b : Q) : bool := negb (Qle_bool b a).

Definition check_bounds (lb ub : list ebound) : method unit :=
  if np_any (bound_check lb ub)
  then raise (Exception_ "Your bounds are inconsistent.")
  else ret tt.

(** [self.get_p_template(n)] assigns [self.n_combinations]. *)
Definition get_p_template (n : nat) : method unit :=
  modify (set_n_combinations n).

(** [self.set_p_fun(p_fun)] with a [p_fun] that returns the template of
    [get_p_template(self.n_combinations)], so that its assertion holds. *)
Definition set_p_fun : method unit :=
  s <- get ;;
  get_p_template (n_combinations (settings s)) ;;;
  modify (set_flag_set_p_fun true) ;;;
  modify (set_has_p_fun true).

(** Modelled from the spec: [Optimizer.set_tvp_fun], a method of
    do_mpc/optimizer.py; it stores the function and records that it was
    supplied ("required-but-unsupplied parameter function"). *)
Definition set_tvp_fun : method unit :=
  modify (set_flag_set_tvp_fun true) ;;;
  modify (set_has_tvp_fun true).

Definition _check_validity : method unit :=
  s <- get ;;
  (if negb (flag_set_objective (flags s))
   then raise (Exception_ "Objective is undefined. Please call .set_objective() prior to .setup().")
   else ret tt) ;;;
  (if negb (flag_set_rterm (flags s)) then warn WarnRtermNotSet else ret tt) ;;;
  (if negb (flag_set_tvp_fun (flags s)) && (0 <? tvp_size (model s))
   then raise (Exception_ "You have not supplied a function to obtain the time-varying parameters defined in model.")
   else ret tt) ;;;
  (if negb (flag_set_p_fun (flags s)) && (0 <? p_size (model s))
   then raise (Exception_ "You have not supplied a function to obtain the parameters defined in model.")
   else ret tt) ;;;
  (if np_any (map (fun r => Qltb r 0) (rterm_factor s))
   then warn WarnNegativeRterm else ret tt) ;;;
  (* for lb, ub in zip([x, u, z lower], [x, u, z upper]) *)
  check_bounds (x_lb (bounds s)) (x_ub (bounds s)) ;;;
  check_bounds (u_lb (bounds s)) (u_ub (bounds s)) ;;;
  check_bounds (z_lb (bounds s)) (z_ub (bounds s)) ;;;
  (if np_all (map is_pos_inf (x_terminal_ub (bounds s)))
      && use_terminal_bounds (settings s)
   then modify (set_x_terminal_ub (x_ub (bounds s))) else ret tt) ;;;
  (if np_all (map is_neg_inf (x_terminal_lb (bounds s)))
      && use_terminal_bounds (settings s)
   then modify (set_x_terminal_lb (x_lb (bounds s))) else ret tt) ;;;
  (if negb (has_tvp_fun s) then set_tvp_fun else ret tt) ;;;
  (if negb (has_p_fun s) then get_p_template 1 ;;; set_p_fun else ret tt).

(** ** [MPC._update_bounds] *)

(** [struct[index] = v] for every power index selected by [sel]. *)
Definition assign_where (sel : opt_x_ref -> bool) (v : list ebound)
    (b : bound_struct) : bound_struct :=
  fun r => if sel r then v else b r.

(** The selections of [_update_bounds]; [last] is the index [-1] of the
    collocation axis of ['_x']. *)
Definition sel_x_stages (lo hi : nat) (r : opt_x_ref) : bool :=   (* '_x', lo:hi *)
  match r with x_at k _ _ => (lo <=? k) && (k <? hi) | _ => false end.

Definition sel_x_stages_at (lo hi i : nat) (r : opt_x_ref) : bool := (* '_x', lo:hi, :, i *)
  match r with
  | x_at k _ j => (lo <=? k) && (k <? hi) && (j =? i)
  | _ => false
  end.

Definition sel_x_stage_at (k0 i : nat) (r : opt_x_ref) : bool :=  (* '_x', k0, :, i *)
  match r with x_at k _ j => (k =? k0) && (j =? i) | _ => false end.

Definition sel_z (r : opt_x_ref) : bool :=                        (* '_z' *)
  match r with z_at _ _ _ => true | _ => false end.

Definition sel_z_at (i : nat) (r : opt_x_ref) : bool :=           (* '_z', :, :, i *)
  match r with z_at _ _ j => j =? i | _ => false end.

Definition sel_u (r : opt_x_ref) : bool :=                        (* '_u' *)
  match r with u_at _ _ => true | _ => false end.

Definition sel_eps (r : opt_x_ref) : bool :=                      (* '_eps' *)
  match r with eps_at _ _ => true | _ => false end.

Definition update_struct (last : nat) (s : MPC)
    (path_x path_z term_x path_u path_eps : list ebound)
    (b : bound_struct) : bound_struct :=
  let N := n_horizon (settings s) in
  let b :=
    if cons_check_colloc_points (settings s) then
      let b := assign_where (sel_x_stages 1 N) path_x b in
      let b := assign_where sel_z path_z b in
      assign_where (sel_x_stage_at N last) term_x b
    else
      let b := assign_where (sel_x_stages_at 1 N last) path_x b in
      let b := assign_where (sel_z_at 0) path_z b in
      assign_where (sel_x_stage_at N last) term_x b in
  let b := assign_where sel_u path_u b in
  assign_where sel_eps path_eps b.

(** Each assignment of the source is made to [lb_opt_x] and, on the next
    line, to [ub_opt_x]; [update_struct] is the sequence of assignments
    to one of the two. [disc] gives the length of the collocation axis
    of [self._opt_x]. *)
Definition _update_bounds (disc : Discretization) : method unit :=
  s <- get ;;
  let last := n_total_coll_points disc in
  modify (set_lb_opt_x
            (update_struct last s (x_lb (bounds s)) (z_lb (bounds s))
               (x_terminal_lb (bounds s)) (u_lb (bounds s))
               (eps_lb (bounds s)) (lb_opt_x s))) ;;;
  modify (set_ub_opt_x
            (update_struct last s (x_ub (bounds s)) (z_ub (bounds s))
               (x_terminal_ub (bounds s)) (u_ub (bounds s))
               (eps_ub (bounds s)) (ub_opt_x s))).

(** ** [MPC._prepare_nlp], [MPC.setup], [MPC.make_step] *)

Inductive x0_arg : Type :=
| X0Array (v : list Q)          (* np.ndarray or casadi.DM *)
| X0Struct (v : list Q)         (* structure3.DMStruct *)
| X0Invalid.

(** Size of the entry of [opt_x] at a power index. *)
Definition entry_size (s : MPC) (r : opt_x_ref) : nat :=
  match r with
  | x_at _ _ _ => n_x (model s)
  | z_at _ _ _ => n_z (model s)
  | u_at _ _ => n_u (model s)
  | eps_at _ _ => List.length (eps_lb (bounds s))
  end.

(** [opt_x(v)]: the structure with every entry set to [v]. *)
Definition opt_x_full {A : Type} (s : MPC) (v : A) : opt_x_ref -> list A :=
  fun r => repeat v (entry_size s r).

Definition opt_p_size (s : MPC) (r : opt_p_ref) : nat :=
  match r with
  | p_x0 => n_x (model s)
  | p_tvp _ => tvp_size (model s)
  | p_p _ => p_size (model s)
  | p_u_prev => n_u (model s)
  end.

Definition opt_p_full (s : MPC) (v : Q) : opt_p_struct :=
  fun r => repeat v (opt_p_size s r).

Definition opt_p_assign (sel : opt_p_ref -> bool) (v : opt_p_ref -> list Q)
    (p : opt_p_struct) : opt_p_struct :=
  fun r => if sel r then v r else p r.

Definition opt_x_assign (sel : opt_x_ref -> bool) (v : list Q)
    (x : opt_x_struct) : opt_x_struct :=
  fun r => if sel r then v else x r.

Definition sel_x (r : opt_x_ref) : bool :=
  match r with x_at _ _ _ => true | _ => false end.

(** Elementwise [a * b] and [a / b] of two vectors. *)
Fixpoint vec_mul (a b : list Q) : list Q :=
  match a, b with
  | x :: a', y :: b' => Qmult x y :: vec_mul a' b'
  | _, _ => []
  end.

Fixpoint vec_div (a b : list Q) : list Q :=
  match a, b with
  | x :: a', y :: b' => Qdiv x y :: vec_div a' b'
  | _, _ => []
  end.

Section Controller.

(** Methods inherited from [do_mpc.optimizer.Optimizer] and the
    collaborators stored on [self]. *)
Variable _setup_discretization : MPC -> Discretization.
Variable _setup_scenario_tree : MPC -> ScenarioTree.
Variable tvp_fun : Q -> nat -> list Q.       (* self.tvp_fun(t)['_tvp', k] *)
Variable p_fun : Q -> nat -> list Q.         (* self.p_fun(t)['_p', c] *)
(** The NLP solver [self.S]: initial guess, parameters, bounds of the
    decision variables to the primal solution. *)
Variable solver :
  opt_x_struct -> opt_p_struct -> bound_struct -> bound_struct ->
  opt_x_struct.

Definition _prepare_nlp : method unit :=
  (* self._setup_nl_cons(nl_cons_input) builds the constraint function *)
  _check_validity ;;;
  s <- get ;;
  let disc := _setup_discretization s in
  let tree := _setup_scenario_tree s in
  modify (set_lb_opt_x (opt_x_full s NegInf)) ;;;
  modify (set_ub_opt_x (opt_x_full s PosInf)) ;;;
  match assemble disc tree s with
  | inl e => raise e
  | inr a =>
      _update_bounds disc ;;;
      modify (set_nlp (Some {| nlp_obj := obj a;
                               nlp_cons := cons a;
                               nlp_cons_lb := cons_lb a;
                               nlp_cons_ub := cons_ub a;
                               nlp_opt_aux := opt_aux a |})) ;;;
      modify (set_opt_x_num (Some (opt_x_full s 0%Q))) ;;;
      modify (set_opt_p_num (Some (opt_p_full s 0%Q))) ;;;
      modify (set_flag_prepare_nlp true)
  end.

(** The blocks of constraints and bounds are concatenated and handed to
    [nlpsol]; the embedding keeps them as they are. *)
Definition _create_nlp : method unit :=
  modify (set_flag_setup true).

(** Modelled from the spec: [Optimizer.prepare_nlp], a method of
    do_mpc/optimizer.py that [setup] calls; it runs the internal method
    of the same name ("See detailed documentation with
    optimizer.prepare_nlp"). *)
Definition prepare_nlp : method unit := _prepare_nlp.

(** Modelled from the spec: [Optimizer.create_nlp], a method of
    do_mpc/optimizer.py that [setup] calls; it runs the internal method
    of the same name ("See detailed documentation in
    optimizer.create_nlp"). *)
Definition create_nlp : method unit := _create_nlp.

Definition setup : method unit :=
  prepare_nlp ;;;
  create_nlp.

Definition set_initial_guess : method unit :=
  s <- get ;;
  py_assert (flag_setup (flags s))
    "MPC was not setup yet. Please call MPC.setup()." ;;;
  match opt_x_num s with
  | None => raise (TypeError "'NoneType' object does not support item assignment")
  | Some x =>
      let x := opt_x_assign sel_x (vec_div (x0 s) (x_scaling s)) x in
      let x := opt_x_assign sel_u (vec_div (u0 s) (u_scaling s)) x in
      let x := opt_x_assign sel_z (vec_div (z0 s) (z_scaling s)) x in
      modify (set_opt_x_num (Some x))
  end ;;;
  modify (set_flag_set_initial_guess true).

(** Modelled from the spec: [Optimizer.solve], a method of
    do_mpc/optimizer.py: "call the solver with current decision vector
    as warm start and refreshed parameters", "persist the solver's full
    returned decision vector as next warm start". *)
Definition solve : method unit :=
  s <- get ;;
  match opt_x_num s, opt_p_num s with
  | Some x, Some p =>
      modify (set_opt_x_num (Some (solver x p (lb_opt_x s) (ub_opt_x s))))
  | _, _ => raise (TypeError "'NoneType' object is not subscriptable")
  end.

Definition make_step (x0_in : x0_arg) : method (list Q) :=
  s <- get ;;
  py_assert (flag_setup (flags s))
    "MPC was not setup yet. Please call MPC.setup()." ;;;
  x0_val <- match x0_in with
            | X0Array v => ret v
            | X0Struct v => ret v
            | X0Invalid => raise (Exception_ "Invalid type for x0.")
            end ;;
  py_assert (List.length x0_val =? n_x (model s))
    "Wrong input. Expected vector with n_x elements" ;;;
  (if negb (flag_set_initial_guess (flags s))
   then warn WarnNoInitialGuess ;;; modify (set_flag_set_initial_guess true)
   else ret tt) ;;;
  s <- get ;;
  let u_prev := u0 s in
  let tvp0 := tvp_fun (t0 s) in
  let p0 := p_fun (t0 s) in
  let t0_ := t0 s in
  match opt_p_num s with
  | None => raise (TypeError "'NoneType' object does not support item assignment")
  | Some p =>
      let p := opt_p_assign (fun r => match r with p_x0 => true | _ => false end)
                 (fun _ => x0_val) p in
      let p := opt_p_assign (fun r => match r with p_u_prev => true | _ => false end)
                 (fun _ => u_prev) p in
      let p := opt_p_assign (fun r => match r with p_tvp _ => true | _ => false end)
                 (fun r => match r with p_tvp k => tvp0 k | _ => [] end) p in
      let p := opt_p_assign (fun r => match r with p_p _ => true | _ => false end)
                 (fun r => match r with p_p c => p0 c | _ => [] end) p in
      modify (set_opt_p_num (Some p))
  end ;;;
  solve ;;;
  s <- get ;;
  match opt_x_num s with
  | None => raise (TypeError "'NoneType' object is not subscriptable")
  | Some x =>
      let u0_ := vec_mul (x (u_at 0 0)) (u_scaling s) in
      let z0_ := vec_mul (x (z_at 0 0 0)) (z_scaling s) in
      (* self.data.update(...) stores the step in the data object *)
      modify (set_t0 (Qplus (t0 s) (t_step (settings s)))) ;;;
      modify (set_x0 x0_val) ;;;
      modify (set_u0 u0_) ;;;
      modify (set_z0 z0_) ;;;
      ret u0_
  end.

End Controller.

(** ** The scenario tree and the discrete-time discretization *)

(** Modelled from the spec: [Optimizer._setup_scenario_tree], a method of
    do_mpc/optimizer.py. "n_scenarios[k] = n_combinations^min(k,n_robust);
    per (k,s): child index set (size n_combinations if k<n_robust else 1)
    and parent index", "node indices assigned via fixed depth-first,
    combination-ordered enumeration". The spec leaves the values of the
    branch offsets open; they are the argument [offset]. *)
Definition spec_scenario_tree (offset : nat -> nat -> nat) (s : MPC)
    : ScenarioTree :=
  let nc := n_combinations (settings s) in
  let nr := n_robust (settings s) in
  let nb := fun k => if k <? nr then nc else 1 in
  {| n_branches := nb;
     n_scenarios := fun k => nc ^ Nat.min k nr;
     child_scenario := fun k s b => s * nb k + b;
     parent_scenario := fun k c => c / nb (k - 1);
     branch_offset := offset |}.

(** Modelled from the spec: [Optimizer._setup_discretization] for a
    discrete-time model, a method of do_mpc/optimizer.py. "Discrete-time
    model: identity mapping, single residual = model's own difference
    equation": no collocation points. The first output of [ifcn] holds
    the algebraic equations of the model, one row per algebraic state;
    it has no row for a model without algebraic states. *)
Definition discrete_discretization (s : MPC) : Discretization :=
  {| n_total_coll_points := 0; g_rows := n_z (model s) |}.

(** * Properties *)

(** ** Loops that append *)

Lemma fold_left_appends {X T : Type} (proj : acc -> list T)
    (f : X -> acc -> acc) (g : X -> list T) :
  (forall x a, proj (f x a) = proj a ++ g x) ->
  forall xs a,
    proj (fold_left (fun a x => f x a) xs a) = proj a ++ flat_map g xs.
Proof.
  intros Hf xs; induction xs as [|x xs IH]; intros a; cbn [fold_left flat_map].
  - now rewrite app_nil_r.
  - rewrite IH, Hf. now rewrite app_assoc.
Qed.

Lemma fold_left_keeps {X T : Type} (proj : acc -> T) (f : X -> acc -> acc) :
  (forall x a, proj (f x a) = proj a) ->
  forall xs a, proj (fold_left (fun a x => f x a) xs a) = proj a.
Proof.
  intros Hf xs; induction xs as [|x xs IH]; intros a; cbn [fold_left].
  - reflexivity.
  - now rewrite IH, Hf.
Qed.

Lemma flat_map_singleton {X T : Type} (f : X -> T) (xs : list X) :
  flat_map (fun x => [f x]) xs = map f xs.
Proof.
  induction xs as [|x xs IH]; cbn; [reflexivity | now rewrite IH].
Qed.

Lemma for_each_inv {X : Type} (P : acc -> Prop)
    (body : X -> acc -> exn + acc) (xs : list X) :
  (forall x a, P a -> exists a', body x a = inr a' /\ P a') ->
  forall a, P a -> exists a', for_each body xs a = inr a' /\ P a'.
Proof.
  intros Hb; induction xs as [|x xs IH]; intros a Ha; cbn [for_each].
  - now exists a.
  - destruct (Hb x a Ha) as (a' & -> & Ha'). now apply IH.
Qed.

(** The accumulator with nothing in it: what a loop body appends to it
    is what the body appends to any accumulator. *)
Definition acc_empty : acc :=
  {| obj := []; cons := []; cons_lb := []; cons_ub := []; opt_aux := [];
     var_s := None; var_s_u := None; var_current_scenario := None |}.

Section AssemblerFacts.

Variable disc : Discretization.
Variable tree : ScenarioTree.
Variable self : MPC.

Let N := n_horizon (settings self).
Let s_u_of (s : nat) : nat := if open_loop (settings self) then 0 else s.

(** What one branch appends. *)
Definition branch_obj (omega : list Q) (k s b : nat) : list expr :=
  obj (branch_body disc tree self omega k s (s_u_of s) b acc_empty).
Definition branch_cons (omega : list Q) (k s b : nat) : list expr :=
  cons (branch_body disc tree self omega k s (s_u_of s) b acc_empty).
Definition branch_cons_lb (omega : list Q) (k s b : nat) : list cons_bound :=
  cons_lb (branch_body disc tree self omega k s (s_u_of s) b acc_empty).
Definition branch_cons_ub (omega : list Q) (k s b : nat) : list cons_bound :=
  cons_ub (branch_body disc tree self omega k s (s_u_of s) b acc_empty).

Ltac branch_unfold :=
  unfold branch_obj, branch_cons, branch_cons_lb, branch_cons_ub,
    branch_body;
  repeat match goal with
    | |- context [if ?c then _ else _] => destruct c
    end;
  cbn [obj cons cons_lb cons_ub opt_aux var_s var_s_u var_current_scenario
         aux_assign obj_add cons_append bind_current_scenario bind_s
         acc_empty app].

Lemma nl_fold_obj (f : nat -> expr) (l : list nat) (a : acc) :
  obj (fold_left (fun a i => cons_append (f i) NlConsLb NlConsUb a) l a)
  = obj a.
Proof. now apply (fold_left_keeps obj (fun i a => cons_append (f i) _ _ a)). Qed.

Lemma nl_fold_cons (f : nat -> expr) (l : list nat) (a : acc) :
  cons (fold_left (fun a i => cons_append (f i) NlConsLb NlConsUb a) l a)
  = cons a ++ map f l.
Proof.
  rewrite <- flat_map_singleton.
  now apply (fold_left_appends cons (fun i a => cons_append (f i) _ _ a)).
Qed.

Lemma nl_fold_cons_lb (f : nat -> expr) (l : list nat) (a : acc) :
  cons_lb (fold_left (fun a i => cons_append (f i) NlConsLb NlConsUb a) l a)
  = cons_lb a ++ map (fun _ => NlConsLb) l.
Proof.
  rewrite <- flat_map_singleton.
  now apply (fold_left_appends cons_lb (fun i a => cons_append (f i) _ _ a)).
Qed.

Lemma nl_fold_cons_ub (f : nat -> expr) (l : list nat) (a : acc) :
  cons_ub (fold_left (fun a i => cons_append (f i) NlConsLb NlConsUb a) l a)
  = cons_ub a ++ map (fun _ => NlConsUb) l.
Proof.
  rewrite <- flat_map_singleton.
  now apply (fold_left_appends cons_ub (fun i a => cons_append (f i) _ _ a)).
Qed.

Lemma nl_fold_var_current_scenario (f : nat -> expr) (l : list nat) (a : acc) :
  var_current_scenario
    (fold_left (fun a i => cons_append (f i) NlConsLb NlConsUb a) l a)
  = var_current_scenario a.
Proof.
  now apply (fold_left_keeps var_current_scenario
               (fun i a => cons_append (f i) _ _ a)).
Qed.

Lemma nl_fold_var_s (f : nat -> expr) (l : list nat) (a : acc) :
  var_s (fold_left (fun a i => cons_append (f i) NlConsLb NlConsUb a) l a)
  = var_s a.
Proof. now apply (fold_left_keeps var_s (fun i a => cons_append (f i) _ _ a)). Qed.

Lemma nl_fold_var_s_u (f : nat -> expr) (l : list nat) (a : acc) :
  var_s_u (fold_left (fun a i => cons_append (f i) NlConsLb NlConsUb a) l a)
  = var_s_u a.
Proof. now apply (fold_left_keeps var_s_u (fun i a => cons_append (f i) _ _ a)). Qed.

Lemma branch_body_obj omega k s b a :
  obj (branch_body disc tree self omega k s (s_u_of s) b a)
  = obj a ++ branch_obj omega k s b.
Proof.
  branch_unfold; rewrite ?nl_fold_obj;
    cbn [obj cons_append bind_current_scenario app];
    rewrite <- ?app_assoc; reflexivity.
Qed.

Lemma branch_body_cons omega k s b a :
  cons (branch_body disc tree self omega k s (s_u_of s) b a)
  = cons a ++ branch_cons omega k s b.
Proof.
  branch_unfold; rewrite ?nl_fold_cons;
    cbn [cons cons_append bind_current_scenario app];
    rewrite <- ?app_assoc; reflexivity.
Qed.

Lemma branch_body_cons_lb omega k s b a :
  cons_lb (branch_body disc tree self omega k s (s_u_of s) b a)
  = cons_lb a ++ branch_cons_lb omega k s b.
Proof.
  branch_unfold; rewrite ?nl_fold_cons_lb;
    cbn [cons_lb cons_append bind_current_scenario app];
    rewrite <- ?app_assoc; reflexivity.
Qed.

Lemma branch_body_cons_ub omega k s b a :
  cons_ub (branch_body disc tree self omega k s (s_u_of s) b a)
  = cons_ub a ++ branch_cons_ub omega k s b.
Proof.
  branch_unfold; rewrite ?nl_fold_cons_ub;
    cbn [cons_ub cons_append bind_current_scenario app];
    rewrite <- ?app_assoc; reflexivity.
Qed.

End AssemblerFacts.

(** ** The shape of what the loops emit *)

(** [a'] is [a] with the four lists extended. *)
Definition extends (a a' : acc) (o c : list expr) (l u : list cons_bound)
    : Prop :=
  obj a' = obj a ++ o /\ cons a' = cons a ++ c
  /\ cons_lb a' = cons_lb a ++ l /\ cons_ub a' = cons_ub a ++ u.

Definition all_bound (a : acc) : Prop :=
  var_s a <> None /\ var_s_u a <> None /\ var_current_scenario a <> None.

Lemma fold_left_inv {X : Type} (P : acc -> Prop) (f : X -> acc -> acc) :
  (forall x a, P a -> P (f x a)) ->
  forall xs a, P a -> P (fold_left (fun a x => f x a) xs a).
Proof.
  intros Hf xs; induction xs as [|x xs IH]; intros a Ha; cbn [fold_left];
    auto.
Qed.

Lemma for_each_extends {X : Type} (body : X -> acc -> exn + acc)
    (ok : X -> Prop) (go gc : X -> list expr) (gl gu : X -> list cons_bound) :
  (forall x a, ok x ->
     exists a', body x a = inr a'
                /\ extends a a' (go x) (gc x) (gl x) (gu x)) ->
  forall xs a, Forall ok xs ->
    exists a', for_each body xs a = inr a'
               /\ extends a a' (flat_map go xs) (flat_map gc xs)
                    (flat_map gl xs) (flat_map gu xs).
Proof.
  intros Hb xs; induction xs as [|x xs IH]; intros a Hok; cbn [for_each flat_map].
  - exists a. unfold extends. now rewrite !app_nil_r.
  - inversion Hok as [|? ? Hx Hxs]; subst.
    destruct (Hb x a Hx) as (a1 & -> & Ho & Hc & Hl & Hu).
    destruct (IH a1 Hxs) as (a2 & -> & Ho2 & Hc2 & Hl2 & Hu2).
    exists a2. split; [reflexivity|]. unfold extends.
    rewrite Ho2, Hc2, Hl2, Hu2, Ho, Hc, Hl, Hu.
    now rewrite <- !app_assoc.
Qed.

Lemma omega_of_ok (n_scen : nat -> nat) (ks : list nat) :
  (forall k, In k ks -> 0 < n_scen (k + 1)) ->
  omega_of n_scen ks
  = inr (map (fun k => one_over (n_scen (k + 1))) ks).
Proof.
  induction ks as [|k ks IH]; intros Hpos; cbn [omega_of map].
  - reflexivity.
  - rewrite IH by (intros; apply Hpos; now right).
    assert (Hk : 0 < n_scen (k + 1)) by (apply Hpos; now left).
    unfold py_inv. destruct (n_scen (k + 1)); [lia | reflexivity].
Qed.

Lemma nth_map_seq {T : Type} (f : nat -> T) (n k : nat) (d : T) :
  k < n -> nth k (map f (seq 0 n)) d = f k.
Proof.
  intros Hk. rewrite (nth_indep _ d (f 0)) by now rewrite length_map, length_seq.
  rewrite map_nth, seq_nth by assumption. reflexivity.
Qed.

Section AssemblyShape.

Variable disc : Discretization.
Variable tree : ScenarioTree.
Variable self : MPC.

Let N := n_horizon (settings self).

(** The weights as the comprehension computes them. *)
Definition omega_list : list Q :=
  map (fun k => one_over (n_scenarios tree (k + 1))) (seq 0 N).

Lemma omega_list_nth k :
  k < N -> nth k omega_list 0%Q = one_over (n_scenarios tree (k + 1)).
Proof.
  intros Hk. unfold omega_list.
  now rewrite (nth_map_seq (fun k => one_over (n_scenarios tree (k + 1)))).
Qed.

(** The live triples of one stage, in the order of the loops. *)
Definition over_stage {T : Type} (g : nat -> nat -> nat -> list T) (k : nat)
    : list T :=
  flat_map (fun s => flat_map (g k s) (seq 0 (n_branches tree k)))
    (seq 0 (n_scenarios tree k)).

Definition over_tree {T : Type} (g : nat -> nat -> nat -> list T) : list T :=
  flat_map (over_stage g) (seq 0 N).

Lemma in_over_tree {T : Type} (g : nat -> nat -> nat -> list T) (t : T) :
  In t (over_tree g) <->
  exists k s b, k < N /\ s < n_scenarios tree k /\ b < n_branches tree k
                /\ In t (g k s b).
Proof.
  unfold over_tree, over_stage. rewrite in_flat_map. split.
  - intros (k & Hk & Hin). apply in_flat_map in Hin as (s & Hs & Hin).
    apply in_flat_map in Hin as (b & Hb & Hin).
    apply in_seq in Hk, Hs, Hb. exists k, s, b. repeat split; try lia; auto.
  - intros (k & s & b & Hk & Hs & Hb & Hin).
    exists k. split; [apply in_seq; lia|].
    apply in_flat_map. exists s. split; [apply in_seq; lia|].
    apply in_flat_map. exists b. split; [apply in_seq; lia | assumption].
Qed.

Lemma branch_body_all_bound omega k s s_u b a :
  var_s a <> None -> var_s_u a <> None ->
  all_bound (branch_body disc tree self omega k s s_u b a).
Proof.
  intros Hs Hu. unfold all_bound, branch_body.
  repeat match goal with
    | |- context [if ?c then _ else _] => destruct c
    end;
    cbn [var_s var_s_u var_current_scenario aux_assign obj_add cons_append];
    rewrite ?nl_fold_var_s, ?nl_fold_var_s_u, ?nl_fold_var_current_scenario;
    cbn [var_s var_s_u var_current_scenario cons_append
           bind_current_scenario];
    repeat split; auto; discriminate.
Qed.

Lemma scenario_body_all_bound omega k s a :
  0 < n_branches tree k -> all_bound (scenario_body disc tree self omega k s a).
Proof.
  intros Hb. unfold scenario_body.
  destruct (n_branches tree k) as [|m]; [lia|].
  cbn [seq fold_left].
  apply (fold_left_inv all_bound
           (fun b a => branch_body disc tree self omega k s _ b a)).
  - intros b' a' (H1 & H2 & _). now apply branch_body_all_bound.
  - apply branch_body_all_bound; cbn; discriminate.
Qed.

Lemma scenario_body_extends omega k s a :
  extends a (scenario_body disc tree self omega k s a)
    (flat_map (branch_obj disc tree self omega k s) (seq 0 (n_branches tree k)))
    (flat_map (branch_cons disc tree self omega k s) (seq 0 (n_branches tree k)))
    (flat_map (branch_cons_lb disc tree self omega k s) (seq 0 (n_branches tree k)))
    (flat_map (branch_cons_ub disc tree self omega k s) (seq 0 (n_branches tree k))).
Proof.
  unfold extends, scenario_body. repeat split.
  - rewrite (fold_left_appends obj
               (fun b a => branch_body disc tree self omega k s _ b a)
               (branch_obj disc tree self omega k s)); [reflexivity|].
    intros; apply branch_body_obj.
  - rewrite (fold_left_appends cons
               (fun b a => branch_body disc tree self omega k s _ b a)
               (branch_cons disc tree self omega k s)); [reflexivity|].
    intros; apply branch_body_cons.
  - rewrite (fold_left_appends cons_lb
               (fun b a => branch_body disc tree self omega k s _ b a)
               (branch_cons_lb disc tree self omega k s)); [reflexivity|].
    intros; apply branch_body_cons_lb.
  - rewrite (fold_left_appends cons_ub
               (fun b a => branch_body disc tree self omega k s _ b a)
               (branch_cons_ub disc tree self omega k s)); [reflexivity|].
    intros; apply branch_body_cons_ub.
Qed.

End AssemblyShape.

Section AssemblyResult.

Variable disc : Discretization.
Variable tree : ScenarioTree.
Variable self : MPC.

Let N := n_horizon (settings self).

(** Every stage of the horizon has a live scenario and a branch, and
    the stage after it has a live scenario. *)
Definition tree_live : Prop :=
  forall k, k < N ->
    0 < n_scenarios tree k /\ 0 < n_branches tree k
    /\ 0 < n_scenarios tree (k + 1).

Lemma padding_keeps k xs a :
  all_bound a ->
  exists a', for_each (padding_body disc k) xs a = inr a'
             /\ extends a a' [] [] [] [].
Proof.
  intros Ha.
  destruct (for_each_inv
              (fun a' => all_bound a' /\ extends a a' [] [] [] [])
              (padding_body disc k) xs) with (a := a)
    as (a' & E & _ & Hext).
  - intros s_ a1 ((H1 & H2 & H3) & Hext). unfold padding_body.
    destruct (var_s a1) as [s|] eqn:E1; [|congruence].
    destruct (var_s_u a1) as [su|] eqn:E2; [|congruence].
    destruct (var_current_scenario a1) as [c|] eqn:E3; [|congruence].
    eexists; split; [reflexivity|]. split.
    + unfold all_bound; cbn; rewrite E1, E2, E3; repeat split; discriminate.
    + exact Hext.
  - split; [assumption|]. unfold extends. now rewrite !app_nil_r.
  - now exists a'.
Qed.

Lemma stage_body_extends omega k a :
  0 < n_scenarios tree k -> 0 < n_branches tree k ->
  exists a', stage_body disc tree self omega k a = inr a'
             /\ extends a a'
                  (over_stage tree (branch_obj disc tree self omega) k)
                  (over_stage tree (branch_cons disc tree self omega) k)
                  (over_stage tree (branch_cons_lb disc tree self omega) k)
                  (over_stage tree (branch_cons_ub disc tree self omega) k).
Proof.
  intros Hs Hb. unfold stage_body.
  set (a1 := fold_left _ (seq 0 (n_scenarios tree k)) a).
  assert (Hbound : all_bound a1).
  { subst a1. destruct (n_scenarios tree k) as [|m]; [lia|].
    cbn [seq fold_left].
    apply (fold_left_inv all_bound
             (fun s a => scenario_body disc tree self omega k s a)).
    - intros; now apply scenario_body_all_bound.
    - now apply scenario_body_all_bound. }
  destruct (padding_keeps k
              (py_range (n_scenarios tree k) (n_max_scenarios self)) a1 Hbound)
    as (a' & -> & Ho & Hc & Hl & Hu).
  exists a'. split; [reflexivity|].
  rewrite app_nil_r in Ho, Hc, Hl, Hu.
  unfold extends, over_stage. rewrite Ho, Hc, Hl, Hu. subst a1.
  repeat split.
  - apply (fold_left_appends obj
             (fun s a => scenario_body disc tree self omega k s a)).
    intros; apply scenario_body_extends.
  - apply (fold_left_appends cons
             (fun s a => scenario_body disc tree self omega k s a)).
    intros; apply scenario_body_extends.
  - apply (fold_left_appends cons_lb
             (fun s a => scenario_body disc tree self omega k s a)).
    intros; apply scenario_body_extends.
  - apply (fold_left_appends cons_ub
             (fun s a => scenario_body disc tree self omega k s a)).
    intros; apply scenario_body_extends.
Qed.

(** The initial-condition constraint. *)
Definition initial_condition : expr :=
  Sub (OptX (x_at 0 0 (x_last disc))) (DivScaling (OptP p_x0) cls_x).

(** On a live tree the assembly returns, and what it returns is the
    initial condition followed by the contributions of the live
    triples (stage, scenario, branch), stage-major. *)
Lemma assemble_shape :
  tree_live ->
  exists a,
    assemble disc tree self = inr a
    /\ obj a = over_tree tree self (branch_obj disc tree self (omega_list tree self))
    /\ cons a = initial_condition
                  :: over_tree tree self
                       (branch_cons disc tree self (omega_list tree self))
    /\ cons_lb a = Zeros (n_x (model self))
                     :: over_tree tree self
                          (branch_cons_lb disc tree self (omega_list tree self))
    /\ cons_ub a = Zeros (n_x (model self))
                     :: over_tree tree self
                          (branch_cons_ub disc tree self (omega_list tree self)).
Proof.
  intros Hlive. unfold assemble.
  rewrite omega_of_ok.
  2:{ intros k Hk. apply in_seq in Hk. apply Hlive. lia. }
  fold (omega_list tree self).
  destruct (for_each_extends
              (stage_body disc tree self (omega_list tree self))
              (fun k => k < N)
              (over_stage tree (branch_obj disc tree self (omega_list tree self)))
              (over_stage tree (branch_cons disc tree self (omega_list tree self)))
              (over_stage tree (branch_cons_lb disc tree self (omega_list tree self)))
              (over_stage tree (branch_cons_ub disc tree self (omega_list tree self))))
    with (xs := seq 0 N) (a := acc_init disc self)
    as (a & E & Ho & Hc & Hl & Hu).
  - intros k a Hk. apply stage_body_extends; now apply Hlive.
  - apply Forall_forall. intros k Hk. apply in_seq in Hk. lia.
  - exists a. split; [exact E|]. unfold over_tree. fold N.
    rewrite Ho, Hc, Hl, Hu. repeat split.
Qed.

End AssemblyResult.

(** ** What the validity check leaves alone *)

(** The part of the controller state that [_check_validity] never
    assigns: the model, the settings other than [n_combinations], the
    path bounds, the assembled problem and the runtime state. *)
Definition frame (s : MPC) :=
  (model s,
   (n_horizon (settings s), n_robust (settings s), open_loop (settings s),
    use_terminal_bounds (settings s)),
   (nl_cons_check_colloc_points (settings s),
    nl_cons_single_slack (settings s),
    cons_check_colloc_points (settings s), t_step (settings s)),
   (x_lb (bounds s), x_ub (bounds s), u_lb (bounds s), u_ub (bounds s)),
   (z_lb (bounds s), z_ub (bounds s), eps_lb (bounds s), eps_ub (bounds s)),
   (rterm_factor s, n_nl_cons s, x_scaling s, u_scaling s, z_scaling s),
   (flag_setup (flags s), flag_set_objective (flags s),
    flag_set_initial_guess (flags s), flag_prepare_nlp (flags s)),
   (nlp s, opt_x_num s, opt_p_num s, lb_opt_x s, ub_opt_x s),
   (t0 s, x0 s, u0 s, z0 s)).

Ltac run_method :=
  cbv beta iota delta
    [bind get ret raise modify warn py_assert check_bounds
       set_tvp_fun set_p_fun get_p_template].

Ltac split_ifs :=
  repeat (run_method;
          match goal with
          | |- context [if ?c then _ else _] => destruct c eqn:?
          end);
  run_method.

(** The terminal bounds after the fallback of [_check_validity]. *)
Definition terminal_ub_after (s : MPC) : list ebound :=
  if np_all (map is_pos_inf (x_terminal_ub (bounds s)))
     && use_terminal_bounds (settings s)
  then x_ub (bounds s) else x_terminal_ub (bounds s).

Definition terminal_lb_after (s : MPC) : list ebound :=
  if np_all (map is_neg_inf (x_terminal_lb (bounds s)))
     && use_terminal_bounds (settings s)
  then x_lb (bounds s) else x_terminal_lb (bounds s).

Lemma check_validity_done (s s1 : MPC) :
  _check_validity s = Done tt s1 ->
  frame s1 = frame s
  /\ x_terminal_ub (bounds s1) = terminal_ub_after s
  /\ x_terminal_lb (bounds s1) = terminal_lb_after s.
Proof.
  unfold _check_validity, terminal_ub_after, terminal_lb_after.
  split_ifs; intros H; try discriminate H;
    injection H as <-; repeat split; reflexivity.
Qed.

Lemma check_validity_raised (s s1 : MPC) (e : exn) :
  _check_validity s = Raised e s1 ->
  frame s1 = frame s /\ bounds s1 = bounds s.
Proof.
  unfold _check_validity.
  split_ifs; intros H; try discriminate H;
    injection H as <- <-; split; reflexivity.
Qed.

Lemma frame_inv (s s1 : MPC) :
  frame s1 = frame s ->
  model s1 = model s
  /\ (n_horizon (settings s1) = n_horizon (settings s)
      /\ n_robust (settings s1) = n_robust (settings s)
      /\ open_loop (settings s1) = open_loop (settings s)
      /\ use_terminal_bounds (settings s1) = use_terminal_bounds (settings s)
      /\ cons_check_colloc_points (settings s1)
         = cons_check_colloc_points (settings s))
  /\ (x_lb (bounds s1) = x_lb (bounds s) /\ x_ub (bounds s1) = x_ub (bounds s))
  /\ (flag_setup (flags s1) = flag_setup (flags s)
      /\ flag_set_initial_guess (flags s1) = flag_set_initial_guess (flags s)
      /\ flag_prepare_nlp (flags s1) = flag_prepare_nlp (flags s))
  /\ n_nl_cons s1 = n_nl_cons s
  /\ (nlp s1 = nlp s /\ opt_x_num s1 = opt_x_num s
      /\ opt_p_num s1 = opt_p_num s
      /\ lb_opt_x s1 = lb_opt_x s /\ ub_opt_x s1 = ub_opt_x s)
  /\ u_scaling s1 = u_scaling s.
Proof.
  unfold frame. intros H. injection H. intros. repeat split; assumption.
Qed.

(** ** [_prepare_nlp] as a whole *)

Section PrepareNlp.

Variable _setup_discretization : MPC -> Discretization.
Variable _setup_scenario_tree : MPC -> ScenarioTree.

Lemma prepare_nlp_run (s s1 : MPC) (a : acc) :
  _check_validity s = Done tt s1 ->
  assemble (_setup_discretization s1) (_setup_scenario_tree s1) s1 = inr a ->
  exists s2,
    _prepare_nlp _setup_discretization _setup_scenario_tree s = Done tt s2
    /\ nlp s2 = Some {| nlp_obj := obj a; nlp_cons := cons a;
                        nlp_cons_lb := cons_lb a; nlp_cons_ub := cons_ub a;
                        nlp_opt_aux := opt_aux a |}
    /\ lb_opt_x s2
       = update_struct (n_total_coll_points (_setup_discretization s1)) s1
           (x_lb (bounds s1)) (z_lb (bounds s1)) (x_terminal_lb (bounds s1))
           (u_lb (bounds s1)) (eps_lb (bounds s1)) (opt_x_full s1 NegInf)
    /\ ub_opt_x s2
       = update_struct (n_total_coll_points (_setup_discretization s1)) s1
           (x_ub (bounds s1)) (z_ub (bounds s1)) (x_terminal_ub (bounds s1))
           (u_ub (bounds s1)) (eps_ub (bounds s1)) (opt_x_full s1 PosInf)
    /\ opt_x_num s2 = Some (opt_x_full s1 0%Q)
    /\ opt_p_num s2 = Some (opt_p_full s1 0%Q)
    /\ model s2 = model s1 /\ settings s2 = settings s1
    /\ warnings s2 = warnings s1
    /\ flag_setup (flags s2) = flag_setup (flags s1)
    /\ flag_set_initial_guess (flags s2) = flag_set_initial_guess (flags s1)
    /\ u_scaling s2 = u_scaling s1
    /\ bounds s2 = bounds s1.
Proof.
  intros Hcv Hasm. unfold _prepare_nlp. run_method. rewrite Hcv.
  run_method. rewrite Hasm. unfold _update_bounds. run_method.
  eexists. split; [reflexivity|]. repeat split.
Qed.

Lemma prepare_nlp_raises (s s1 : MPC) (e : exn) :
  _check_validity s = Raised e s1 ->
  _prepare_nlp _setup_discretization _setup_scenario_tree s = Raised e s1.
Proof.
  intros Hcv. unfold _prepare_nlp. run_method. now rewrite Hcv.
Qed.

(** On a live tree the assembled problem is the initial condition and
    the contributions of the live triples. *)
Lemma prepare_nlp_shape (s s1 : MPC) :
  _check_validity s = Done tt s1 ->
  let disc := _setup_discretization s1 in
  let tree := _setup_scenario_tree s1 in
  tree_live tree s1 ->
  exists s2 P,
    _prepare_nlp _setup_discretization _setup_scenario_tree s = Done tt s2
    /\ nlp s2 = Some P
    /\ nlp_obj P
       = over_tree tree s1 (branch_obj disc tree s1 (omega_list tree s1))
    /\ nlp_cons P
       = initial_condition disc
           :: over_tree tree s1 (branch_cons disc tree s1 (omega_list tree s1))
    /\ nlp_cons_lb P
       = Zeros (n_x (model s1))
           :: over_tree tree s1 (branch_cons_lb disc tree s1 (omega_list tree s1))
    /\ nlp_cons_ub P
       = Zeros (n_x (model s1))
           :: over_tree tree s1 (branch_cons_ub disc tree s1 (omega_list tree s1)).
Proof.
  intros Hcv disc tree Hlive.
  destruct (assemble_shape disc tree s1 Hlive) as (a & Hasm & Ho & Hc & Hl & Hu).
  destruct (prepare_nlp_run s s1 a Hcv Hasm) as (s2 & Hrun & Hnlp & _).
  exists s2. eexists. split; [exact Hrun|]. split; [exact Hnlp|].
  cbn [nlp_obj nlp_cons nlp_cons_lb nlp_cons_ub]. auto.
Qed.

End PrepareNlp.

(** ** What one live branch contributes *)

Section BranchContribution.

Variable disc : Discretization.
Variable tree : ScenarioTree.
Variable self : MPC.

Let N := n_horizon (settings self).
Let s_u_of (s : nat) : nat := if open_loop (settings self) then 0 else s.

(** The stage of the slack variable: one per stage, or one for all. *)
Lemma k_eps_live k :
  k < N ->
  Nat.min k (n_eps self - 1)
  = if nl_cons_single_slack (settings self) then 0 else k.
Proof.
  intros Hk. unfold n_eps. fold N.
  destruct (nl_cons_single_slack (settings self)); lia.
Qed.

Lemma branch_obj_live k s b :
  k < N ->
  let omega_k := one_over (n_scenarios tree (k + 1)) in
  let current_scenario := b + branch_offset tree k s in
  let k_eps := if nl_cons_single_slack (settings self) then 0 else k in
  branch_obj disc tree self (omega_list tree self) k s b
  = [Scale omega_k
       (Call f_lterm
          (stage_args k s (s_u_of s) (x_last disc) (z_last disc)
             current_scenario));
     Call f_epsterm [OptXUnscaled (eps_at k_eps s)]]
    ++ (if k =? N - 1
        then [Scale omega_k
                (Call f_mterm [OptXUnscaled (x_at (k + 1) s (x_last disc));
                               OptP (p_tvp (k + 1));
                               OptP (p_p current_scenario)])]
        else [])
    ++ [if k =? 0
        then RtermDot (Square (Sub (OptX (u_at 0 (s_u_of s)))
                                 (DivScaling (OptP p_u_prev) cls_u)))
        else RtermDot (Square (Sub (OptX (u_at k (s_u_of s)))
                                 (OptX (u_at (k - 1)
                                          (parent_scenario tree k
                                             (s_u_of s))))))].
Proof.
  intros Hk. cbv zeta.
  rewrite <- (omega_list_nth tree self k Hk), <- (k_eps_live k Hk).
  unfold branch_obj, branch_body. fold N.
  destruct (nl_cons_check_colloc_points (settings self));
    destruct (k =? N - 1); destruct (k =? 0);
    cbn [obj aux_assign obj_add]; rewrite ?nl_fold_obj; reflexivity.
Qed.

(** The nonlinear constraints of one branch: at every collocation
    point, or at the beginning of the finite element. *)
Definition nl_cons_of (k s b : nat) : list expr :=
  let current_scenario := b + branch_offset tree k s in
  let eps := OptXUnscaled (eps_at (Nat.min k (n_eps self - 1)) s) in
  if nl_cons_check_colloc_points (settings self)
  then map (fun i => Call f_nl_cons
                       (stage_args k s (s_u_of s) i i current_scenario
                          ++ [eps]))
         (seq 0 (n_total_coll_points disc))
  else [Call f_nl_cons
          (stage_args k s (s_u_of s) (x_last disc) 0 current_scenario
             ++ [eps])].

Definition ifcn_args_of (k s b : nat) : list expr :=
  let child := child_scenario tree k s b in
  [OptX (x_at k s (x_last disc));
   Vertcat (map (fun i => OptX (x_at (k + 1) child i))
              (seq 0 (n_total_coll_points disc)));
   OptX (u_at k (s_u_of s));
   Vertcat (map (fun i => OptX (z_at k child i))
              (seq 0 (Nat.max (n_total_coll_points disc) 1)));
   OptP (p_tvp k); OptP (p_p (b + branch_offset tree k s)); W0].

Lemma branch_cons_eq omega k s b :
  branch_cons disc tree self omega k s b
  = [Call f_ifcn_g (ifcn_args_of k s b);
     Sub (Call f_ifcn_xf (ifcn_args_of k s b))
       (OptX (x_at (k + 1) (child_scenario tree k s b) (x_last disc)))]
    ++ nl_cons_of k s b.
Proof.
  unfold branch_cons, branch_body, nl_cons_of, ifcn_args_of.
  destruct (nl_cons_check_colloc_points (settings self));
    destruct (k =? n_horizon (settings self) - 1); destruct (k =? 0);
    cbn [cons aux_assign obj_add]; rewrite ?nl_fold_cons; reflexivity.
Qed.

Lemma branch_cons_lb_eq omega k s b :
  branch_cons_lb disc tree self omega k s b
  = [Zeros (g_rows disc); Zeros (n_x (model self))]
    ++ map (fun _ => NlConsLb) (nl_cons_of k s b).
Proof.
  unfold branch_cons_lb, branch_body, nl_cons_of.
  destruct (nl_cons_check_colloc_points (settings self));
    destruct (k =? n_horizon (settings self) - 1); destruct (k =? 0);
    cbn [cons_lb aux_assign obj_add]; rewrite ?nl_fold_cons_lb;
    rewrite ?map_map; reflexivity.
Qed.

Lemma branch_cons_ub_eq omega k s b :
  branch_cons_ub disc tree self omega k s b
  = [Zeros (g_rows disc); Zeros (n_x (model self))]
    ++ map (fun _ => NlConsUb) (nl_cons_of k s b).
Proof.
  unfold branch_cons_ub, branch_body, nl_cons_of.
  destruct (nl_cons_check_colloc_points (settings self));
    destruct (k =? n_horizon (settings self) - 1); destruct (k =? 0);
    cbn [cons_ub aux_assign obj_add]; rewrite ?nl_fold_cons_ub;
    rewrite ?map_map; reflexivity.
Qed.

End BranchContribution.

(** * The claims *)

Ltac in_cases H :=
  repeat (destruct H as [H | H]; try discriminate H); try contradiction H.

(** C1. For every stage [k] of the horizon, every live scenario [sc] and
    every branch [b], the assembled objective has the summand
    [omega_k * lterm(...)] with [omega_k = 1 / n_scenarios[k + 1]], the
    slack penalty of the stage (of stage [0] when a single slack is
    configured), and, when [k = n_horizon - 1], the summand
    [omega_k * mterm(...)]. Conversely every stage-cost summand carries
    the weight of its stage, and every terminal-cost summand belongs to
    the final stage. *)
Theorem C1_objective_per_branch
    (sd : MPC -> Discretization) (st : MPC -> ScenarioTree) (s s1 : MPC) :
  _check_validity s = Done tt s1 ->
  tree_live (st s1) s1 ->
  let disc := sd s1 in
  let tree := st s1 in
  let N := n_horizon (settings s1) in
  let s_u_of := fun sc => if open_loop (settings s1) then 0 else sc in
  exists s2 P,
    _prepare_nlp sd st s = Done tt s2 /\ nlp s2 = Some P
    /\ (forall k sc b,
          k < N -> sc < n_scenarios tree k -> b < n_branches tree k ->
          let omega_k := one_over (n_scenarios tree (k + 1)) in
          let current_scenario := b + branch_offset tree k sc in
          let k_eps := if nl_cons_single_slack (settings s1) then 0 else k in
          In (Scale omega_k
                (Call f_lterm
                   [OptXUnscaled (x_at k sc (x_last disc));
                    OptXUnscaled (u_at k (s_u_of sc));
                    OptXUnscaled (z_at k sc (z_last disc));
                    OptP (p_tvp k); OptP (p_p current_scenario)]))
             (nlp_obj P)
          /\ In (Call f_epsterm [OptXUnscaled (eps_at k_eps sc)]) (nlp_obj P)
          /\ (k = N - 1 ->
              In (Scale omega_k
                    (Call f_mterm
                       [OptXUnscaled (x_at (k + 1) sc (x_last disc));
                        OptP (p_tvp (k + 1)); OptP (p_p current_scenario)]))
                 (nlp_obj P)))
    /\ (forall w args,
          In (Scale w (Call f_lterm args)) (nlp_obj P) ->
          exists k sc b,
            k < N /\ sc < n_scenarios tree k /\ b < n_branches tree k
            /\ w = one_over (n_scenarios tree (k + 1))
            /\ args = stage_args k sc (s_u_of sc) (x_last disc) (z_last disc)
                        (b + branch_offset tree k sc))
    /\ (forall w args,
          In (Scale w (Call f_mterm args)) (nlp_obj P) ->
          exists sc b,
            sc < n_scenarios tree (N - 1) /\ b < n_branches tree (N - 1)
            /\ w = one_over (n_scenarios tree N)
            /\ args = [OptXUnscaled (x_at N sc (x_last disc));
                       OptP (p_tvp N);
                       OptP (p_p (b + branch_offset tree (N - 1) sc))]).
Proof.
  intros Hcv Hlive disc tree N s_u_of.
  destruct (prepare_nlp_shape sd st s s1 Hcv Hlive)
    as (s2 & P & Hrun & Hnlp & Hobj & _).
  exists s2, P. split; [exact Hrun|]. split; [exact Hnlp|].
  fold disc tree in Hobj. rewrite Hobj. repeat split.
  - apply in_over_tree. exists k, sc, b. repeat split; try assumption.
    rewrite branch_obj_live by assumption. now left.
  - apply in_over_tree. exists k, sc, b. repeat split; try assumption.
    rewrite branch_obj_live by assumption. right; now left.
  - intros HkN. apply in_over_tree. exists k, sc, b.
    repeat split; try assumption.
    rewrite branch_obj_live by assumption. fold N.
    replace (k =? N - 1) with true by (symmetry; apply Nat.eqb_eq; exact HkN).
    right; right; now left.
  - intros w args Hin. apply in_over_tree in Hin
      as (k & sc & b & Hk & Hs & Hb & Hin).
    rewrite branch_obj_live in Hin by assumption. fold N in Hin.
    exists k, sc, b. repeat split; try assumption;
      destruct (k =? N - 1); destruct (k =? 0); cbn in Hin; in_cases Hin;
      injection Hin; intros; subst; reflexivity.
  - intros w args Hin. apply in_over_tree in Hin
      as (k & sc & b & Hk & Hs & Hb & Hin).
    rewrite branch_obj_live in Hin by assumption. fold N in Hin.
    destruct (k =? N - 1) eqn:HkN.
    + apply Nat.eqb_eq in HkN.
      assert (HN : k + 1 = N) by (unfold N in *; lia).
      exists sc, b. rewrite <- HkN, <- HN.
      repeat split; try assumption;
        destruct (k =? 0); cbn in Hin; in_cases Hin;
        injection Hin; intros; subst; reflexivity.
    + destruct (k =? 0); cbn in Hin; in_cases Hin.
Qed.

(** C2. The rate penalty that a live branch of stage [0] adds is
    [rterm_factor^T (u[0, s] - u_prev / u_scaling)^2], with [u_prev] an
    entry of the parameter structure [opt_p]; the one that a live branch
    of a stage [k > 0] adds is [rterm_factor^T (u[k, s] - u[k-1, parent(s)])^2],
    the input of the parent node at the previous stage. Every rate
    penalty in the objective is one of these. With [open_loop] the
    scenarios of a stage share the input of index [0], and the tree is
    assumed to give scenario [0] the parent [0]. *)
Theorem C2_rate_penalty_against_parent
    (sd : MPC -> Discretization) (st : MPC -> ScenarioTree) (s s1 : MPC) :
  _check_validity s = Done tt s1 ->
  tree_live (st s1) s1 ->
  (open_loop (settings s1) = true ->
   forall k, 0 < k < n_horizon (settings s1) -> parent_scenario (st s1) k 0 = 0) ->
  let tree := st s1 in
  let N := n_horizon (settings s1) in
  (* the index of the input of scenario [sc] on the scenario axis of '_u' *)
  let s_u_of := fun sc => if open_loop (settings s1) then 0 else sc in
  let rate_first := fun sc =>
    RtermDot (Square (Sub (OptX (u_at 0 (s_u_of sc)))
                        (DivScaling (OptP p_u_prev) cls_u))) in
  let rate_later := fun k sc =>
    RtermDot (Square (Sub (OptX (u_at k (s_u_of sc)))
                        (OptX (u_at (k - 1)
                                 (s_u_of (parent_scenario tree k sc)))))) in
  exists s2 P,
    _prepare_nlp sd st s = Done tt s2 /\ nlp s2 = Some P
    /\ (forall k sc b,
          k < N -> sc < n_scenarios tree k -> b < n_branches tree k ->
          (k = 0 -> In (rate_first sc) (nlp_obj P))
          /\ (0 < k -> In (rate_later k sc) (nlp_obj P)))
    /\ (forall e,
          In (RtermDot e) (nlp_obj P) ->
          exists k sc,
            k < N /\ sc < n_scenarios tree k
            /\ ((k = 0 /\ RtermDot e = rate_first sc)
                \/ (0 < k /\ RtermDot e = rate_later k sc))).
Proof.
  intros Hcv Hlive Hroot tree N s_u_of rate_first rate_later.
  destruct (prepare_nlp_shape sd st s s1 Hcv Hlive)
    as (s2 & P & Hrun & Hnlp & Hobj & _).
  exists s2, P. split; [exact Hrun|]. split; [exact Hnlp|].
  fold tree in Hobj. rewrite Hobj.
  assert (Hparent : forall k sc, 0 < k < N ->
            parent_scenario tree k (s_u_of sc)
            = s_u_of (parent_scenario tree k sc)).
  { intros k sc Hk. unfold s_u_of.
    destruct (open_loop (settings s1)) eqn:Hol; [|reflexivity].
    now apply Hroot. }
  split.
  - intros k sc b Hk Hs Hb. split.
    + intros ->. apply in_over_tree. exists 0, sc, b.
      repeat split; try assumption.
      rewrite branch_obj_live by assumption. fold N.
      destruct (0 =? N - 1); cbn; auto.
    + intros Hpos. apply in_over_tree. exists k, sc, b.
      repeat split; try assumption.
      rewrite branch_obj_live by assumption. fold N tree.
      replace (k =? 0) with false by (symmetry; apply Nat.eqb_neq; lia).
      unfold rate_later. rewrite <- Hparent by lia. fold s_u_of.
      destruct (k =? N - 1); cbn; auto.
  - intros e Hin. apply in_over_tree in Hin
      as (k & sc & b & Hk & Hs & Hb & Hin).
    rewrite branch_obj_live in Hin by assumption. fold N tree s_u_of in Hin.
    exists k, sc. split; [assumption|]. split; [assumption|].
    destruct (k =? 0) eqn:Hk0.
    + apply Nat.eqb_eq in Hk0. left. split; [assumption|].
      destruct (k =? N - 1); cbn in Hin; in_cases Hin; now rewrite <- Hin.
    + apply Nat.eqb_neq in Hk0. right. split; [lia|].
      unfold rate_later. rewrite <- Hparent by lia.
      destruct (k =? N - 1); cbn in Hin; in_cases Hin; now rewrite <- Hin.
Qed.









(** C4. The first entry of the constraint list is
    [opt_x['_x', 0, 0, -1] - opt_p['_x0'] / self._x_scaling], the state of
    the root node minus the scaled initial state, and its lower and upper
    bound are both the zero vector of [n_x] rows. *)
Theorem C4_initial_condition_first
    (sd : MPC -> Discretization) (st : MPC -> ScenarioTree) (s s1 : MPC) :
  _check_validity s = Done tt s1 ->
  tree_live (st s1) s1 ->
  exists s2 P,
    _prepare_nlp sd st s = Done tt s2 /\ nlp s2 = Some P
    /\ nth_error (nlp_cons P) 0
       = Some (Sub (OptX (x_at 0 0 (n_total_coll_points (sd s1))))
                 (DivScaling (OptP p_x0) cls_x))
    /\ nth_error (nlp_cons_lb P) 0 = Some (Zeros (n_x (model s)))
    /\ nth_error (nlp_cons_ub P) 0 = Some (Zeros (n_x (model s))).
Proof.
  intros Hcv Hlive.
  destruct (prepare_nlp_shape sd st s s1 Hcv Hlive)
    as (s2 & P & Hrun & Hnlp & _ & Hcons & Hlb & Hub).
  apply check_validity_done in Hcv as (Hframe & _).
  unfold frame in Hframe. injection Hframe as Hmodel.
  exists s2, P. rewrite Hcons, Hlb, Hub, <- Hmodel. repeat split; assumption.
Qed.

(** ** Counting the constraints *)

(** A block of the constraint list with its two bounds. *)
Definition block : Type := expr * (cons_bound * cons_bound).

Definition blocks_of (P : Nlp) : list block :=
  combine (nlp_cons P) (combine (nlp_cons_lb P) (nlp_cons_ub P)).

Definition is_initial_condition (e : expr) : bool :=
  match e with
  | Sub (OptX (x_at 0 0 _)) (DivScaling (OptP p_x0) cls_x) => true
  | _ => false
  end.

Definition is_continuity (e : expr) : bool :=
  match e with
  | Sub (Call f_ifcn_xf _) (OptX (x_at _ _ _)) => true
  | _ => false
  end.

(** Lower bound = upper bound = 0, on at least one row. *)
Definition is_equality (b : block) : bool :=
  match snd b with
  | (Zeros r, Zeros r') => (r =? r') && (0 <? r)
  | _ => false
  end.

(** Any other block with at least one row. *)
Definition is_inequality (nl_rows : nat) (b : block) : bool :=
  match snd b with
  | (Zeros _, Zeros _) => false
  | (lb, _) => 0 <? bound_rows nl_rows lb
  end.

Lemma combine_app_same {A B : Type} (l1 l2 : list A) (m1 m2 : list B) :
  List.length l1 = List.length m1 ->
  combine (l1 ++ l2) (m1 ++ m2) = combine l1 m1 ++ combine l2 m2.
Proof.
  revert m1; induction l1 as [|a l1 IH]; intros [|b m1] Hlen;
    cbn in *; try discriminate; [reflexivity|].
  f_equal. apply IH. now injection Hlen.
Qed.

Lemma combine_flat_map {X A B : Type} (f : X -> list A) (g : X -> list B)
    (xs : list X) :
  (forall x, List.length (f x) = List.length (g x)) ->
  combine (flat_map f xs) (flat_map g xs)
  = flat_map (fun x => combine (f x) (g x)) xs.
Proof.
  intros Hlen; induction xs as [|x xs IH]; cbn; [reflexivity|].
  rewrite combine_app_same by apply Hlen. now rewrite IH.
Qed.

Lemma count_flat_map {X A : Type} (p : A -> bool) (f : X -> list A)
    (n : nat) (xs : list X) :
  (forall x, List.length (filter p (f x)) = n) ->
  List.length (filter p (flat_map f xs)) = n * List.length xs.
Proof.
  intros Hn; induction xs as [|x xs IH]; cbn [flat_map List.length].
  - cbn. lia.
  - rewrite filter_app, length_app, IH, Hn. lia.
Qed.

(** A tree without branching: one scenario per stage, one branch. *)
Lemma over_tree_nominal {T : Type} (tree : ScenarioTree) (self : MPC)
    (g : nat -> nat -> nat -> list T) :
  (forall k, n_scenarios tree k = 1) -> (forall k, n_branches tree k = 1) ->
  over_tree tree self g
  = flat_map (fun k => g k 0 0) (seq 0 (n_horizon (settings self))).
Proof.
  intros Hs Hb. unfold over_tree, over_stage.
  apply flat_map_ext. intros k. rewrite Hs, Hb. cbn. now rewrite !app_nil_r.
Qed.

Lemma length_flat_map_same {X A B : Type} (f : X -> list A) (g : X -> list B)
    (xs : list X) :
  (forall x, List.length (g x) = List.length (f x)) ->
  List.length (flat_map g xs) = List.length (flat_map f xs).
Proof.
  intros Hfg. induction xs as [|x xs IH]; cbn; [reflexivity|].
  rewrite !length_app, Hfg. now f_equal.
Qed.

Lemma combine_const {A B C : Type} (b : B) (c : C) (l : list A) :
  combine l (combine (map (fun _ => b) l) (map (fun _ => c) l))
  = map (fun e => (e, (b, c))) l.
Proof. induction l as [|a l IH]; cbn; [reflexivity | now rewrite IH]. Qed.

Lemma filter_none {A : Type} (p : A -> bool) (l : list A) :
  (forall x, In x l -> p x = false) -> filter p l = [].
Proof.
  induction l as [|a l IH]; intros Hp; cbn; [reflexivity|].
  rewrite (Hp a) by now left. apply IH. intros x Hx. apply Hp. now right.
Qed.

Section NominalDiscrete.

Variable offset : nat -> nat -> nat.
Variable self : MPC.
Hypothesis nominal : n_robust (settings self) = 0.

Let disc := discrete_discretization self.
Let tree := spec_scenario_tree offset self.
Let nx := n_x (model self).

Lemma nominal_scenarios k : n_scenarios tree k = 1.
Proof.
  unfold tree, spec_scenario_tree. cbn. rewrite nominal.
  now rewrite Nat.min_0_r, Nat.pow_0_r.
Qed.

Lemma nominal_branches k : n_branches tree k = 1.
Proof. unfold tree, spec_scenario_tree. cbn. now rewrite nominal. Qed.

Lemma nominal_tree_live : tree_live tree self.
Proof.
  intros k _. rewrite !nominal_scenarios, nominal_branches. lia.
Qed.

(** The blocks of stage [k]: without algebraic states the first output
    of [ifcn] has no row; without collocation points the nonlinear
    constraints are either absent or the one at the element's start. *)
Definition nominal_blocks (k : nat) : list block :=
  [(Call f_ifcn_g (ifcn_args_of disc tree self k 0 0), (Zeros 0, Zeros 0));
   (Sub (Call f_ifcn_xf (ifcn_args_of disc tree self k 0 0))
      (OptX (x_at (k + 1) (child_scenario tree k 0 0) (x_last disc))),
    (Zeros nx, Zeros nx))]
  ++ map (fun e => (e, (NlConsLb, NlConsUb))) (nl_cons_of disc tree self k 0 0).

Lemma nominal_stage_blocks omega k :
  n_z (model self) = 0 ->
  combine (branch_cons disc tree self omega k 0 0)
    (combine (branch_cons_lb disc tree self omega k 0 0)
       (branch_cons_ub disc tree self omega k 0 0))
  = nominal_blocks k.
Proof.
  intros no_algebraic.
  rewrite branch_cons_eq, branch_cons_lb_eq, branch_cons_ub_eq.
  unfold nominal_blocks. cbn [app combine].
  change (g_rows disc) with (n_z (model self)). rewrite no_algebraic.
  now rewrite combine_const.
Qed.

Lemma nominal_lengths omega k :
  List.length (branch_cons disc tree self omega k 0 0)
  = List.length (branch_cons_lb disc tree self omega k 0 0)
  /\ List.length (branch_cons_lb disc tree self omega k 0 0)
     = List.length (branch_cons_ub disc tree self omega k 0 0).
Proof.
  rewrite branch_cons_eq, branch_cons_lb_eq, branch_cons_ub_eq.
  cbn [app List.length]. now rewrite !length_map.
Qed.

Lemma nominal_nl_cons k e :
  In e (nl_cons_of disc tree self k 0 0) -> exists args, e = Call f_nl_cons args.
Proof.
  unfold nl_cons_of.
  destruct (nl_cons_check_colloc_points (settings self)).
  - intros Hin. apply in_map_iff in Hin as (i & <- & _). eauto.
  - intros [<- | []]. eauto.
Qed.

Lemma nominal_count (p : block -> bool) (n : nat) :
  (forall a, p (Call f_ifcn_g a, (Zeros 0, Zeros 0)) = false) ->
  (forall a k c i,
      List.length
        (filter p [(Sub (Call f_ifcn_xf a) (OptX (x_at k c i)),
                    (Zeros nx, Zeros nx))]) = n) ->
  (forall a, p (Call f_nl_cons a, (NlConsLb, NlConsUb)) = false) ->
  forall k, List.length (filter p (nominal_blocks k)) = n.
Proof.
  intros Hg Hc Hnl k. unfold nominal_blocks.
  rewrite filter_app, length_app.
  rewrite (filter_none p (map _ _)).
  2:{ intros b Hb. apply in_map_iff in Hb as (e & <- & He).
      apply nominal_nl_cons in He as (args & ->). apply Hnl. }
  cbn [filter]. rewrite Hg. cbn [List.length]. rewrite Nat.add_0_r. apply Hc.
Qed.

Lemma nominal_cons_count (p : expr -> bool) (n : nat) :
  (forall a, p (Call f_ifcn_g a) = false) ->
  (forall a k c i,
      List.length
        (filter p [Sub (Call f_ifcn_xf a) (OptX (x_at k c i))]) = n) ->
  (forall a, p (Call f_nl_cons a) = false) ->
  forall omega k,
    List.length (filter p (branch_cons disc tree self omega k 0 0)) = n.
Proof.
  intros Hg Hc Hnl omega k. rewrite branch_cons_eq.
  rewrite filter_app, length_app.
  rewrite (filter_none p (nl_cons_of _ _ _ _ _ _)).
  2:{ intros e He. apply nominal_nl_cons in He as (args & ->). apply Hnl. }
  cbn [filter]. rewrite Hg. cbn [List.length]. rewrite Nat.add_0_r. apply Hc.
Qed.

End NominalDiscrete.

(** C5. For a discrete-time model without algebraic states (no
    collocation points, no rows in the first output of the
    discretization), [n_robust = 0], horizon [N] and no nonlinear
    constraint configured: the constraint list holds one
    initial-condition block and [N] continuity blocks; the blocks with
    bounds [0 = 0] and at least one row are exactly these [N + 1]; no
    block with other bounds has a row. *)
Theorem C5_discrete_nominal_counts
    (offset : nat -> nat -> nat) (s s1 : MPC) :
  _check_validity s = Done tt s1 ->
  n_robust (settings s) = 0 ->
  n_z (model s) = 0 ->
  n_nl_cons s = 0 ->
  0 < n_x (model s) ->
  exists s2 P,
    _prepare_nlp discrete_discretization (spec_scenario_tree offset) s
    = Done tt s2
    /\ nlp s2 = Some P
    /\ List.length (nlp_cons_lb P) = List.length (nlp_cons P)
    /\ List.length (nlp_cons_ub P) = List.length (nlp_cons P)
    /\ List.length (filter is_initial_condition (nlp_cons P)) = 1
    /\ List.length (filter is_continuity (nlp_cons P)) = n_horizon (settings s)
    /\ List.length (filter is_equality (blocks_of P)) = n_horizon (settings s) + 1
    /\ (forall b, In b (blocks_of P) -> is_equality b = true ->
          is_initial_condition (fst b) || is_continuity (fst b) = true)
    /\ filter (is_inequality (n_nl_cons s)) (blocks_of P) = [].
Proof.
  intros Hcv Hrob Hnz Hnl Hnx.
  pose proof (check_validity_done s s1 Hcv) as (Hframe & _).
  apply frame_inv in Hframe
    as (Hmodel & (HN & Hrob1 & _) & _ & _ & Hnl1 & _).
  rewrite <- Hrob1 in Hrob. rewrite <- Hnl1 in Hnl. rewrite <- Hmodel in Hnx.
  rewrite <- Hmodel in Hnz.
  rewrite <- HN, <- Hnl1.
  destruct (prepare_nlp_shape discrete_discretization
              (spec_scenario_tree offset) s s1 Hcv
              (nominal_tree_live offset s1 Hrob))
    as (s2 & P & Hrun & HP & _ & Hcons & Hlb & Hub).
  set (disc := discrete_discretization s1) in *.
  set (tree := spec_scenario_tree offset s1) in *.
  set (om := omega_list tree s1) in *.
  assert (Hsc : forall k, n_scenarios tree k = 1)
    by (intros; now apply nominal_scenarios).
  assert (Hbr : forall k, n_branches tree k = 1)
    by (intros; now apply nominal_branches).
  rewrite (over_tree_nominal tree s1 _ Hsc Hbr) in Hcons.
  rewrite (over_tree_nominal tree s1 _ Hsc Hbr) in Hlb.
  rewrite (over_tree_nominal tree s1 _ Hsc Hbr) in Hub.
  set (ks := seq 0 (n_horizon (settings s1))) in *.
  assert (Hks : List.length ks = n_horizon (settings s1))
    by (subst ks; apply length_seq).
  assert (Hblocks : blocks_of P
                    = (initial_condition disc,
                       (Zeros (n_x (model s1)), Zeros (n_x (model s1))))
                        :: flat_map (nominal_blocks offset s1) ks).
  { unfold blocks_of. rewrite Hcons, Hlb, Hub. cbn [combine]. f_equal.
    rewrite (combine_flat_map
               (fun k => branch_cons_lb disc tree s1 om k 0 0)
               (fun k => branch_cons_ub disc tree s1 om k 0 0))
      by (intros; apply nominal_lengths).
    rewrite (combine_flat_map
               (fun k => branch_cons disc tree s1 om k 0 0)
               (fun k => combine (branch_cons_lb disc tree s1 om k 0 0)
                           (branch_cons_ub disc tree s1 om k 0 0))).
    - apply flat_map_ext. intros k. now apply nominal_stage_blocks.
    - intros k. rewrite length_combine.
      pose proof (nominal_lengths offset s1 om k) as (H1 & H2).
      fold disc tree in H1, H2. lia. }
  exists s2, P. split; [exact Hrun|]. split; [exact HP|].
  split.
  { rewrite Hlb, Hcons. cbn [List.length]. f_equal. apply length_flat_map_same.
    intros k. pose proof (nominal_lengths offset s1 om k) as (H1 & _).
    now fold disc tree in H1. }
  split.
  { rewrite Hub, Hcons. cbn [List.length]. f_equal. apply length_flat_map_same.
    intros k. pose proof (nominal_lengths offset s1 om k) as (H1 & H2).
    fold disc tree in H1, H2. congruence. }
  split.
  { rewrite Hcons. cbn [filter initial_condition is_initial_condition x_last].
    cbn [List.length]. f_equal.
    rewrite (count_flat_map is_initial_condition _ 0); [lia|].
    intros k. apply nominal_cons_count; reflexivity. }
  split.
  { rewrite Hcons. cbn [filter initial_condition is_continuity].
    rewrite (count_flat_map is_continuity _ 1); [lia|].
    intros k. apply nominal_cons_count; reflexivity. }
  assert (Heq : Nat.eqb (n_x (model s1)) (n_x (model s1))
                && Nat.ltb 0 (n_x (model s1)) = true).
  { rewrite Nat.eqb_refl. apply Nat.ltb_lt. exact Hnx. }
  split.
  { rewrite Hblocks. cbn [filter is_equality snd]. rewrite Heq.
    cbn [List.length].
    rewrite (count_flat_map is_equality _ 1); [lia|].
    intros k. apply nominal_count; try reflexivity.
    intros a k' c i. cbn [filter is_equality snd]. now rewrite Heq. }
  split.
  { intros b Hin Hb. rewrite Hblocks in Hin.
    destruct Hin as [<- | Hin]; [reflexivity|].
    apply in_flat_map in Hin as (k & _ & Hin). unfold nominal_blocks in Hin.
    apply in_app_or in Hin as [[<- | [<- | []]] | Hin].
    - discriminate Hb.
    - reflexivity.
    - apply in_map_iff in Hin as (e & <- & _). discriminate Hb. }
  rewrite Hblocks. apply filter_none. intros b [<- | Hin]; [reflexivity|].
  apply in_flat_map in Hin as (k & _ & Hin). unfold nominal_blocks in Hin.
  apply in_app_or in Hin as [[<- | [<- | []]] | Hin]; try reflexivity.
  apply in_map_iff in Hin as (e & <- & _).
  cbn [is_inequality snd bound_rows]. rewrite Hnl. reflexivity.
Qed.

(** ** Bounds of the decision variables *)

Lemma update_struct_stage0 (last : nat) (s : MPC)
    (px pz tx pu pe : list ebound) (b : bound_struct) (sc i : nat) :
  1 <= n_horizon (settings s) ->
  update_struct last s px pz tx pu pe b (x_at 0 sc i) = b (x_at 0 sc i).
Proof.
  intros HN. unfold update_struct, assign_where.
  assert (H0 : (0 =? n_horizon (settings s)) = false)
    by (apply Nat.eqb_neq; lia).
  destruct (cons_check_colloc_points (settings s));
    cbn [sel_eps sel_u sel_x_stage_at sel_z sel_z_at sel_x_stages
           sel_x_stages_at Nat.leb andb];
    rewrite H0; reflexivity.
Qed.

Lemma update_struct_terminal (last : nat) (s : MPC)
    (px pz tx pu pe : list ebound) (b : bound_struct) (sc : nat) :
  update_struct last s px pz tx pu pe b (x_at (n_horizon (settings s)) sc last)
  = tx.
Proof.
  unfold update_struct, assign_where.
  destruct (cons_check_colloc_points (settings s));
    cbn [sel_eps sel_u sel_x_stage_at]; now rewrite !Nat.eqb_refl.
Qed.

(** With a horizon of length [0] the terminal bounds land on stage [0]. *)
Remark update_struct_zero_horizon (last : nat) (s : MPC)
    (px pz tx pu pe : list ebound) (b : bound_struct) (sc : nat) :
  n_horizon (settings s) = 0 ->
  update_struct last s px pz tx pu pe b (x_at 0 sc last) = tx.
Proof.
  intros H0. pose proof (update_struct_terminal last s px pz tx pu pe b sc) as H.
  now rewrite H0 in H.
Qed.

(** C6. Whatever [cons_check_colloc_points] is, after [_prepare_nlp] has
    filled the bound structures of a problem with at least one stage,
    the lower bound of every state entry of stage [0] is [-inf] and the
    upper bound is [+inf]: the slices that receive the path bounds start
    at stage [1], the terminal bounds go to stage [n_horizon]. *)
Theorem C6_initial_state_never_bounded
    (sd : MPC -> Discretization) (st : MPC -> ScenarioTree) (s s1 : MPC) :
  _check_validity s = Done tt s1 ->
  tree_live (st s1) s1 ->
  1 <= n_horizon (settings s) ->
  exists s2,
    _prepare_nlp sd st s = Done tt s2
    /\ forall sc i,
         lb_opt_x s2 (x_at 0 sc i) = repeat NegInf (n_x (model s))
         /\ ub_opt_x s2 (x_at 0 sc i) = repeat PosInf (n_x (model s)).
Proof.
  intros Hcv Hlive HN.
  destruct (assemble_shape (sd s1) (st s1) s1 Hlive) as (a & Hasm & _).
  destruct (prepare_nlp_run sd st s s1 a Hcv Hasm)
    as (s2 & Hrun & _ & Hlb & Hub & _).
  apply check_validity_done in Hcv as (Hframe & _).
  apply frame_inv in Hframe as (Hmodel & (HN1 & _) & _).
  exists s2. split; [exact Hrun|]. intros sc i.
  rewrite Hlb, Hub, !update_struct_stage0 by lia.
  unfold opt_x_full. cbn [entry_size]. now rewrite Hmodel.
Qed.

(** C7. When [use_terminal_bounds] is set and every terminal upper bound
    is [+inf] (every terminal lower bound is [-inf]), the terminal upper
    (lower) bounds become the path bounds of the states; otherwise they
    stay as configured. The bound structures hold them, for every
    scenario, at the last collocation point of stage [n_horizon]. *)
Theorem C7_terminal_bounds_fallback
    (sd : MPC -> Discretization) (st : MPC -> ScenarioTree) (s s1 : MPC) :
  _check_validity s = Done tt s1 ->
  tree_live (st s1) s1 ->
  let fallback_ub :=
    np_all (map is_pos_inf (x_terminal_ub (bounds s)))
    && use_terminal_bounds (settings s) in
  let fallback_lb :=
    np_all (map is_neg_inf (x_terminal_lb (bounds s)))
    && use_terminal_bounds (settings s) in
  let last := n_total_coll_points (sd s1) in
  exists s2,
    _prepare_nlp sd st s = Done tt s2
    /\ x_terminal_ub (bounds s2)
       = (if fallback_ub then x_ub (bounds s) else x_terminal_ub (bounds s))
    /\ x_terminal_lb (bounds s2)
       = (if fallback_lb then x_lb (bounds s) else x_terminal_lb (bounds s))
    /\ forall sc,
         ub_opt_x s2 (x_at (n_horizon (settings s)) sc last)
         = x_terminal_ub (bounds s2)
         /\ lb_opt_x s2 (x_at (n_horizon (settings s)) sc last)
            = x_terminal_lb (bounds s2).
Proof.
  intros Hcv Hlive fallback_ub fallback_lb last.
  destruct (assemble_shape (sd s1) (st s1) s1 Hlive) as (a & Hasm & _).
  destruct (prepare_nlp_run sd st s s1 a Hcv Hasm)
    as (s2 & Hrun & _ & Hlb & Hub & _ & _ & _ & _ & _ & _ & _ & _ & Hb).
  apply check_validity_done in Hcv as (Hframe & Htub & Htlb).
  apply frame_inv in Hframe as (_ & (HN1 & _) & _).
  exists s2. split; [exact Hrun|]. rewrite Hb, Htub, Htlb.
  split; [reflexivity|]. split; [reflexivity|]. intros sc.
  rewrite Hlb, Hub, <- HN1. unfold last.
  rewrite !update_struct_terminal. now rewrite Htub, Htlb.
Qed.

(** ** Inconsistent bounds *)

(** Some entry of [lb] is strictly greater than the same entry of [ub]. *)
Definition lower_exceeds_upper (lb ub : list ebound) : Prop :=
  exists i l u,
    nth_error lb i = Some l /\ nth_error ub i = Some u
    /\ ebound_gtb l u = true.

Lemma nth_error_combine {A B : Type} (la : list A) (lb : list B) (i : nat)
    (a : A) (b : B) :
  nth_error la i = Some a -> nth_error lb i = Some b ->
  In (a, b) (combine la lb).
Proof.
  revert la lb; induction i as [|i IH]; intros [|a' la] [|b' lb] Ha Hb;
    cbn in *; try discriminate.
  - injection Ha as ->. injection Hb as ->. now left.
  - right. now apply IH.
Qed.

Lemma bound_check_fires (lb ub : list ebound) :
  lower_exceeds_upper lb ub -> np_any (bound_check lb ub) = true.
Proof.
  intros (i & l & u & Hl & Hu & Hgt). unfold np_any, bound_check.
  apply existsb_exists. exists true. split; [|reflexivity].
  apply in_map_iff. exists (l, u). split; [exact Hgt|].
  now apply (nth_error_combine _ _ i).
Qed.

(** C8. When a lower bound of a state, an input or an algebraic state is
    strictly greater than its upper bound, [_check_validity] raises, and
    so do [_prepare_nlp] and [setup], with the same exception and in the
    same state: no problem is assembled, no flag of the set-up is set,
    and the bounds are left as configured. If the checks placed before
    the one of the bounds pass, the exception is the one of the
    inconsistent bounds. *)
Theorem C8_inconsistent_bounds_raise
    (sd : MPC -> Discretization) (st : MPC -> ScenarioTree) (s : MPC) :
  lower_exceeds_upper (x_lb (bounds s)) (x_ub (bounds s))
  \/ lower_exceeds_upper (u_lb (bounds s)) (u_ub (bounds s))
  \/ lower_exceeds_upper (z_lb (bounds s)) (z_ub (bounds s)) ->
  exists e s',
    _check_validity s = Raised e s'
    /\ _prepare_nlp sd st s = Raised e s'
    /\ setup sd st s = Raised e s'
    /\ nlp s' = nlp s
    /\ flag_prepare_nlp (flags s') = flag_prepare_nlp (flags s)
    /\ flag_setup (flags s') = flag_setup (flags s)
    /\ bounds s' = bounds s
    /\ (flag_set_objective (flags s) = true ->
        (flag_set_tvp_fun (flags s) = true \/ tvp_size (model s) = 0) ->
        (flag_set_p_fun (flags s) = true \/ p_size (model s) = 0) ->
        e = Exception_ "Your bounds are inconsistent.").
Proof.
  intros Hbad.
  assert (Hany : np_any (bound_check (x_lb (bounds s)) (x_ub (bounds s))) = true
                 \/ np_any (bound_check (u_lb (bounds s)) (u_ub (bounds s))) = true
                 \/ np_any (bound_check (z_lb (bounds s)) (z_ub (bounds s))) = true).
  { destruct Hbad as [H | [H | H]]; apply bound_check_fires in H; auto. }
  clear Hbad.
  assert (Hcv : exists e s',
             _check_validity s = Raised e s'
             /\ (flag_set_objective (flags s) = true ->
                 (flag_set_tvp_fun (flags s) = true \/ tvp_size (model s) = 0) ->
                 (flag_set_p_fun (flags s) = true \/ p_size (model s) = 0) ->
                 e = Exception_ "Your bounds are inconsistent.")).
  { unfold _check_validity. split_ifs;
      try (exfalso; destruct Hany as [H | [H | H]]; congruence);
      (do 2 eexists; split; [reflexivity|]; intros H1 H2 H3;
       try reflexivity; exfalso; clear Hany;
       destruct (flag_set_objective (flags s));
       destruct (flag_set_tvp_fun (flags s));
       destruct (flag_set_p_fun (flags s));
       destruct (tvp_size (model s)); destruct (p_size (model s));
       cbn in *; try discriminate;
       try (destruct H2; discriminate); try (destruct H3; discriminate)). }
  destruct Hcv as (e & s' & Hcv & He).
  pose proof (check_validity_raised s s' e Hcv) as (Hframe & Hb).
  apply frame_inv in Hframe
    as (_ & _ & _ & (Hsetup & _ & Hprep) & _ & (Hnlp & _) & _).
  exists e, s'. split; [exact Hcv|].
  split; [now apply prepare_nlp_raises|].
  split.
  { unfold setup, prepare_nlp, bind.
    now rewrite (prepare_nlp_raises sd st s s' e Hcv). }
  repeat split; assumption.
Qed.

(** ** The first control step *)

Section FirstStep.

Variable sd : MPC -> Discretization.
Variable st : MPC -> ScenarioTree.
Variable tvp_fun : Q -> nat -> list Q.
Variable p_fun : Q -> nat -> list Q.
Variable solver :
  opt_x_struct -> opt_p_struct -> bound_struct -> bound_struct -> opt_x_struct.

(** What a finished [setup] leaves behind. *)
Lemma setup_done_inv (s s1 : MPC) :
  setup sd st s = Done tt s1 ->
  exists sv,
    _check_validity s = Done tt sv
    /\ flag_setup (flags s1) = true
    /\ opt_x_num s1 = Some (opt_x_full sv 0%Q)
    /\ opt_p_num s1 = Some (opt_p_full sv 0%Q)
    /\ model s1 = model sv
    /\ flag_set_initial_guess (flags s1) = flag_set_initial_guess (flags sv).
Proof.
  unfold setup, prepare_nlp, create_nlp, _create_nlp, _prepare_nlp.
  run_method. destruct (_check_validity s) as [[] sv | e sv]; run_method.
  - destruct (assemble (sd sv) (st sv) sv) as [e | a]; run_method.
    + discriminate.
    + unfold _update_bounds. run_method. intros H. injection H as <-.
      exists sv. repeat split.
  - discriminate.
Qed.


End FirstStep.

(** ** Missing cost terms *)

(** The exceptions of the two statements that read [mterm.shape] and
    [lterm.shape]. *)
Definition raised_by_shape_assertion (e : exn) : Prop :=
  match e with
  | AttributeError _ => True
  | AssertionError msg =>
      msg = "mterm must have shape=(1,1)."%string
      \/ msg = "lterm must have shape=(1,1)."%string
  | _ => False
  end.

(** C10. A call of [set_objective] with [mterm] or [lterm] equal to
    [None] raises at one of the two assertions on the shapes and leaves
    the controller as it was. In no run, finished or raised, the stored
    cost term is the [DM(0)] that stands in for a missing argument: it
    is either the previous one or the argument itself, which is not
    [None]; a finished call has stored both arguments. *)
Theorem C10_cost_terms_are_mandatory (mterm_arg lterm_arg : pyobj) (s : MPC) :
  (mterm_arg = PyNone \/ lterm_arg = PyNone ->
   exists e,
     set_objective mterm_arg lterm_arg s = Raised e s
     /\ raised_by_shape_assertion e)
  /\ (forall s',
        (exists e, set_objective mterm_arg lterm_arg s = Raised e s')
        \/ set_objective mterm_arg lterm_arg s = Done tt s' ->
        (mterm s' = mterm s \/ (mterm s' = Some mterm_arg /\ mterm_arg <> PyNone))
        /\ (lterm s' = lterm s
            \/ (lterm s' = Some lterm_arg /\ lterm_arg <> PyNone)))
  /\ (forall s',
        set_objective mterm_arg lterm_arg s = Done tt s' ->
        mterm s' = Some mterm_arg /\ lterm s' = Some lterm_arg
        /\ mterm_arg <> PyNone /\ lterm_arg <> PyNone
        /\ flag_set_objective (flags s') = true).
Proof.
  unfold set_objective, py_shape.
  split; [|split].
  - intros [-> | ->].
    + eexists. split; [reflexivity | exact I].
    + destruct mterm_arg as [|ty [r c] ok|[r c]|]; run_method.
      * eexists. split; [reflexivity | exact I].
      * destruct (shape_eqb (r, c) (1, 1)); run_method;
          eexists; (split; [reflexivity|]); cbn; auto.
      * destruct (shape_eqb (r, c) (1, 1)); run_method;
          eexists; (split; [reflexivity|]); cbn; auto.
      * eexists. split; [reflexivity | exact I].
  - intros s' H.
    destruct mterm_arg as [|ty [r c] ok|[r c]|];
      destruct lterm_arg as [|ty' [r' c'] ok'|[r' c']|];
      cbn [is_casadi is_none evaluates negb] in H;
      revert H; split_ifs; intros [[e H] | H];
      try discriminate H; injection H; intros; subst; cbn;
      split; first [now left | right; split; [reflexivity | discriminate]].
  - intros s' H.
    destruct mterm_arg as [|ty [r c] ok|[r c]|];
      destruct lterm_arg as [|ty' [r' c'] ok'|[r' c']|];
      cbn [is_casadi is_none evaluates negb] in H;
      revert H; split_ifs; intros H;
      try discriminate H; injection H as <-; cbn;
      repeat split; discriminate.
Qed.

(** * Concrete problems *)

Lemma spec_tree_live (offset : nat -> nat -> nat) (s : MPC) :
  0 < n_combinations (settings s) ->
  tree_live (spec_scenario_tree offset s) s.
Proof.
  intros Hc k _. unfold spec_scenario_tree. cbn [n_scenarios n_branches].
  assert (Hpow : forall e, 0 < n_combinations (settings s) ^ e).
  { intros e. apply Nat.neq_0_lt_0, Nat.pow_nonzero. lia. }
  split; [apply Hpow|]. split; [|apply Hpow].
  destruct (k <? n_robust (settings s)); lia.
Qed.

Lemma spec_tree_root (offset : nat -> nat -> nat) (s : MPC) (k : nat) :
  parent_scenario (spec_scenario_tree offset s) k 0 = 0.
Proof. cbn. apply Nat.Div0.div_0_l. Qed.

(** The children of the scenarios of a stage are the scenarios of the
    next stage. *)
Lemma spec_tree_children_count (offset : nat -> nat -> nat) (s : MPC) (k : nat) :
  let tree := spec_scenario_tree offset s in
  n_scenarios tree k * n_branches tree k = n_scenarios tree (k + 1).
Proof.
  cbv zeta. unfold spec_scenario_tree. cbn [n_scenarios n_branches].
  destruct (k <? n_robust (settings s)) eqn:Hk.
  - apply Nat.ltb_lt in Hk.
    rewrite (Nat.min_l k), (Nat.min_l (k + 1)) by lia.
    rewrite Nat.add_1_r, Nat.pow_succ_r'. lia.
  - apply Nat.ltb_ge in Hk.
    rewrite (Nat.min_r k), (Nat.min_r (k + 1)) by lia. lia.
Qed.


Definition example_model : Model :=
  {| n_x := 2; n_u := 1; n_z := 0; tvp_size := 0; p_size := 1 |}.

Definition example_flags : Flags :=
  {| flag_setup := false; flag_set_objective := true; flag_set_rterm := true;
     flag_set_tvp_fun := false; flag_set_p_fun := true;
     flag_set_initial_guess := false; flag_prepare_nlp := false |}.

Definition example_settings (N robust : nat) : Settings :=
  {| n_horizon := N; n_robust := robust; n_combinations := 2;
     open_loop := false; use_terminal_bounds := true;
     nl_cons_check_colloc_points := false; nl_cons_single_slack := false;
     cons_check_colloc_points := true; t_step := 1%Q |}.

Definition example_bounds (x_low : ebound) : Bounds :=
  {| x_lb := [x_low; NegInf]; x_ub := [Fin 1%Q; PosInf];
     u_lb := [Fin (-2)%Q]; u_ub := [Fin 2%Q];
     z_lb := []; z_ub := []; eps_lb := []; eps_ub := [];
     x_terminal_lb := [NegInf; NegInf]; x_terminal_ub := [PosInf; PosInf] |}.

(** A controller ready for [setup]: two states, one input, one uncertain
    parameter with two values. *)
Definition example_mpc (N robust : nat) (x_low : ebound) : MPC :=
  {| model := example_model; flags := example_flags;
     settings := example_settings N robust; bounds := example_bounds x_low;
     rterm_factor := [1%Q]; n_nl_cons := 0;
     x_scaling := [1%Q; 1%Q]; u_scaling := [1%Q]; z_scaling := [];
     mterm := Some (PyCasadi SX (1, 1) true);
     lterm := Some (PyCasadi SX (1, 1) true);
     has_mterm_fun := true; has_lterm_fun := true;
     has_tvp_fun := false; has_p_fun := true;
     lb_opt_x := fun _ => []; ub_opt_x := fun _ => [];
     nlp := None; opt_x_num := None; opt_p_num := None;
     t0 := 0%Q; x0 := [0%Q; 0%Q]; u0 := [0%Q]; z0 := [];
     warnings := [] |}.

(** The state in which a method leaves the controller. *)
Definition state_after {A : Type} (m : method A) (s : MPC) : MPC :=
  match m s with Done _ s' => s' | Raised _ s' => s' end.

Definition robust_mpc : MPC := example_mpc 3 1 (Fin (-1)%Q).
Definition nominal_mpc : MPC := example_mpc 5 0 (Fin (-1)%Q).
Definition inconsistent_mpc : MPC := example_mpc 3 1 (Fin 2%Q).

Definition dae_model : Model :=
  {| n_x := 2; n_u := 1; n_z := 1; tvp_size := 0; p_size := 1 |}.

Definition dae_bounds : Bounds :=
  {| x_lb := [Fin (-1)%Q; NegInf]; x_ub := [Fin 1%Q; PosInf];
     u_lb := [Fin (-2)%Q]; u_ub := [Fin 2%Q];
     z_lb := [NegInf]; z_ub := [PosInf]; eps_lb := []; eps_ub := [];
     x_terminal_lb := [NegInf; NegInf]; x_terminal_ub := [PosInf; PosInf] |}.

(** A controller ready for [setup] whose model has an algebraic state. *)
Definition dae_mpc (N robust : nat) : MPC :=
  {| model := dae_model; flags := example_flags;
     settings := example_settings N robust; bounds := dae_bounds;
     rterm_factor := [1%Q]; n_nl_cons := 0;
     x_scaling := [1%Q; 1%Q]; u_scaling := [1%Q]; z_scaling := [1%Q];
     mterm := Some (PyCasadi SX (1, 1) true);
     lterm := Some (PyCasadi SX (1, 1) true);
     has_mterm_fun := true; has_lterm_fun := true;
     has_tvp_fun := false; has_p_fun := true;
     lb_opt_x := fun _ => []; ub_opt_x := fun _ => [];
     nlp := None; opt_x_num := None; opt_p_num := None;
     t0 := 0%Q; x0 := [0%Q; 0%Q]; u0 := [0%Q]; z0 := [0%Q];
     warnings := [] |}.

Definition dae_nominal_mpc : MPC := dae_mpc 5 0.

Definition radau2 (s : MPC) : Discretization :=
  {| n_total_coll_points := 2; g_rows := 4 |}.


Definition no_offset (k s : nat) : nat := 0.

(** Scenario counts of two combinations over a robust horizon of one. *)
Example robust_scenario_counts :
  map (n_scenarios (spec_scenario_tree no_offset robust_mpc)) [0; 1; 2; 3]
  = [1; 2; 2; 2].
Proof. reflexivity. Qed.

Example robust_branching :
  let tree := spec_scenario_tree no_offset robust_mpc in
  map (n_branches tree) [0; 1; 2] = [2; 1; 1]
  /\ map (child_scenario tree 0 0) [0; 1] = [0; 1]
  /\ map (parent_scenario tree 1) [0; 1] = [0; 0]
  /\ map (parent_scenario tree 2) [0; 1] = [0; 1].
Proof. repeat split. Qed.

Example robust_validity : _check_validity robust_mpc
                          = Done tt (state_after _check_validity robust_mpc).
Proof. reflexivity. Qed.

(** Six live branches, two per stage: three summands each and a terminal
    cost for the two of the last stage; three blocks of constraints
    each, after the initial condition. *)
Example robust_objective_size :
  match assemble (radau2 robust_mpc) (spec_scenario_tree no_offset robust_mpc)
          robust_mpc with
  | inr a => (List.length (obj a), List.length (cons a))
  | inl _ => (0, 0)
  end = (20, 19).
Proof. vm_compute. reflexivity. Qed.

(** ** The claims on the concrete problems *)

(** The two controllers after their validity check. *)
Definition robust_validated : MPC :=
  Eval vm_compute in state_after _check_validity robust_mpc.

Definition nominal_validated : MPC :=
  Eval vm_compute in state_after _check_validity nominal_mpc.


Definition dae_nominal_validated : MPC :=
  Eval vm_compute in state_after _check_validity dae_nominal_mpc.

Lemma C1_witness :
  exists s2 P,
    _prepare_nlp radau2 (spec_scenario_tree no_offset) robust_mpc = Done tt s2
    /\ nlp s2 = Some P
    /\ In (Scale (one_over 2)
             (Call f_lterm
                [OptXUnscaled (x_at 0 0 2); OptXUnscaled (u_at 0 0);
                 OptXUnscaled (z_at 0 0 1); OptP (p_tvp 0); OptP (p_p 1)]))
          (nlp_obj P)
    /\ In (Scale (one_over 2)
             (Call f_mterm
                [OptXUnscaled (x_at 3 1 2); OptP (p_tvp 3); OptP (p_p 0)]))
          (nlp_obj P).
Proof.
  assert (Hcv : _check_validity robust_mpc = Done tt robust_validated)
    by reflexivity.
  assert (Hlive : tree_live (spec_scenario_tree no_offset robust_validated)
                    robust_validated)
    by (apply spec_tree_live; vm_compute; lia).
  destruct (C1_objective_per_branch radau2 (spec_scenario_tree no_offset)
              robust_mpc robust_validated Hcv Hlive)
    as (s2 & P & Hrun & HP & Hin & _).
  exists s2, P. split; [exact Hrun|]. split; [exact HP|]. split.
  - apply (Hin 0 0 1); vm_compute; lia.
  - apply (Hin 2 1 0); vm_compute; lia.
Defined.

Lemma C2_witness :
  exists s2 P,
    _prepare_nlp radau2 (spec_scenario_tree no_offset) robust_mpc = Done tt s2
    /\ nlp s2 = Some P
    /\ In (RtermDot (Square (Sub (OptX (u_at 0 0))
                               (DivScaling (OptP p_u_prev) cls_u))))
          (nlp_obj P)
    /\ In (RtermDot (Square (Sub (OptX (u_at 1 1)) (OptX (u_at 0 0)))))
          (nlp_obj P).
Proof.
  assert (Hcv : _check_validity robust_mpc = Done tt robust_validated)
    by reflexivity.
  assert (Hlive : tree_live (spec_scenario_tree no_offset robust_validated)
                    robust_validated)
    by (apply spec_tree_live; vm_compute; lia).
  assert (Hroot : open_loop (settings robust_validated) = true ->
                  forall k, 0 < k < n_horizon (settings robust_validated) ->
                    parent_scenario
                      (spec_scenario_tree no_offset robust_validated) k 0 = 0)
    by (intros Hopen; vm_compute in Hopen; discriminate Hopen).
  destruct (C2_rate_penalty_against_parent radau2
              (spec_scenario_tree no_offset)
              robust_mpc robust_validated Hcv Hlive Hroot)
    as (s2 & P & Hrun & HP & Hin & _).
  exists s2, P. split; [exact Hrun|]. split; [exact HP|]. split.
  - apply (Hin 0 0 0); vm_compute; lia.
  - apply (Hin 1 1 0); vm_compute; lia.
Defined.



Lemma C4_witness :
  exists s2 P,
    _prepare_nlp radau2 (spec_scenario_tree no_offset) robust_mpc = Done tt s2
    /\ nlp s2 = Some P
    /\ nth_error (nlp_cons P) 0
       = Some (Sub (OptX (x_at 0 0 2)) (DivScaling (OptP p_x0) cls_x))
    /\ nth_error (nlp_cons_lb P) 0 = Some (Zeros 2)
    /\ nth_error (nlp_cons_ub P) 0 = Some (Zeros 2).
Proof.
  assert (Hcv : _check_validity robust_mpc = Done tt robust_validated)
    by reflexivity.
  assert (Hlive : tree_live (spec_scenario_tree no_offset robust_validated)
                    robust_validated)
    by (apply spec_tree_live; vm_compute; lia).
  exact (C4_initial_condition_first radau2 (spec_scenario_tree no_offset)
           robust_mpc robust_validated Hcv Hlive).
Defined.

Lemma C5_witness :
  exists s2 P,
    _prepare_nlp discrete_discretization (spec_scenario_tree no_offset)
      nominal_mpc = Done tt s2
    /\ nlp s2 = Some P
    /\ List.length (filter is_continuity (nlp_cons P)) = 5
    /\ List.length (filter is_equality (blocks_of P)) = 6
    /\ filter (is_inequality 0) (blocks_of P) = [].
Proof.
  assert (Hcv : _check_validity nominal_mpc = Done tt nominal_validated)
    by reflexivity.
  assert (Hrob : n_robust (settings nominal_mpc) = 0) by reflexivity.
  assert (Hnz : n_z (model nominal_mpc) = 0) by reflexivity.
  assert (Hnl : n_nl_cons nominal_mpc = 0) by reflexivity.
  assert (Hnx : 0 < n_x (model nominal_mpc)) by (vm_compute; lia).
  destruct (C5_discrete_nominal_counts no_offset nominal_mpc
              nominal_validated Hcv Hrob Hnz Hnl Hnx)
    as (s2 & P & Hrun & HP & _ & _ & _ & Hc & He & _ & Hi).
  exists s2, P. repeat split; assumption.
Defined.

(** C5, without the amendment: for a model with an algebraic state
    every stage adds a block of [n_z] algebraic equations, and five
    stages with the initial condition give eleven equalities, not six. *)
Lemma C5_counterexample :
  exists s2 P,
    _prepare_nlp discrete_discretization (spec_scenario_tree no_offset)
      dae_nominal_mpc = Done tt s2
    /\ nlp s2 = Some P
    /\ n_robust (settings dae_nominal_mpc) = 0
    /\ n_nl_cons dae_nominal_mpc = 0
    /\ n_horizon (settings dae_nominal_mpc) = 5
    /\ List.length (filter is_equality (blocks_of P)) = 11.
Proof.
  assert (Hcv : _check_validity dae_nominal_mpc
                = Done tt dae_nominal_validated)
    by reflexivity.
  assert (Hlive : tree_live
                    (spec_scenario_tree no_offset dae_nominal_validated)
                    dae_nominal_validated)
    by (apply spec_tree_live; vm_compute; lia).
  destruct (prepare_nlp_shape discrete_discretization
              (spec_scenario_tree no_offset)
              dae_nominal_mpc dae_nominal_validated Hcv Hlive)
    as (s2 & P & Hrun & HP & _ & Hcons & Hlb & Hub).
  exists s2, P. split; [exact Hrun|]. split; [exact HP|].
  split; [reflexivity|]. split; [reflexivity|]. split; [reflexivity|].
  unfold blocks_of. rewrite Hcons, Hlb, Hub. vm_compute. reflexivity.
Defined.

Lemma C6_witness :
  exists s2,
    _prepare_nlp radau2 (spec_scenario_tree no_offset) robust_mpc = Done tt s2
    /\ forall sc i,
         lb_opt_x s2 (x_at 0 sc i) = [NegInf; NegInf]
         /\ ub_opt_x s2 (x_at 0 sc i) = [PosInf; PosInf].
Proof.
  assert (Hcv : _check_validity robust_mpc = Done tt robust_validated)
    by reflexivity.
  assert (Hlive : tree_live (spec_scenario_tree no_offset robust_validated)
                    robust_validated)
    by (apply spec_tree_live; vm_compute; lia).
  assert (HN : 1 <= n_horizon (settings robust_mpc)) by (vm_compute; lia).
  exact (C6_initial_state_never_bounded radau2 (spec_scenario_tree no_offset)
           robust_mpc robust_validated Hcv Hlive HN).
Defined.

Lemma C7_witness :
  exists s2,
    _prepare_nlp radau2 (spec_scenario_tree no_offset) robust_mpc = Done tt s2
    /\ x_terminal_ub (bounds s2) = [Fin 1%Q; PosInf]
    /\ x_terminal_lb (bounds s2) = [Fin (-1)%Q; NegInf]
    /\ forall sc,
         ub_opt_x s2 (x_at 3 sc 2) = x_terminal_ub (bounds s2)
         /\ lb_opt_x s2 (x_at 3 sc 2) = x_terminal_lb (bounds s2).
Proof.
  assert (Hcv : _check_validity robust_mpc = Done tt robust_validated)
    by reflexivity.
  assert (Hlive : tree_live (spec_scenario_tree no_offset robust_validated)
                    robust_validated)
    by (apply spec_tree_live; vm_compute; lia).
  exact (C7_terminal_bounds_fallback radau2 (spec_scenario_tree no_offset)
           robust_mpc robust_validated Hcv Hlive).
Defined.

Lemma C8_witness :
  setup radau2 (spec_scenario_tree no_offset) inconsistent_mpc
  = Raised (Exception_ "Your bounds are inconsistent.") inconsistent_mpc.
Proof.
  assert (Hbad : lower_exceeds_upper (x_lb (bounds inconsistent_mpc))
                   (x_ub (bounds inconsistent_mpc))).
  { exists 0, (Fin 2%Q), (Fin 1%Q). repeat split; reflexivity. }
  destruct (C8_inconsistent_bounds_raise radau2 (spec_scenario_tree no_offset)
              inconsistent_mpc (or_introl Hbad))
    as (e & s' & Hcv & _ & Hsetup & _).
  rewrite Hsetup, <- Hcv. reflexivity.
Defined.

Definition no_parameters (t : Q) (k : nat) : list Q := [].

(** A solver that returns its initial guess. *)
Definition idle_solver (guess : opt_x_struct) (params : opt_p_struct)
    (lb ub : bound_struct) : opt_x_struct := guess.

(** The robust controller after [setup]. *)
Definition robust_ready : MPC :=
  state_after (setup radau2 (spec_scenario_tree no_offset)) robust_mpc.


Lemma C10_witness :
  exists e,
    set_objective (PyCasadi SX (1, 1) true) PyNone robust_mpc
    = Raised e robust_mpc
    /\ raised_by_shape_assertion e.
Proof.
  apply (C10_cost_terms_are_mandatory (PyCasadi SX (1, 1) true) PyNone
           robust_mpc).
  now right.
Defined.

(** * Further properties of the assembly *)

(** ** The blocks of constraints and their bounds *)

Lemma combine_over_tree {A B : Type} (tree : ScenarioTree) (self : MPC)
    (f : nat -> nat -> nat -> list A) (g : nat -> nat -> nat -> list B) :
  (forall k s b, List.length (f k s b) = List.length (g k s b)) ->
  combine (over_tree tree self f) (over_tree tree self g)
  = over_tree tree self (fun k s b => combine (f k s b) (g k s b)).
Proof.
  intros Hlen. unfold over_tree, over_stage.
  rewrite combine_flat_map.
  - apply flat_map_ext. intros k. rewrite combine_flat_map.
    + apply flat_map_ext. intros s. now apply combine_flat_map.
    + intros s. symmetry. apply length_flat_map_same.
      intros b. symmetry. apply Hlen.
  - intros k. symmetry. apply length_flat_map_same. intros s.
    apply length_flat_map_same. intros b. symmetry. apply Hlen.
Qed.

Lemma length_over_tree_same {A B : Type} (tree : ScenarioTree) (self : MPC)
    (f : nat -> nat -> nat -> list A) (g : nat -> nat -> nat -> list B) :
  (forall k s b, List.length (g k s b) = List.length (f k s b)) ->
  List.length (over_tree tree self g) = List.length (over_tree tree self f).
Proof.
  intros Hlen. unfold over_tree, over_stage.
  apply length_flat_map_same. intros k.
  apply length_flat_map_same. intros s.
  apply length_flat_map_same. intros b. apply Hlen.
Qed.

(** The kinds of blocks the assembler emits, each with its bounds. *)
Inductive block_kind (disc : Discretization) (self : MPC) : block -> Prop :=
| kind_initial :
    block_kind disc self
      (initial_condition disc,
       (Zeros (n_x (model self)), Zeros (n_x (model self))))
| kind_collocation (args : list expr) :
    block_kind disc self
      (Call f_ifcn_g args, (Zeros (g_rows disc), Zeros (g_rows disc)))
| kind_continuity (args : list expr) (r : opt_x_ref) :
    block_kind disc self
      (Sub (Call f_ifcn_xf args) (OptX r),
       (Zeros (n_x (model self)), Zeros (n_x (model self))))
| kind_nl_cons (args : list expr) :
    block_kind disc self (Call f_nl_cons args, (NlConsLb, NlConsUb)).

Section Blocks.

Variable disc : Discretization.
Variable tree : ScenarioTree.
Variable self : MPC.

(** The blocks of one branch. *)
Definition branch_blocks (k s b : nat) : list block :=
  [(Call f_ifcn_g (ifcn_args_of disc tree self k s b),
    (Zeros (g_rows disc), Zeros (g_rows disc)));
   (Sub (Call f_ifcn_xf (ifcn_args_of disc tree self k s b))
      (OptX (x_at (k + 1) (child_scenario tree k s b) (x_last disc))),
    (Zeros (n_x (model self)), Zeros (n_x (model self))))]
  ++ map (fun e => (e, (NlConsLb, NlConsUb))) (nl_cons_of disc tree self k s b).

Lemma branch_blocks_eq omega k s b :
  combine (branch_cons disc tree self omega k s b)
    (combine (branch_cons_lb disc tree self omega k s b)
       (branch_cons_ub disc tree self omega k s b))
  = branch_blocks k s b.
Proof.
  rewrite branch_cons_eq, branch_cons_lb_eq, branch_cons_ub_eq.
  unfold branch_blocks. cbn [app combine]. now rewrite combine_const.
Qed.

Lemma branch_lengths omega k s b :
  List.length (branch_cons_lb disc tree self omega k s b)
  = List.length (branch_cons disc tree self omega k s b)
  /\ List.length (branch_cons_ub disc tree self omega k s b)
     = List.length (branch_cons disc tree self omega k s b).
Proof.
  rewrite branch_cons_eq, branch_cons_lb_eq, branch_cons_ub_eq.
  cbn [app List.length]. now rewrite !length_map.
Qed.

Lemma nl_cons_of_calls k s b e :
  In e (nl_cons_of disc tree self k s b) -> exists args, e = Call f_nl_cons args.
Proof.
  unfold nl_cons_of.
  destruct (nl_cons_check_colloc_points (settings self)).
  - intros Hin. apply in_map_iff in Hin as (i & <- & _). eauto.
  - intros [<- | []]. eauto.
Qed.

Lemma branch_blocks_kind k s b blk :
  In blk (branch_blocks k s b) -> block_kind disc self blk.
Proof.
  unfold branch_blocks. intros Hin.
  apply in_app_or in Hin as [[<- | [<- | []]] | Hin].
  - constructor.
  - constructor.
  - apply in_map_iff in Hin as (e & <- & He).
    apply nl_cons_of_calls in He as (args & ->). constructor.
Qed.

End Blocks.

(** X1. The three lists [cons], [cons_lb] and [cons_ub] that [_prepare_nlp]
    stores have the same length, and position by position they hold an
    expression with the bounds of its kind: zeros of [n_x] rows for the
    initial condition and the continuity equations, zeros of the rows of
    the discretization's defect for the collocation equations, and the
    bounds of the nonlinear constraints for the nonlinear constraints. *)
Theorem constraints_and_bounds_aligned
    (sd : MPC -> Discretization) (st : MPC -> ScenarioTree) (s s1 : MPC) :
  _check_validity s = Done tt s1 ->
  tree_live (st s1) s1 ->
  exists s2 P,
    _prepare_nlp sd st s = Done tt s2 /\ nlp s2 = Some P
    /\ List.length (nlp_cons_lb P) = List.length (nlp_cons P)
    /\ List.length (nlp_cons_ub P) = List.length (nlp_cons P)
    /\ forall blk, In blk (blocks_of P) -> block_kind (sd s1) s1 blk.
Proof.
  intros Hcv Hlive.
  destruct (prepare_nlp_shape sd st s s1 Hcv Hlive)
    as (s2 & P & Hrun & HP & _ & Hcons & Hlb & Hub).
  set (disc := sd s1) in *. set (tree := st s1) in *.
  set (om := omega_list tree s1) in *.
  exists s2, P. split; [exact Hrun|]. split; [exact HP|].
  split.
  { rewrite Hlb, Hcons. cbn [List.length]. f_equal.
    apply length_over_tree_same. intros. apply branch_lengths. }
  split.
  { rewrite Hub, Hcons. cbn [List.length]. f_equal.
    apply length_over_tree_same. intros. apply branch_lengths. }
  intros blk Hin. unfold blocks_of in Hin. rewrite Hcons, Hlb, Hub in Hin.
  cbn [combine] in Hin. destruct Hin as [<- | Hin]; [constructor|].
  rewrite (combine_over_tree tree s1
             (branch_cons_lb disc tree s1 om) (branch_cons_ub disc tree s1 om))
    in Hin.
  2:{ intros k sc b. destruct (branch_lengths disc tree s1 om k sc b).
      congruence. }
  rewrite (combine_over_tree tree s1 (branch_cons disc tree s1 om)) in Hin.
  2:{ intros k sc b. rewrite length_combine.
      destruct (branch_lengths disc tree s1 om k sc b) as (H1 & H2).
      rewrite H1, H2. now rewrite Nat.min_id. }
  apply in_over_tree in Hin as (k & sc & b & _ & _ & _ & Hin).
  rewrite branch_blocks_eq in Hin.
  now apply (branch_blocks_kind disc tree s1 k sc b).
Qed.

(** ** How often a stage is charged *)

Lemma map_filter_flat_map {X A B : Type} (f : A -> B) (p : A -> bool)
    (g : X -> list A) (xs : list X) :
  map f (filter p (flat_map g xs))
  = flat_map (fun x => map f (filter p (g x))) xs.
Proof.
  induction xs as [|x xs IH]; cbn; [reflexivity|].
  now rewrite filter_app, map_app, IH.
Qed.

Lemma flat_map_ext_seq {A : Type} (f g : nat -> list A) (lo n : nat) :
  (forall k, lo <= k < lo + n -> f k = g k) ->
  flat_map f (seq lo n) = flat_map g (seq lo n).
Proof.
  revert lo; induction n as [|n IH]; intros lo Hfg; cbn; [reflexivity|].
  rewrite Hfg by lia. f_equal. apply IH. intros k Hk. apply Hfg. lia.
Qed.

Lemma flat_map_repeat {X A : Type} (w : A) (m : nat) (xs : list X) :
  flat_map (fun _ => repeat w m) xs = repeat w (List.length xs * m).
Proof.
  induction xs as [|x xs IH]; cbn; [reflexivity|].
  now rewrite IH, repeat_app.
Qed.

Lemma flat_map_nil {X A : Type} (xs : list X) :
  flat_map (fun _ => @nil A) xs = [].
Proof. induction xs; cbn; auto. Qed.

Lemma flat_map_select {A : Type} (l : list A) (k lo n : nat) :
  lo <= k < lo + n ->
  flat_map (fun k' => if k' =? k then l else []) (seq lo n) = l.
Proof.
  revert lo; induction n as [|n IH]; intros lo Hk; [lia|]. cbn [seq flat_map].
  destruct (lo =? k) eqn:E.
  - apply Nat.eqb_eq in E. subst lo.
    rewrite (flat_map_ext_seq _ (fun _ => [])).
    + now rewrite flat_map_nil, app_nil_r.
    + intros k' Hk'. replace (k' =? k) with false; [reflexivity|].
      symmetry. apply Nat.eqb_neq. lia.
  - apply Nat.eqb_neq in E. cbn [app]. apply IH. lia.
Qed.

Section StageSelection.

Variable tree : ScenarioTree.
Variable self : MPC.

Let N := n_horizon (settings self).

(** From the summands of the live branches, keep those that [p] selects
    and read [f] off them: when a branch of stage [k] yields one value
    [w] and a branch of another stage none, the result is [w] once per
    live branch of stage [k]. *)
Lemma over_tree_select {A B : Type} (f : A -> B) (p : A -> bool)
    (g : nat -> nat -> nat -> list A) (k : nat) (w : B) :
  k < N ->
  (forall k' s b, k' < N ->
     map f (filter p (g k' s b)) = if k' =? k then [w] else []) ->
  map f (filter p (over_tree tree self g))
  = repeat w (n_scenarios tree k * n_branches tree k).
Proof.
  intros Hk Hg. unfold over_tree. fold N. rewrite map_filter_flat_map.
  rewrite (flat_map_ext_seq _
             (fun k' => if k' =? k
                        then repeat w (n_scenarios tree k * n_branches tree k)
                        else [])).
  - apply flat_map_select. lia.
  - intros k' Hk'. unfold over_stage. rewrite map_filter_flat_map.
    rewrite (flat_map_ext _
               (fun _ => if k' =? k then repeat w (n_branches tree k') else [])).
    + destruct (k' =? k) eqn:E.
      * apply Nat.eqb_eq in E. subst k'.
        now rewrite flat_map_repeat, length_seq.
      * apply flat_map_nil.
    + intros s. rewrite map_filter_flat_map.
      rewrite (flat_map_ext _ (fun _ => if k' =? k then [w] else [])).
      * destruct (k' =? k).
        -- rewrite (flat_map_repeat w 1), length_seq. now rewrite Nat.mul_1_r.
        -- apply flat_map_nil.
      * intros b. apply Hg. lia.
Qed.

End StageSelection.

(** The stage-cost summands evaluated at a node of stage [k]. *)
Definition is_lterm_at (k : nat) (e : expr) : bool :=
  match e with
  | Scale _ (Call f_lterm (OptXUnscaled (x_at k' _ _) :: _)) => k' =? k
  | _ => false
  end.


(** The coefficient of a summand. *)
Definition weight_of (e : expr) : Q :=
  match e with Scale w _ => w | _ => 1%Q end.

Section ChargedPerStage.

Variable sd : MPC -> Discretization.
Variable st : MPC -> ScenarioTree.

(** X2. Stage [k] contributes one stage-cost summand per live branch, each
    with the coefficient [1. / n_scenarios[k + 1]]. *)
Theorem stage_cost_once_per_branch (s s1 : MPC) (k : nat) :
  _check_validity s = Done tt s1 ->
  tree_live (st s1) s1 ->
  k < n_horizon (settings s1) ->
  let tree := st s1 in
  exists s2 P,
    _prepare_nlp sd st s = Done tt s2 /\ nlp s2 = Some P
    /\ map weight_of (filter (is_lterm_at k) (nlp_obj P))
       = repeat (one_over (n_scenarios tree (k + 1)))
           (n_scenarios tree k * n_branches tree k).
Proof.
  intros Hcv Hlive Hk tree.
  destruct (prepare_nlp_shape sd st s s1 Hcv Hlive)
    as (s2 & P & Hrun & HP & Hobj & _).
  exists s2, P. split; [exact Hrun|]. split; [exact HP|].
  rewrite Hobj. apply over_tree_select; [exact Hk|].
  intros k' sc b Hk'. rewrite branch_obj_live by assumption.
  destruct (k' =? n_horizon (settings s1) - 1); destruct (k' =? 0);
    cbn [app filter map is_lterm_at stage_args weight_of];
    destruct (k' =? k) eqn:E; try reflexivity;
    apply Nat.eqb_eq in E; subst k'; reflexivity.
Qed.


End ChargedPerStage.

(** ** The bounds of every decision variable *)

(** The bound of the entry [r] of [opt_x] after [_update_bounds], for a
    structure that held [inf] everywhere: the later assignments of the
    source override the earlier ones. *)
Definition bound_layout (N last : nat) (check_all : bool) (inf : ebound)
    (nx nz : nat) (path_x path_z term_x path_u path_eps : list ebound)
    (r : opt_x_ref) : list ebound :=
  match r with
  | x_at k _ i =>
      if (k =? N) && (i =? last) then term_x
      else if (1 <=? k) && (k <? N) && (check_all || (i =? last)) then path_x
      else repeat inf nx
  | z_at _ _ i =>
      if check_all || (i =? 0) then path_z else repeat inf nz
  | u_at _ _ => path_u
  | eps_at _ _ => path_eps
  end.

Lemma update_struct_layout (last : nat) (s : MPC) (inf : ebound)
    (px pz tx pu pe : list ebound) (r : opt_x_ref) :
  update_struct last s px pz tx pu pe (opt_x_full s inf) r
  = bound_layout (n_horizon (settings s)) last
      (cons_check_colloc_points (settings s)) inf
      (n_x (model s)) (n_z (model s)) px pz tx pu pe r.
Proof.
  unfold update_struct, assign_where, bound_layout, opt_x_full.
  destruct r as [k sc i | k sc i | k sc | k sc];
    destruct (cons_check_colloc_points (settings s));
    cbn [sel_eps sel_u sel_x_stage_at sel_z sel_z_at sel_x_stages
           sel_x_stages_at entry_size orb];
    try reflexivity;
    destruct (Nat.eqb_spec k (n_horizon (settings s)));
    destruct (Nat.eqb_spec i last);
    destruct (Nat.leb_spec 1 k);
    destruct (Nat.ltb_spec k (n_horizon (settings s)));
    cbn [andb orb]; try reflexivity; lia.
Qed.

(** The path bounds of the inputs, the algebraic states and the slacks
    are the same in two states. *)
Definition bounds_path_eq (s s1 : MPC) : Prop :=
  u_lb (bounds s1) = u_lb (bounds s) /\ u_ub (bounds s1) = u_ub (bounds s)
  /\ z_lb (bounds s1) = z_lb (bounds s) /\ z_ub (bounds s1) = z_ub (bounds s)
  /\ eps_lb (bounds s1) = eps_lb (bounds s)
  /\ eps_ub (bounds s1) = eps_ub (bounds s).

Section BoundsOfTheProblem.

Variable sd : MPC -> Discretization.
Variable st : MPC -> ScenarioTree.

Lemma prepare_nlp_bounds (s s1 : MPC) :
  _check_validity s = Done tt s1 ->
  tree_live (st s1) s1 ->
  let N := n_horizon (settings s) in
  let last := n_total_coll_points (sd s1) in
  let check_all := cons_check_colloc_points (settings s) in
  exists s2,
    _prepare_nlp sd st s = Done tt s2
    /\ bounds s2 = bounds s1
    /\ (forall r,
          lb_opt_x s2 r
          = bound_layout N last check_all NegInf (n_x (model s)) (n_z (model s))
              (x_lb (bounds s1)) (z_lb (bounds s1)) (x_terminal_lb (bounds s1))
              (u_lb (bounds s1)) (eps_lb (bounds s1)) r)
    /\ (forall r,
          ub_opt_x s2 r
          = bound_layout N last check_all PosInf (n_x (model s)) (n_z (model s))
              (x_ub (bounds s1)) (z_ub (bounds s1)) (x_terminal_ub (bounds s1))
              (u_ub (bounds s1)) (eps_ub (bounds s1)) r).
Proof.
  intros Hcv Hlive N last check_all.
  destruct (assemble_shape (sd s1) (st s1) s1 Hlive) as (a & Hasm & _).
  destruct (prepare_nlp_run sd st s s1 a Hcv Hasm)
    as (s2 & Hrun & _ & Hlb & Hub & _ & _ & _ & _ & _ & _ & _ & _ & Hb).
  apply check_validity_done in Hcv as (Hframe & _).
  apply frame_inv in Hframe as (Hmodel & (HN & _ & _ & _ & Hcc) & _).
  exists s2. split; [exact Hrun|]. split; [exact Hb|].
  unfold N, last, check_all. rewrite <- HN, <- Hcc, <- Hmodel.
  split; intros r; [rewrite Hlb | rewrite Hub]; apply update_struct_layout.
Qed.

(** X5. The path bounds of the states reach the stages [1 .. n_horizon - 1]
    only: there every collocation point carries them when
    [cons_check_colloc_points] is set, and only the last one otherwise.
    At stage [n_horizon] every point before the last one is unbounded,
    whatever the flag: the collocation points of the last interval are
    not bounded. *)
Theorem path_bounds_cover_inner_stages_only (s s1 : MPC) :
  _check_validity s = Done tt s1 ->
  tree_live (st s1) s1 ->
  let N := n_horizon (settings s) in
  let last := n_total_coll_points (sd s1) in
  let unbounded := fun s2 r =>
    lb_opt_x s2 r = repeat NegInf (n_x (model s))
    /\ ub_opt_x s2 r = repeat PosInf (n_x (model s)) in
  let path_bounded := fun s2 r =>
    lb_opt_x s2 r = x_lb (bounds s) /\ ub_opt_x s2 r = x_ub (bounds s) in
  exists s2,
    _prepare_nlp sd st s = Done tt s2
    /\ (forall k sc i, 1 <= k < N ->
          if cons_check_colloc_points (settings s) || (i =? last)
          then path_bounded s2 (x_at k sc i)
          else unbounded s2 (x_at k sc i))
    /\ (forall sc i, i <> last -> unbounded s2 (x_at N sc i)).
Proof.
  intros Hcv Hlive N last unbounded path_bounded.
  destruct (prepare_nlp_bounds s s1 Hcv Hlive) as (s2 & Hrun & _ & Hlb & Hub).
  apply check_validity_done in Hcv as (Hframe & _).
  apply frame_inv in Hframe as (_ & _ & (Hxl & Hxu) & _).
  exists s2. split; [exact Hrun|]. fold N last in Hlb, Hub. split.
  - intros k sc i Hk. unfold path_bounded, unbounded.
    rewrite Hlb, Hub. cbn [bound_layout].
    destruct (Nat.eqb_spec k N); [lia|].
    destruct (Nat.leb_spec 1 k); [|lia].
    destruct (Nat.ltb_spec k N); [|lia]. cbn [andb].
    destruct (cons_check_colloc_points (settings s) || (i =? last));
      auto.
  - intros sc i Hi. unfold unbounded. rewrite Hlb, Hub. cbn [bound_layout].
    destruct (Nat.eqb_spec i last); [contradiction|].
    rewrite Nat.ltb_irrefl, !andb_false_r. cbn [andb]. auto.
Qed.

(** X6. When [use_terminal_bounds] is off and the terminal bounds are as
    [__init__] leaves them (all infinite), the state at the end of the
    horizon carries no bound at any collocation point, although path
    bounds are configured. *)
Theorem terminal_state_unbounded_without_terminal_bounds (s s1 : MPC) :
  _check_validity s = Done tt s1 ->
  tree_live (st s1) s1 ->
  use_terminal_bounds (settings s) = false ->
  x_terminal_lb (bounds s) = repeat NegInf (n_x (model s)) ->
  x_terminal_ub (bounds s) = repeat PosInf (n_x (model s)) ->
  exists s2,
    _prepare_nlp sd st s = Done tt s2
    /\ forall sc i,
         lb_opt_x s2 (x_at (n_horizon (settings s)) sc i)
         = repeat NegInf (n_x (model s))
         /\ ub_opt_x s2 (x_at (n_horizon (settings s)) sc i)
            = repeat PosInf (n_x (model s)).
Proof.
  intros Hcv Hlive Huse Htl Htu.
  destruct (prepare_nlp_bounds s s1 Hcv Hlive) as (s2 & Hrun & _ & Hlb & Hub).
  apply check_validity_done in Hcv as (_ & Hub1 & Hlb1).
  unfold terminal_ub_after in Hub1. unfold terminal_lb_after in Hlb1.
  rewrite Huse, andb_false_r in Hub1, Hlb1.
  exists s2. split; [exact Hrun|]. intros sc i.
  rewrite Hlb, Hub. cbn [bound_layout].
  rewrite Nat.ltb_irrefl, !andb_false_r. cbn [andb].
  rewrite Hub1, Hlb1, Htl, Htu.
  destruct (_ && _); auto.
Qed.

(** X7. The inputs and the slack variables carry their bounds at every stage
    and scenario; the algebraic states carry theirs at every collocation
    point when [cons_check_colloc_points] is set and at the first one
    only otherwise. *)
Theorem input_and_algebraic_bounds (s s1 : MPC) :
  _check_validity s = Done tt s1 ->
  tree_live (st s1) s1 ->
  exists s2,
    _prepare_nlp sd st s = Done tt s2
    /\ (forall k sc,
          lb_opt_x s2 (u_at k sc) = u_lb (bounds s)
          /\ ub_opt_x s2 (u_at k sc) = u_ub (bounds s)
          /\ lb_opt_x s2 (eps_at k sc) = eps_lb (bounds s)
          /\ ub_opt_x s2 (eps_at k sc) = eps_ub (bounds s))
    /\ (forall k sc i,
          if cons_check_colloc_points (settings s) || (i =? 0)
          then lb_opt_x s2 (z_at k sc i) = z_lb (bounds s)
               /\ ub_opt_x s2 (z_at k sc i) = z_ub (bounds s)
          else lb_opt_x s2 (z_at k sc i) = repeat NegInf (n_z (model s))
               /\ ub_opt_x s2 (z_at k sc i) = repeat PosInf (n_z (model s))).
Proof.
  intros Hcv Hlive.
  destruct (prepare_nlp_bounds s s1 Hcv Hlive) as (s2 & Hrun & _ & Hlb & Hub).
  assert (Hpath : bounds_path_eq s s1).
  { apply check_validity_done in Hcv as (Hframe & _).
    unfold bounds_path_eq, frame in *. injection Hframe. intros.
    repeat split; assumption. }
  destruct Hpath as (Hul & Huu & Hzl & Hzu & Hel & Heu).
  exists s2. split; [exact Hrun|]. split.
  - intros k sc. rewrite !Hlb, !Hub. cbn [bound_layout]. auto.
  - intros k sc i. rewrite Hlb, Hub. cbn [bound_layout].
    destruct (cons_check_colloc_points (settings s) || (i =? 0)); auto.
Qed.

End BoundsOfTheProblem.

(** * Further properties of the validity check *)

(** The checks of [_check_validity] that raise. *)
Definition configuration_ok (s : MPC) : bool :=
  flag_set_objective (flags s)
  && (flag_set_tvp_fun (flags s) || (tvp_size (model s) =? 0))
  && (flag_set_p_fun (flags s) || (p_size (model s) =? 0))
  && negb (np_any (bound_check (x_lb (bounds s)) (x_ub (bounds s))))
  && negb (np_any (bound_check (u_lb (bounds s)) (u_ub (bounds s))))
  && negb (np_any (bound_check (z_lb (bounds s)) (z_ub (bounds s)))).

(** The warnings of [_check_validity]. *)
Definition validity_warnings (s : MPC) : list warning :=
  (if flag_set_rterm (flags s) then [] else [WarnRtermNotSet])
  ++ (if np_any (map (fun r => Qltb r 0) (rterm_factor s))
      then [WarnNegativeRterm] else []).

Ltac config_cases s H :=
  unfold configuration_ok in H;
  repeat match goal with
    | E : np_any (bound_check _ _) = _ |- _ => rewrite E in H; clear E
    end;
  destruct (flag_set_objective (flags s)); cbn in *; try discriminate;
  destruct (flag_set_tvp_fun (flags s)); destruct (tvp_size (model s));
  cbn in *; try discriminate;
  destruct (flag_set_p_fun (flags s)); destruct (p_size (model s));
  cbn in *; discriminate.

Lemma check_validity_passes (s : MPC) :
  configuration_ok s = true ->
  exists s1, _check_validity s = Done tt s1
             /\ warnings s1 = warnings s ++ validity_warnings s.
Proof.
  unfold validity_warnings.
  intros Hok. unfold _check_validity. run_method.
  destruct (flag_set_rterm (flags s));
    destruct (np_any (map (fun r => Qltb r 0) (rterm_factor s)));
    cbn [negb]; split_ifs;
    lazymatch goal with
    | |- exists s1, Raised _ _ = Done _ s1 /\ _ =>
        exfalso; config_cases s Hok
    | |- _ =>
        eexists; split; [reflexivity|]; cbn;
        rewrite <- ?app_assoc; rewrite ?app_nil_r; reflexivity
    end.
Qed.

Lemma check_validity_installs_functions (s s1 : MPC) :
  _check_validity s = Done tt s1 ->
  has_p_fun s1 = true /\ has_tvp_fun s1 = true.
Proof.
  unfold _check_validity. run_method.
  destruct (has_p_fun s) eqn:Hp; destruct (has_tvp_fun s) eqn:Ht;
    cbn [negb andb]; split_ifs; intros H; try discriminate H;
    injection H as <-; cbn; split; try reflexivity; assumption.
Qed.

(** X8. [_check_validity] finishes exactly when the objective is set, the
    functions of the time-varying and of the uncertain parameters are
    supplied where the model has such parameters, and no lower bound
    exceeds its upper bound. A missing rate penalty and a negative rate
    penalty are logged and never make the check raise. *)
Theorem validity_check_passes_iff (s : MPC) :
  (configuration_ok s = true ->
   exists s1, _check_validity s = Done tt s1
              /\ warnings s1 = warnings s ++ validity_warnings s)
  /\ (configuration_ok s = false ->
      exists e s1, _check_validity s = Raised e s1).
Proof.
  split; [apply check_validity_passes|].
  intros Hbad. unfold _check_validity. split_ifs;
    lazymatch goal with
    | |- exists e s1, Raised _ _ = Raised e s1 => eauto
    | |- _ => exfalso; config_cases s Hbad
    end.
Qed.

(** X9. Without a function for the uncertain parameters, [_check_validity]
    installs a template of one combination: the width of the scenario
    structure, [n_combinations ** n_robust], is then one whatever the
    robust horizon and whatever [n_combinations] was. With such a
    function the number of combinations is kept. Afterwards both
    parameter functions exist. *)
Theorem validity_check_defaults_to_one_combination (s s1 : MPC) :
  _check_validity s = Done tt s1 ->
  (has_p_fun s = false ->
   n_combinations (settings s1) = 1 /\ n_max_scenarios s1 = 1)
  /\ (has_p_fun s = true ->
      n_combinations (settings s1) = n_combinations (settings s))
  /\ has_p_fun s1 = true /\ has_tvp_fun s1 = true.
Proof.
  unfold _check_validity, n_max_scenarios.
  run_method.
  destruct (has_p_fun s) eqn:Hp; destruct (has_tvp_fun s) eqn:Ht;
    cbn [negb andb]; split_ifs; intros H; try discriminate H;
    injection H as <-; cbn;
    repeat split; try (intros; discriminate); try reflexivity;
    try assumption;
    try apply Nat.pow_1_l.
Qed.

Lemma check_validity_leaves_ok (s s1 : MPC) :
  _check_validity s = Done tt s1 -> configuration_ok s1 = true.
Proof.
  unfold _check_validity. split_ifs; intros H; try discriminate H;
    injection H as <-; unfold configuration_ok; cbn -[np_any bound_check];
    repeat match goal with
      | E : np_any (bound_check _ _) = _ |- _ => rewrite E; clear E
      end;
    destruct (flag_set_objective (flags s)); cbn in *; try discriminate;
    destruct (flag_set_tvp_fun (flags s)); destruct (tvp_size (model s));
    cbn in *; try discriminate;
    destruct (flag_set_p_fun (flags s)); destruct (p_size (model s));
    cbn in *; try discriminate; reflexivity.
Qed.

Lemma check_validity_with_functions (s s1 : MPC) :
  has_tvp_fun s = true -> has_p_fun s = true ->
  _check_validity s = Done tt s1 ->
  flags s1 = flags s /\ settings s1 = settings s
  /\ warnings s1 = warnings s ++ validity_warnings s.
Proof.
  intros Ht Hp. unfold _check_validity, validity_warnings. run_method.
  rewrite Ht, Hp. cbn [negb].
  destruct (flag_set_rterm (flags s)) eqn:Hr;
    destruct (np_any (map (fun r => Qltb r 0) (rterm_factor s))) eqn:Hn;
    cbn [negb]; split_ifs; intros H; try discriminate H; injection H as <-;
    cbn; rewrite <- ?app_assoc; rewrite ?app_nil_r;
    repeat split; try reflexivity;
    destruct (flags s); reflexivity.
Qed.

Lemma check_validity_keeps_warnings (s s1 : MPC) :
  _check_validity s = Done tt s1 ->
  validity_warnings s1 = validity_warnings s.
Proof.
  intros Hcv.
  assert (H : flag_set_rterm (flags s1) = flag_set_rterm (flags s)
              /\ rterm_factor s1 = rterm_factor s).
  { revert Hcv. unfold _check_validity. split_ifs; intros H;
      try discriminate H; injection H as <-; split; reflexivity. }
  destruct H as (Hf & Hr). unfold validity_warnings. now rewrite Hf, Hr.
Qed.

Lemma terminal_fallback_stable (s s1 : MPC) :
  x_ub (bounds s1) = x_ub (bounds s) ->
  x_lb (bounds s1) = x_lb (bounds s) ->
  use_terminal_bounds (settings s1) = use_terminal_bounds (settings s) ->
  x_terminal_ub (bounds s1) = terminal_ub_after s ->
  x_terminal_lb (bounds s1) = terminal_lb_after s ->
  terminal_ub_after s1 = x_terminal_ub (bounds s1)
  /\ terminal_lb_after s1 = x_terminal_lb (bounds s1).
Proof.
  intros Hu Hl Huse Htu Htl. unfold terminal_ub_after at 1.
  unfold terminal_lb_after at 1. rewrite Htu, Htl, Hu, Hl, Huse.
  unfold terminal_ub_after, terminal_lb_after.
  split.
  - destruct (np_all (map is_pos_inf (x_terminal_ub (bounds s)))
              && use_terminal_bounds (settings s)) eqn:E.
    + match goal with |- (if ?c then _ else _) = _ => destruct c end;
        reflexivity.
    + now rewrite E.
  - destruct (np_all (map is_neg_inf (x_terminal_lb (bounds s)))
              && use_terminal_bounds (settings s)) eqn:E.
    + match goal with |- (if ?c then _ else _) = _ => destruct c end;
        reflexivity.
    + now rewrite E.
Qed.

(** X10. Running the validity check on the state it left finishes again and
    changes nothing but the log, to which the same warnings are added:
    the fallback of the terminal bounds, the number of combinations and
    the flags are stable under a repeated [setup]. *)
Theorem validity_check_idempotent (s s1 : MPC) :
  _check_validity s = Done tt s1 ->
  exists s2,
    _check_validity s1 = Done tt s2
    /\ bounds s2 = bounds s1 /\ settings s2 = settings s1
    /\ flags s2 = flags s1 /\ frame s2 = frame s1
    /\ warnings s2 = warnings s1 ++ validity_warnings s.
Proof.
  intros Hcv.
  pose proof (check_validity_leaves_ok s s1 Hcv) as Hok.
  destruct (check_validity_passes s1 Hok) as (s2 & Hcv2 & _).
  destruct (check_validity_installs_functions s s1 Hcv) as (Hp1 & Ht1).
  destruct (check_validity_with_functions s1 s2 Ht1 Hp1 Hcv2)
    as (Hflags & Hsettings & Hwarn).
  destruct (check_validity_done s s1 Hcv) as (Hframe1 & Htu1 & Htl1).
  destruct (check_validity_done s1 s2 Hcv2) as (Hframe2 & Htu2 & Htl2).
  pose proof (frame_inv s s1 Hframe1)
    as (_ & (_ & _ & _ & Huse & _) & (Hxl & Hxu) & _).
  destruct (terminal_fallback_stable s s1 Hxu Hxl Huse Htu1 Htl1)
    as (Hsu & Hsl).
  exists s2. split; [exact Hcv2|].
  pose proof (check_validity_keeps_warnings s s1 Hcv) as Hw.
  rewrite Hwarn, Hw. repeat split; try assumption.
  unfold frame in Hframe2. injection Hframe2. intros.
  rewrite Hsu in Htu2. rewrite Hsl in Htl2.
  destruct (bounds s2), (bounds s1); cbn in *; congruence.
Qed.


(** * Further properties of the control step *)

Section ControlStep.

Variable tvp_fun : Q -> nat -> list Q.
Variable p_fun : Q -> nat -> list Q.
Variable solver :
  opt_x_struct -> opt_p_struct -> bound_struct -> bound_struct -> opt_x_struct.

(** The numeric value that [make_step] accepts as state. *)
Definition x0_value (x : x0_arg) : option (list Q) :=
  match x with
  | X0Array v | X0Struct v => Some v
  | X0Invalid => None
  end.

(** X11. [make_step] raises before it changes anything when the controller is
    not set up, when the state has an invalid type, or when it has not
    [n_x] elements. *)
Theorem make_step_rejects (x : x0_arg) (s : MPC) :
  flag_setup (flags s) = false
  \/ x0_value x = None
  \/ (exists v, x0_value x = Some v /\ List.length v <> n_x (model s)) ->
  exists e, make_step tvp_fun p_fun solver x s = Raised e s.
Proof.
  intros H. unfold make_step. run_method.
  destruct (flag_setup (flags s)); run_method; [|eauto].
  destruct H as [H | [H | (v & Hv & Hlen)]]; [discriminate H | |].
  - destruct x; try discriminate H. run_method. eauto.
  - apply Nat.eqb_neq in Hlen.
    destruct x; try discriminate Hv; injection Hv as ->; run_method;
      rewrite Hlen; run_method; eauto.
Qed.

(** What a finished step leaves behind. *)
Lemma make_step_done_inv (x : x0_arg) (s s' : MPC) (u : list Q) :
  make_step tvp_fun p_fun solver x s = Done u s' ->
  exists v guess params,
    x0_value x = Some v /\ List.length v = n_x (model s)
    /\ flag_setup (flags s) = true
    /\ opt_x_num s = Some guess
    /\ opt_p_num s' = Some params
    /\ params p_x0 = v /\ params p_u_prev = u0 s
    /\ (forall k, params (p_tvp k) = tvp_fun (t0 s) k)
    /\ (forall c, params (p_p c) = p_fun (t0 s) c)
    /\ opt_x_num s' = Some (solver guess params (lb_opt_x s) (ub_opt_x s))
    /\ u = vec_mul (solver guess params (lb_opt_x s) (ub_opt_x s) (u_at 0 0))
             (u_scaling s)
    /\ u0 s' = u /\ x0 s' = v
    /\ t0 s' = Qplus (t0 s) (t_step (settings s))
    /\ flags s' = flags (set_flag_set_initial_guess true s)
    /\ warnings s'
       = warnings s ++ (if flag_set_initial_guess (flags s) then []
                        else [WarnNoInitialGuess])
    /\ model s' = model s /\ settings s' = settings s
    /\ lb_opt_x s' = lb_opt_x s /\ ub_opt_x s' = ub_opt_x s
    /\ u_scaling s' = u_scaling s.
Proof.
  unfold make_step, solve. run_method.
  destruct (flag_setup (flags s)) eqn:Hsetup; run_method; [|discriminate].
  destruct x as [v | v |]; run_method; try discriminate;
    (destruct (List.length v =? n_x (model s)) eqn:Hlen; run_method;
     [|discriminate]);
    apply Nat.eqb_eq in Hlen;
    (destruct (flag_set_initial_guess (flags s)) eqn:Hg; cbn [negb];
     run_method; cbn;
     (destruct (opt_p_num s) as [p|] eqn:Hp; run_method; [|discriminate]);
     cbn;
     (destruct (opt_x_num s) as [g|] eqn:Hx; run_method; [|discriminate]);
     cbn; intros H; injection H as <- <-;
     exists v, g; eexists; cbn; rewrite ?app_nil_r;
     repeat split; try reflexivity; try assumption;
     destruct (flags s); cbn in *; congruence).
Qed.

(** X12. The warning of the missing initial guess is issued at most once:
    whatever a step after a finished step does, it logs no warning. *)
Theorem make_step_warns_once (x x' : x0_arg) (s s' : MPC) (u : list Q) :
  make_step tvp_fun p_fun solver x s = Done u s' ->
  warnings (state_after (make_step tvp_fun p_fun solver x') s') = warnings s'.
Proof.
  intros Hstep.
  destruct (make_step_done_inv x s s' u Hstep)
    as (v & g & p & _ & _ & _ & _ & _ & _ & _ & _ & _ & _ & _ & _ & _ & _
        & Hflags & _).
  assert (Hg : flag_set_initial_guess (flags s') = true)
    by (rewrite Hflags; reflexivity).
  unfold state_after.
  destruct (make_step tvp_fun p_fun solver x' s') as [u' s'' | e s''] eqn:E.
  - destruct (make_step_done_inv x' s' s'' u' E)
      as (v' & g' & p' & _ & _ & _ & _ & _ & _ & _ & _ & _ & _ & _ & _ & _ & _
          & _ & Hw & _).
    rewrite Hw, Hg. apply app_nil_r.
  - revert E. unfold make_step, solve. run_method.
    destruct (flag_setup (flags s')); run_method;
      [|intros H; injection H as _ <-; reflexivity].
    destruct x' as [v' | v' |]; run_method;
      try (intros H; injection H as _ <-; reflexivity);
      (destruct (List.length v' =? n_x (model s')); run_method;
       [|intros H; injection H as _ <-; reflexivity]);
      rewrite Hg; cbn [negb]; run_method;
      (destruct (opt_p_num s'); run_method;
       [|intros H; injection H as _ <-; reflexivity]);
      cbn; (destruct (opt_x_num s'); run_method; cbn; intros H;
            [discriminate H | injection H as _ <-; reflexivity]).
Qed.

(** X13. Two steps in a row: the second step hands the solver the input that
    the first step returned as previous input, the state it was given as
    initial state, and the solution of the first step as initial guess;
    the clock has advanced twice by [t_step]. *)
Theorem make_step_chain (x1 x2 : x0_arg) (s s1 s2 : MPC) (u1 u2 : list Q) :
  make_step tvp_fun p_fun solver x1 s = Done u1 s1 ->
  make_step tvp_fun p_fun solver x2 s1 = Done u2 s2 ->
  exists solution1 params2,
    opt_x_num s1 = Some solution1
    /\ opt_p_num s2 = Some params2
    /\ params2 p_u_prev = u1
    /\ Some (params2 p_x0) = x0_value x2
    /\ (forall k, params2 (p_tvp k)
                  = tvp_fun (Qplus (t0 s) (t_step (settings s))) k)
    /\ opt_x_num s2
       = Some (solver solution1 params2 (lb_opt_x s) (ub_opt_x s))
    /\ t0 s2 = Qplus (Qplus (t0 s) (t_step (settings s))) (t_step (settings s)).
Proof.
  intros H1 H2.
  destruct (make_step_done_inv x1 s s1 u1 H1)
    as (v1 & g1 & p1 & _ & _ & _ & _ & _ & _ & _ & _ & _ & Hx1 & _ & Hu1 & _
        & Ht1 & _ & _ & _ & Hset1 & Hlb1 & Hub1 & _).
  destruct (make_step_done_inv x2 s1 s2 u2 H2)
    as (v2 & g2 & p2 & Hv2 & _ & _ & Hg2 & Hp2 & Hpx & Hpu & Htvp & _ & Hx2
        & _ & _ & _ & Ht2 & _).
  rewrite Hx1 in Hg2. injection Hg2 as <-.
  eexists. exists p2. split; [exact Hx1|]. split; [exact Hp2|].
  rewrite Hpu, Hu1, Hpx, Hv2, Hx2, Ht2, Ht1, Hset1, Hlb1, Hub1.
  repeat split. intros k. now rewrite Htvp, Ht1.
Qed.

End ControlStep.

Section InitialGuess.

Variable sd : MPC -> Discretization.
Variable st : MPC -> ScenarioTree.
Variable tvp_fun : Q -> nat -> list Q.
Variable p_fun : Q -> nat -> list Q.
Variable solver :
  opt_x_struct -> opt_p_struct -> bound_struct -> bound_struct -> opt_x_struct.

Lemma set_initial_guess_done (s : MPC) (g : opt_x_struct) :
  flag_setup (flags s) = true ->
  opt_x_num s = Some g ->
  exists s2 guess,
    set_initial_guess s = Done tt s2
    /\ opt_x_num s2 = Some guess
    /\ (forall k sc i, guess (x_at k sc i) = vec_div (x0 s) (x_scaling s))
    /\ (forall k sc, guess (u_at k sc) = vec_div (u0 s) (u_scaling s))
    /\ (forall k sc i, guess (z_at k sc i) = vec_div (z0 s) (z_scaling s))
    /\ (forall k sc, guess (eps_at k sc) = g (eps_at k sc))
    /\ s2 = set_flag_set_initial_guess true (set_opt_x_num (Some guess) s).
Proof.
  intros Hsetup Hx. unfold set_initial_guess. run_method.
  rewrite Hsetup. run_method. rewrite Hx. run_method.
  eexists. eexists. split; [reflexivity|]. cbn. repeat split.
Qed.

(** X14. After [setup], [set_initial_guess] fills every stage, scenario and
    collocation point of the guess with the scaled initial state, input
    and algebraic state; the step that follows starts the solver there
    and logs no warning. *)
Theorem initial_guess_then_step (s s1 : MPC) (x : x0_arg) (v : list Q) :
  setup sd st s = Done tt s1 ->
  x0_value x = Some v ->
  List.length v = n_x (model s) ->
  exists s2 guess params u s3,
    set_initial_guess s1 = Done tt s2
    /\ opt_x_num s2 = Some guess
    /\ (forall k sc i, guess (x_at k sc i) = vec_div (x0 s1) (x_scaling s1))
    /\ (forall k sc, guess (u_at k sc) = vec_div (u0 s1) (u_scaling s1))
    /\ (forall k sc i, guess (z_at k sc i) = vec_div (z0 s1) (z_scaling s1))
    /\ make_step tvp_fun p_fun solver x s2 = Done u s3
    /\ warnings s3 = warnings s1
    /\ opt_x_num s3 = Some (solver guess params (lb_opt_x s1) (ub_opt_x s1)).
Proof.
  intros Hsetup Hv Hlen.
  destruct (setup_done_inv sd st s s1 Hsetup)
    as (sv & Hcv & Hflag & Hx & Hp & Hmodel & _).
  apply check_validity_done in Hcv as (Hframe & _).
  apply frame_inv in Hframe as (Hmodel' & _).
  destruct (set_initial_guess_done s1 _ Hflag Hx)
    as (s2 & guess & Hset & Hg & Hgx & Hgu & Hgz & _ & Hs2).
  exists s2, guess. eexists. eexists. eexists.
  split; [exact Hset|]. split; [exact Hg|].
  split; [exact Hgx|]. split; [exact Hgu|]. split; [exact Hgz|].
  split.
  { subst s2. unfold make_step, solve. run_method. cbn.
    rewrite Hflag. run_method.
    destruct x as [w | w |]; try discriminate Hv; injection Hv as ->;
      run_method; cbn; rewrite Hmodel, Hmodel', <- Hlen, Nat.eqb_refl;
      run_method; cbn; rewrite Hp; cbn; reflexivity. }
  cbn. subst s2. split; reflexivity.
Qed.

End InitialGuess.

(** * Further methods of the configuration *)

(** [self.rterm_factor = v] *)
Definition set_rterm_factor (v : list Q) (s : MPC) : MPC :=
  {| model := model s; flags := flags s; settings := settings s; bounds :=
     bounds s; rterm_factor := v; n_nl_cons := n_nl_cons s; x_scaling :=
     x_scaling s; u_scaling := u_scaling s; z_scaling := z_scaling s;
     mterm := mterm s; lterm := lterm s; has_mterm_fun := has_mterm_fun s;
     has_lterm_fun := has_lterm_fun s; has_tvp_fun := has_tvp_fun s;
     has_p_fun := has_p_fun s; lb_opt_x := lb_opt_x s; ub_opt_x :=
     ub_opt_x s; nlp := nlp s; opt_x_num := opt_x_num s; opt_p_num :=
     opt_p_num s; t0 := t0 s; x0 := x0 s; u0 := u0 s; z0 := z0 s; warnings
     := warnings s |}.

(** [self.flags['set_rterm'] = v] *)
Definition set_flag_set_rterm (v : bool) (s : MPC) : MPC :=
  set_flags {| flag_setup := flag_setup (flags s); flag_set_objective :=
    flag_set_objective (flags s); flag_set_rterm := v; flag_set_tvp_fun :=
    flag_set_tvp_fun (flags s); flag_set_p_fun := flag_set_p_fun (flags
    s); flag_set_initial_guess := flag_set_initial_guess (flags s);
    flag_prepare_nlp := flag_prepare_nlp (flags s) |} s.

(** [setattr(self, key, v)] for the settings that the state carries. *)
Definition set_n_horizon (v : nat) (s : MPC) : MPC :=
  set_settings {| n_horizon := v; n_robust := n_robust (settings s);
    n_combinations := n_combinations (settings s); open_loop := open_loop
    (settings s); use_terminal_bounds := use_terminal_bounds (settings s);
    nl_cons_check_colloc_points := nl_cons_check_colloc_points (settings
    s); nl_cons_single_slack := nl_cons_single_slack (settings s);
    cons_check_colloc_points := cons_check_colloc_points (settings s);
    t_step := t_step (settings s) |} s.

Definition set_n_robust (v : nat) (s : MPC) : MPC :=
  set_settings {| n_horizon := n_horizon (settings s); n_robust := v;
    n_combinations := n_combinations (settings s); open_loop := open_loop
    (settings s); use_terminal_bounds := use_terminal_bounds (settings s);
    nl_cons_check_colloc_points := nl_cons_check_colloc_points (settings
    s); nl_cons_single_slack := nl_cons_single_slack (settings s);
    cons_check_colloc_points := cons_check_colloc_points (settings s);
    t_step := t_step (settings s) |} s.

Definition set_open_loop (v : bool) (s : MPC) : MPC :=
  set_settings {| n_horizon := n_horizon (settings s); n_robust :=
    n_robust (settings s); n_combinations := n_combinations (settings s);
    open_loop := v; use_terminal_bounds := use_terminal_bounds (settings
    s); nl_cons_check_colloc_points := nl_cons_check_colloc_points
    (settings s); nl_cons_single_slack := nl_cons_single_slack (settings
    s); cons_check_colloc_points := cons_check_colloc_points (settings s);
    t_step := t_step (settings s) |} s.

Definition set_use_terminal_bounds (v : bool) (s : MPC) : MPC :=
  set_settings {| n_horizon := n_horizon (settings s); n_robust :=
    n_robust (settings s); n_combinations := n_combinations (settings s);
    open_loop := open_loop (settings s); use_terminal_bounds := v;
    nl_cons_check_colloc_points := nl_cons_check_colloc_points (settings
    s); nl_cons_single_slack := nl_cons_single_slack (settings s);
    cons_check_colloc_points := cons_check_colloc_points (settings s);
    t_step := t_step (settings s) |} s.

Definition set_nl_cons_check_colloc_points (v : bool) (s : MPC) : MPC :=
  set_settings {| n_horizon := n_horizon (settings s); n_robust :=
    n_robust (settings s); n_combinations := n_combinations (settings s);
    open_loop := open_loop (settings s); use_terminal_bounds :=
    use_terminal_bounds (settings s); nl_cons_check_colloc_points := v;
    nl_cons_single_slack := nl_cons_single_slack (settings s);
    cons_check_colloc_points := cons_check_colloc_points (settings s);
    t_step := t_step (settings s) |} s.

Definition set_nl_cons_single_slack (v : bool) (s : MPC) : MPC :=
  set_settings {| n_horizon := n_horizon (settings s); n_robust :=
    n_robust (settings s); n_combinations := n_combinations (settings s);
    open_loop := open_loop (settings s); use_terminal_bounds :=
    use_terminal_bounds (settings s); nl_cons_check_colloc_points :=
    nl_cons_check_colloc_points (settings s); nl_cons_single_slack := v;
    cons_check_colloc_points := cons_check_colloc_points (settings s);
    t_step := t_step (settings s) |} s.

Definition set_cons_check_colloc_points (v : bool) (s : MPC) : MPC :=
  set_settings {| n_horizon := n_horizon (settings s); n_robust :=
    n_robust (settings s); n_combinations := n_combinations (settings s);
    open_loop := open_loop (settings s); use_terminal_bounds :=
    use_terminal_bounds (settings s); nl_cons_check_colloc_points :=
    nl_cons_check_colloc_points (settings s); nl_cons_single_slack :=
    nl_cons_single_slack (settings s); cons_check_colloc_points := v;
    t_step := t_step (settings s) |} s.

Definition set_t_step (v : Q) (s : MPC) : MPC :=
  set_settings {| n_horizon := n_horizon (settings s); n_robust :=
    n_robust (settings s); n_combinations := n_combinations (settings s);
    open_loop := open_loop (settings s); use_terminal_bounds :=
    use_terminal_bounds (settings s); nl_cons_check_colloc_points :=
    nl_cons_check_colloc_points (settings s); nl_cons_single_slack :=
    nl_cons_single_slack (settings s); cons_check_colloc_points :=
    cons_check_colloc_points (settings s); t_step := v |} s.

(** ** [MPC.set_param] *)

(** A keyword argument of [set_param]: a setting that the state carries,
    with a value of its type, or any other keyword, whose attribute the
    state does not carry. *)
Inductive param : Type :=
| param_n_horizon (v : nat)
| param_n_robust (v : nat)
| param_open_loop (v : bool)
| param_t_step (v : Q)
| param_use_terminal_bounds (v : bool)
| param_nl_cons_check_colloc_points (v : bool)
| param_nl_cons_single_slack (v : bool)
| param_cons_check_colloc_points (v : bool)
| param_other (key : string).

Definition param_key (p : param) : string :=
  match p with
  | param_n_horizon _ => "n_horizon"%string
  | param_n_robust _ => "n_robust"%string
  | param_open_loop _ => "open_loop"%string
  | param_t_step _ => "t_step"%string
  | param_use_terminal_bounds _ => "use_terminal_bounds"%string
  | param_nl_cons_check_colloc_points _ => "nl_cons_check_colloc_points"%string
  | param_nl_cons_single_slack _ => "nl_cons_single_slack"%string
  | param_cons_check_colloc_points _ => "cons_check_colloc_points"%string
  | param_other key => key
  end.

(** [self.data_fields] *)
Definition data_fields : list string :=
  (["n_horizon"; "n_robust"; "open_loop"; "t_step"; "use_terminal_bounds";
    "state_discretization"; "collocation_type"; "collocation_deg";
    "collocation_ni"; "nl_cons_check_colloc_points"; "nl_cons_single_slack";
    "cons_check_colloc_points"; "store_full_solution";
    "store_lagr_multiplier"; "store_solver_stats"; "nlpsol_opts"])%string.

(** [key in names] *)
Definition py_in (key : string) (names : list string) : bool :=
  existsb (String.eqb key) names.

(** [setattr(self, key, value)] *)
Definition setattr_param (p : param) (s : MPC) : MPC :=
  match p with
  | param_n_horizon v => set_n_horizon v s
  | param_n_robust v => set_n_robust v s
  | param_open_loop v => set_open_loop v s
  | param_t_step v => set_t_step v s
  | param_use_terminal_bounds v => set_use_terminal_bounds v s
  | param_nl_cons_check_colloc_points v => set_nl_cons_check_colloc_points v s
  | param_nl_cons_single_slack v => set_nl_cons_single_slack v s
  | param_cons_check_colloc_points v => set_cons_check_colloc_points v s
  | param_other _ => s
  end.

(** The loop over the keyword arguments; the result is the list of the
    keys for which a warning is printed. *)
Fixpoint set_param_loop (kwargs : list param) (printed : list string)
    : method (list string) :=
  match kwargs with
  | [] => ret printed
  | p :: rest =>
      if negb (py_in (param_key p) data_fields)
      then set_param_loop rest (printed ++ [param_key p])
      else modify (setattr_param p) ;;; set_param_loop rest printed
  end.

Definition set_param (kwargs : list param) : method (list string) :=
  s <- get ;;
  py_assert (negb (flag_setup (flags s)))
    "Setting parameters after setup is prohibited." ;;;
  set_param_loop kwargs [].

(** ** [MPC.set_rterm] *)

(** The value of a keyword of [set_rterm]: an [int] or a [float], an
    array, or a value of another type. *)
Inductive rterm_value : Type :=
| RtermNumber (q : Q)
| RtermArray (v : list Q)
| RtermInvalid.

(** [isinstance(val, (int, float, np.ndarray))] *)
Definition rterm_value_ok (v : rterm_value) : bool :=
  match v with RtermInvalid => false | _ => true end.

Section SetRterm.

(** [self.model._u.keys()], and the assignment [struct[key] = val] of
    CasADi's structures on the flat vector of the penalty factors: it
    raises, as for an array of the wrong shape, or gives the new
    vector. *)
Variable u_keys : list string.
Variable rterm_assign : string -> rterm_value -> list Q -> exn + list Q.

Fixpoint set_rterm_loop (kwargs : list (string * rterm_value)) : method unit :=
  match kwargs with
  | [] => ret tt
  | (key, val) :: rest =>
      py_assert (py_in key u_keys)
        "Must pass keywords that refer to input names defined in model." ;;;
      py_assert (rterm_value_ok val)
        "Value must be int, float or numpy.ndarray." ;;;
      s <- get ;;
      match rterm_assign key val (rterm_factor s) with
      | inl e => raise e
      | inr r => modify (set_rterm_factor r)
      end ;;;
      set_rterm_loop rest
  end.

Definition set_rterm (kwargs : list (string * rterm_value)) : method unit :=
  s <- get ;;
  py_assert (negb (flag_setup (flags s)))
    "Cannot call .set_rterm after .setup()." ;;;
  modify (set_flag_set_rterm true) ;;;
  set_rterm_loop kwargs.

End SetRterm.

(** * Properties of [set_param] and [set_rterm] *)

(** A stored keyword: the setting has the value that was passed. *)
Definition param_stored (p : param) (s : MPC) : Prop :=
  match p with
  | param_n_horizon v => n_horizon (settings s) = v
  | param_n_robust v => n_robust (settings s) = v
  | param_open_loop v => open_loop (settings s) = v
  | param_t_step v => t_step (settings s) = v
  | param_use_terminal_bounds v => use_terminal_bounds (settings s) = v
  | param_nl_cons_check_colloc_points v =>
      nl_cons_check_colloc_points (settings s) = v
  | param_nl_cons_single_slack v => nl_cons_single_slack (settings s) = v
  | param_cons_check_colloc_points v =>
      cons_check_colloc_points (settings s) = v
  | param_other _ => True
  end.

(** The keys that [set_param] does not know. *)
Definition unknown_keys (kwargs : list param) : list string :=
  filter (fun key => negb (py_in key data_fields)) (map param_key kwargs).

Lemma set_settings_eta (s : MPC) : set_settings (settings s) s = s.
Proof. destruct s; reflexivity. Qed.

Lemma setattr_param_settings (p : param) (v : Settings) (s : MPC) :
  set_settings v (setattr_param p s) = set_settings v s.
Proof. destruct p; reflexivity. Qed.

Lemma setattr_param_frame (p : param) (s : MPC) :
  flags (setattr_param p s) = flags s
  /\ n_combinations (settings (setattr_param p s))
     = n_combinations (settings s).
Proof. destruct p; split; reflexivity. Qed.

Lemma setattr_param_stores (p : param) (s : MPC) :
  param_stored p (setattr_param p s).
Proof. destruct p; cbn; trivial. Qed.

Lemma setattr_param_keeps (p q : param) (s : MPC) :
  param_key p <> param_key q ->
  param_stored p s -> param_stored p (setattr_param q s).
Proof.
  destruct p, q; cbn; intros Hk H; trivial; exfalso; apply Hk; reflexivity.
Qed.

Lemma typed_param_known (p : param) :
  py_in (param_key p) data_fields = false -> exists key, p = param_other key.
Proof. destruct p; cbn; try discriminate; eauto. Qed.

Lemma set_param_loop_run (kwargs : list param) :
  forall (printed : list string) (s : MPC),
    exists s',
      set_param_loop kwargs printed s
      = Done (printed ++ unknown_keys kwargs) s'
      /\ set_settings (settings s') s = s'
      /\ flags s' = flags s
      /\ n_combinations (settings s') = n_combinations (settings s)
      /\ (NoDup (map param_key kwargs) ->
          (forall p, In p kwargs -> param_stored p s')
          /\ (forall p, ~ In (param_key p) (map param_key kwargs) ->
                        param_stored p s -> param_stored p s')).
Proof.
  unfold unknown_keys.
  induction kwargs as [|q rest IH]; intros printed s; cbn [set_param_loop].
  - exists s. cbn. rewrite app_nil_r.
    repeat split; try apply set_settings_eta; try tauto.
  - cbn [map filter].
    destruct (py_in (param_key q) data_fields) eqn:Hq; cbn [negb].
    + run_method.
      destruct (IH printed (setattr_param q s))
        as (s' & Hrun & Heta & Hfl & Hn & Hst).
      exists s'. split; [exact Hrun|].
      destruct (setattr_param_frame q s) as (Hfl' & Hn').
      split; [now rewrite <- (setattr_param_settings q)|].
      split; [congruence|]. split; [congruence|].
      intros Hnd. inversion Hnd as [|? ? Hnotin Hnd']; subst.
      destruct (Hst Hnd') as (Hin & Hkeep). split.
      * intros p [<- | Hp]; [|now apply Hin].
        apply Hkeep; [exact Hnotin | apply setattr_param_stores].
      * intros p Hp H. apply Hkeep; [intros X; apply Hp; right; exact X|].
        apply setattr_param_keeps; [|exact H].
        intros E. apply Hp. left. now symmetry.
    + destruct (IH (printed ++ [param_key q]) s)
        as (s' & Hrun & Heta & Hfl & Hn & Hst).
      exists s'. rewrite <- app_assoc in Hrun. split; [exact Hrun|].
      split; [exact Heta|]. split; [exact Hfl|]. split; [exact Hn|].
      intros Hnd. inversion Hnd as [|? ? Hnotin Hnd']; subst.
      destruct (Hst Hnd') as (Hin & Hkeep). split.
      * intros p [<- | Hp]; [|now apply Hin].
        destruct (typed_param_known _ Hq) as (key & ->). exact I.
      * intros p Hp H.
        apply Hkeep; [intros X; apply Hp; right; exact X | exact H].
Qed.

(** X16. Before [setup], [set_param] never raises. It stores every keyword of
    [data_fields] (the keywords of one call are the keys of a dictionary,
    so no key occurs twice), prints a warning for each other keyword and
    goes on, and changes nothing but the settings; [n_combinations] is
    not among the settings it can change. *)
Theorem set_param_before_setup (kwargs : list param) (s : MPC) :
  flag_setup (flags s) = false ->
  NoDup (map param_key kwargs) ->
  exists s',
    set_param kwargs s = Done (unknown_keys kwargs) s'
    /\ (forall p, In p kwargs -> param_stored p s')
    /\ set_settings (settings s') s = s'
    /\ n_combinations (settings s') = n_combinations (settings s).
Proof.
  intros Hsetup Hnd. unfold set_param. run_method. rewrite Hsetup.
  cbn [negb]. run_method.
  destruct (set_param_loop_run kwargs [] s)
    as (s' & Hrun & Heta & _ & Hn & Hst).
  exists s'. split; [exact Hrun|]. split; [apply (Hst Hnd)|]. now split.
Qed.

(** X17. Two calls of [set_param] in a row do what one call with the keywords
    of both does (the keywords of one call have distinct keys): the same
    settings, and the same warnings in the same order. *)
Theorem set_param_calls_compose (a b : list param) (s : MPC) :
  flag_setup (flags s) = false ->
  NoDup (map param_key (a ++ b)) ->
  exists pa s1 pb s2,
    set_param a s = Done pa s1
    /\ set_param b s1 = Done pb s2
    /\ set_param (a ++ b) s = Done (pa ++ pb) s2.
Proof.
  intros Hsetup _.
  assert (Hloop : forall a printed s,
             set_param_loop (a ++ b) printed s
             = match set_param_loop a printed s with
               | Done pr s1 => set_param_loop b pr s1
               | Raised e s1 => Raised e s1
               end).
  { clear. induction a as [|q a IH]; intros printed s;
      cbn [app set_param_loop].
    - reflexivity.
    - destruct (py_in (param_key q) data_fields); cbn [negb]; run_method;
        apply IH. }
  destruct (set_param_loop_run a [] s) as (s1 & Ha & _ & Hfl & _).
  destruct (set_param_loop_run b [] s1) as (s2 & Hb & _).
  destruct (set_param_loop_run b (unknown_keys a) s1) as (s2' & Hb' & _).
  assert (Hacc : forall b pr s, exists s',
             set_param_loop b pr s = Done (pr ++ unknown_keys b) s'
             /\ set_param_loop b [] s = Done (unknown_keys b) s').
  { clear. unfold unknown_keys.
    induction b as [|q b IH]; intros pr s; cbn [set_param_loop map filter].
    - exists s. now rewrite app_nil_r.
    - destruct (py_in (param_key q) data_fields); cbn [negb]; run_method.
      + apply IH.
      + destruct (IH (pr ++ [param_key q]) s) as (s' & H1 & H2).
        destruct (IH [param_key q] s) as (s'' & H3 & H4).
        rewrite H4 in H2. injection H2 as <-.
        exists s''. rewrite <- app_assoc in H1. now split. }
  destruct (Hacc b (unknown_keys a) s1) as (s3 & H3 & H3').
  exists (unknown_keys a), s1, (unknown_keys b), s3.
  unfold set_param. run_method. rewrite Hsetup. cbn [negb]. run_method.
  rewrite Hfl, Hsetup. cbn [negb]. run_method.
  split; [exact Ha|]. split; [exact H3'|].
  rewrite Hloop, Ha. exact H3.
Qed.

Section SetRtermProperties.

Variable u_keys : list string.
Variable rterm_assign : string -> rterm_value -> list Q -> exn + list Q.

(** A keyword that passes both assertions of the loop. *)
Definition rterm_keyword_ok (kv : string * rterm_value) : bool :=
  py_in (fst kv) u_keys && rterm_value_ok (snd kv).

(** The penalty factors after the assignments of a list of keywords,
    or the exception of the first assignment that raises. *)
Fixpoint rterm_after (kwargs : list (string * rterm_value)) (r : list Q)
    : exn + list Q :=
  match kwargs with
  | [] => inr r
  | kv :: rest =>
      match rterm_assign (fst kv) (snd kv) r with
      | inl e => inl e
      | inr r' => rterm_after rest r'
      end
  end.

Lemma set_rterm_factor_eta (s : MPC) : set_rterm_factor (rterm_factor s) s = s.
Proof. destruct s; reflexivity. Qed.

Lemma set_rterm_loop_stops (pre post : list (string * rterm_value))
    (kv : string * rterm_value) :
  forall (s : MPC) (r : list Q),
    forallb rterm_keyword_ok pre = true ->
    rterm_after pre (rterm_factor s) = inr r ->
    set_rterm_loop u_keys rterm_assign (pre ++ kv :: post) s
    = set_rterm_loop u_keys rterm_assign (kv :: post) (set_rterm_factor r s).
Proof.
  induction pre as [|[key val] rest IH]; intros s r H Hr.
  - cbn in Hr. injection Hr as <-. now rewrite set_rterm_factor_eta.
  - cbn [forallb] in H. apply andb_prop in H as (Hkv & Hrest).
    unfold rterm_keyword_ok in Hkv. cbn [fst snd] in Hkv.
    apply andb_prop in Hkv as (Hk & Hv).
    cbn [rterm_after fst snd] in Hr.
    destruct (rterm_assign key val (rterm_factor s)) as [e | r1] eqn:E;
      [discriminate Hr|].
    cbn [app set_rterm_loop]. run_method. rewrite Hk, Hv. run_method.
    rewrite E. run_method.
    rewrite (IH (set_rterm_factor r1 s) r Hrest Hr). reflexivity.
Qed.

(** X18. [set_rterm] is not atomic. A call that fails on a keyword (a
    name that is no input of the model, a value that is no number and no
    array, or an assignment that raises) raises after it has set the
    flag [set_rterm] and stored the factors of the keywords before the
    failing one, whose assertions and assignments went through; the
    keywords after it are not looked at. *)
Theorem set_rterm_fails_half_done
    (pre post : list (string * rterm_value)) (kv : string * rterm_value)
    (s : MPC) (r : list Q) :
  flag_setup (flags s) = false ->
  forallb rterm_keyword_ok pre = true ->
  rterm_after pre (rterm_factor s) = inr r ->
  rterm_keyword_ok kv = false
  \/ (exists e, rterm_assign (fst kv) (snd kv) r = inl e) ->
  exists e s',
    set_rterm u_keys rterm_assign (pre ++ kv :: post) s = Raised e s'
    /\ flag_set_rterm (flags s') = true
    /\ rterm_factor s' = r
    /\ (rterm_keyword_ok kv = false -> exists msg, e = AssertionError msg)
    /\ (rterm_keyword_ok kv = true ->
        rterm_assign (fst kv) (snd kv) r = inl e).
Proof.
  intros Hsetup Hpre Hr Hfail. unfold set_rterm. run_method.
  rewrite Hsetup. cbn [negb]. run_method.
  rewrite (set_rterm_loop_stops pre post kv (set_flag_set_rterm true s) r
             Hpre Hr).
  destruct kv as [key val]. cbn [fst snd] in *.
  unfold rterm_keyword_ok in *. cbn [fst snd] in *.
  cbn [set_rterm_loop]. run_method.
  destruct (py_in key u_keys); run_method; cbn [andb] in *.
  - destruct (rterm_value_ok val); run_method.
    + destruct Hfail as [Hbad | (e & He)]; [discriminate Hbad|].
      cbn [rterm_factor set_rterm_factor]. rewrite He. run_method.
      eexists. eexists. split; [reflexivity|]. split; [reflexivity|].
      split; [reflexivity|]. split; [discriminate | reflexivity].
    + eexists. eexists. split; [reflexivity|]. split; [reflexivity|].
      split; [reflexivity|]. split; [eauto | discriminate].
  - eexists. eexists. split; [reflexivity|]. split; [reflexivity|].
    split; [reflexivity|]. split; [eauto | discriminate].
Qed.

(** X19. Whatever its keywords are, and also without any, a call of
    [set_rterm] before [setup] leaves the flag [set_rterm] set, so that
    [_check_validity] does not log that the rate penalty is missing,
    even when all factors are still zero. *)
Theorem set_rterm_silences_warning
    (kwargs : list (string * rterm_value)) (s : MPC) :
  flag_setup (flags s) = false ->
  let s' := state_after (set_rterm u_keys rterm_assign kwargs) s in
  flag_set_rterm (flags s') = true
  /\ ~ In WarnRtermNotSet (validity_warnings s')
  /\ (kwargs = [] -> rterm_factor s' = rterm_factor s).
Proof.
  intros Hsetup s'.
  assert (Hloop : forall kwargs s0,
             flag_set_rterm
               (flags (state_after
                         (set_rterm_loop u_keys rterm_assign kwargs) s0))
             = flag_set_rterm (flags s0)).
  { clear. unfold state_after.
    induction kwargs as [|[key val] rest IH]; intros s0; cbn.
    - reflexivity.
    - run_method. destruct (py_in key u_keys); run_method; [|reflexivity].
      destruct (rterm_value_ok val); run_method; [|reflexivity].
      destruct (rterm_assign key val (rterm_factor s0)); run_method;
        [reflexivity|].
      apply (IH (set_rterm_factor _ s0)). }
  assert (Hflag : flag_set_rterm (flags s') = true).
  { subst s'. unfold state_after, set_rterm. run_method.
    rewrite Hsetup. cbn [negb]. run_method.
    apply (Hloop kwargs (set_flag_set_rterm true s)). }
  split; [exact Hflag|]. split.
  - unfold validity_warnings. rewrite Hflag. cbn.
    destruct (np_any _); cbn; [|tauto]. intros [H | []]. discriminate H.
  - intros ->. subst s'. unfold state_after, set_rterm. run_method.
    rewrite Hsetup. reflexivity.
Qed.

End SetRtermProperties.

Section LockedAfterSetup.

Variable sd : MPC -> Discretization.
Variable st : MPC -> ScenarioTree.

(** X20. After a finished [setup] the configuration is locked: [set_param],
    [set_rterm] and [set_objective] raise, whatever their arguments, and
    change nothing. *)
Theorem configuration_locked_after_setup (s s1 : MPC) :
  setup sd st s = Done tt s1 ->
  (forall kwargs, exists msg,
      set_param kwargs s1 = Raised (AssertionError msg) s1)
  /\ (forall u_keys rterm_assign kwargs, exists msg,
        set_rterm u_keys rterm_assign kwargs s1
        = Raised (AssertionError msg) s1)
  /\ (forall mterm_arg lterm_arg, exists e,
        set_objective mterm_arg lterm_arg s1 = Raised e s1).
Proof.
  intros Hsetup.
  destruct (setup_done_inv sd st s s1 Hsetup) as (sv & _ & Hflag & _).
  split; [|split].
  - intros kwargs. unfold set_param. run_method. rewrite Hflag.
    cbn [negb]. run_method. eauto.
  - intros u_keys rterm_assign kwargs. unfold set_rterm. run_method.
    rewrite Hflag. cbn [negb]. run_method. eauto.
  - intros m l. unfold set_objective, py_shape.
    destruct m; run_method; eauto;
      (destruct (shape_eqb _ _); run_method; eauto);
      destruct l; run_method; eauto;
      (destruct (shape_eqb _ _); run_method; eauto);
      rewrite Hflag; cbn [negb]; run_method; eauto.
Qed.

End LockedAfterSetup.

(** ** [MPC.terminal_bounds] *)

(** An element of a power index: a name or a position. *)
Inductive index_item : Type :=
| Name (name : string)
| Position (i : Z).

(** The index of the indexed property: a tuple, or another object. *)
Inductive index : Type :=
| IndexTuple (items : list index_item)
| IndexOther.

(** [item in names] for a tuple of strings *)
Definition item_in (item : index_item) (names : list string) : bool :=
  match item with
  | Name name => py_in name names
  | Position _ => false
  end.

(** [item == name] *)
Definition item_is (item : index_item) (name : string) : bool :=
  match item with
  | Name n => String.eqb n name
  | Position _ => false
  end.

Definition bound_types : list string := (["lower"; "upper"])%string.
Definition var_types : list string := (["_x"; "_u"; "_z"; "_p_est"])%string.

(** [self.<query> = <struct>] on the state. *)
Definition put (s' : MPC) : method unit := modify (fun _ => s').

Section TerminalBounds.

(** The type of the values of a bound; [var_struct.keys()], the names of
    the states; and [var_struct[var_name] = val], the item assignment of
    CasADi's structures on the object [self._x_terminal_ub] ([true]) or
    [self._x_terminal_lb] ([false]), which raises or changes the
    controller. *)
Variable value : Type.
Variable x_keys : list string.
Variable struct_setitem :
  bool -> list index_item -> value -> MPC -> exn + MPC.

(** The getter. Both branches of [if bound_type == ...] format the query
    with the name [var_type], which the getter does not bind. *)
Definition terminal_bounds_get (ind : index) : method value :=
  match ind with
  | IndexOther =>
      raise (AssertionError
               "Power index must include bound_type, var_name (as a tuple).")
  | IndexTuple (bound_type :: _ :: _) =>
      py_assert (item_in bound_type bound_types)
        "Invalid power index for bound_type. Must be from (lower, upper)." ;;;
      raise (NameError "var_type")
  | IndexTuple _ =>
      raise (AssertionError
               "Power index must include bound_type, var_type, var_name (as a tuple).")
  end.

(** The setter. The message of its last assertion is built from the
    name [msg], which the setter does not bind. *)
Definition terminal_bounds_set (ind : index) (val : value) : method unit :=
  match ind with
  | IndexOther =>
      raise (AssertionError
               "Power index must include bound_type, var_type, var_name (as a tuple).")
  | IndexTuple (bound_type :: var_type :: var_name_0 :: var_name_rest) =>
      py_assert (item_in bound_type bound_types)
        "Invalid power index for bound_type. Must be from (lower, upper)." ;;;
      py_assert (item_in var_type var_types)
        "Invalid power index for var_type. Must be from (_x, _u, _z, _p_est)." ;;;
      (if item_in var_name_0 x_keys then ret tt
       else raise (NameError "msg")) ;;;
      s <- get ;;
      match struct_setitem (item_is bound_type "upper")
              (var_name_0 :: var_name_rest) val s with
      | inl e => raise e
      | inr s' => put s'
      end
  | IndexTuple _ =>
      raise (AssertionError
               "Power index must include bound_type, var_type, var_name (as a tuple).")
  end.

End TerminalBounds.

(** ** [MPC.set_uncertainty_values] *)

(** [itertools.product] of the pools: the last pool advances fastest. *)
Fixpoint product {A : Type} (pools : list (list A)) : list (list A) :=
  match pools with
  | [] => [[]]
  | pool :: rest =>
      flat_map (fun x => map (fun r => x :: r) (product rest)) pool
  end.

Section UncertaintyValues.

(** [self.model.p.keys()], and the outcome of the assignment
    [p_template['_p', :, names] = p_scenario] of CasADi's structures:
    the exception that it raises, if any. *)
Variable p_keys : list string.
Variable template_setitem : list string -> list (list Q) -> option exn.

(** The keyword arguments are the names of parameters with the list of
    the values of each. Without keyword arguments the method reads the
    name [uncertainty_values], which it does not bind. *)
Definition set_uncertainty_values (kwargs : list (string * list Q))
    : method unit :=
  match kwargs with
  | [] => raise (NameError "uncertainty_values")
  | _ :: _ =>
      let names := map fst kwargs in
      py_assert (forallb (fun name => py_in name p_keys) names)
        "You passed keywords that are no user-defined parameter names." ;;;
      let values := map snd kwargs in
      let p_scenario := product values in
      let n_combinations := List.length p_scenario in
      get_p_template n_combinations ;;;
      match template_setitem names p_scenario with
      | Some e => raise e
      | None => set_p_fun
      end
  end.

End UncertaintyValues.

(** * Properties of [terminal_bounds] and [set_uncertainty_values] *)

(** The number of elements of an index, none for an index that is no
    tuple. *)
Definition index_length (ind : index) : nat :=
  match ind with
  | IndexTuple items => List.length items
  | IndexOther => 0
  end.

Section TerminalBoundsProperties.

Variable value : Type.
Variable x_keys : list string.
Variable struct_setitem :
  bool -> list index_item -> value -> MPC -> exn + MPC.

(** X21. A query of [terminal_bounds] never returns a value: whatever the
    index, the getter raises and changes nothing. For an index that
    passes its assertions, as the index [('lower', 'phi_1')] of its
    documentation, it raises the NameError of [var_type]. *)
Theorem terminal_bounds_query_never_returns (ind : index) (s : MPC) :
  exists e,
    terminal_bounds_get value ind s = Raised e s
    /\ (forall bound_type var_name_0 var_name_rest,
          ind = IndexTuple (bound_type :: var_name_0 :: var_name_rest) ->
          item_in bound_type bound_types = true ->
          e = NameError "var_type").
Proof.
  unfold terminal_bounds_get.
  destruct ind as [[|bt [|n0 rest]]|]; run_method;
    try (eexists; split; [reflexivity|]; intros ? ? ? H; discriminate H).
  destruct (item_in bt bound_types) eqn:Hbt; run_method;
    eexists; (split; [reflexivity|]); intros ? ? ? H Hin.
  - reflexivity.
  - injection H as <- _ _. rewrite Hbt in Hin. discriminate Hin.
Qed.

(** X22. The setter of [terminal_bounds] needs an index of at least three
    elements, bound type, variable type and name: the two-element index
    of the documentation, [('lower', 'phi_1')], fails its assertion. A
    name that is no state of the model does not fail the assertion that
    checks it, but raises the NameError of [msg]. In both cases nothing
    is changed. *)
Theorem terminal_bounds_set_rejects (ind : index) (val : value) (s : MPC) :
  index_length ind < 3
  \/ (exists bound_type var_type var_name_0 var_name_rest,
        ind = IndexTuple
                (bound_type :: var_type :: var_name_0 :: var_name_rest)
        /\ item_in bound_type bound_types = true
        /\ item_in var_type var_types = true
        /\ item_in var_name_0 x_keys = false) ->
  exists e,
    terminal_bounds_set value x_keys struct_setitem ind val s = Raised e s
    /\ (index_length ind < 3 -> exists msg, e = AssertionError msg)
    /\ (3 <= index_length ind -> e = NameError "msg").
Proof.
  unfold terminal_bounds_set.
  intros [Hlen | (bt & vt & n0 & rest & -> & Hbt & Hvt & Hname)].
  - destruct ind as [[|bt [|vt [|n0 rest]]]|]; cbn in Hlen; try lia;
      run_method; eexists; (split; [reflexivity|]);
      (split; [eauto | cbn; lia]).
  - run_method. rewrite Hbt. run_method. rewrite Hvt. run_method.
    rewrite Hname. run_method. eexists. split; [reflexivity|].
    split; [cbn; lia | reflexivity].
Qed.

(** X23. The variable type of the index is checked and then not used: with
    ['_u'], ['_z'] or ['_p_est'] the setter does what it does with
    ['_x'], it looks the name up among the states and assigns to the
    terminal bounds of the states. *)
Theorem terminal_bounds_set_ignores_var_type
    (bound_type var_type : index_item) (var_name : list index_item)
    (val : value) (s : MPC) :
  item_in var_type var_types = true ->
  terminal_bounds_set value x_keys struct_setitem
    (IndexTuple (bound_type :: var_type :: var_name)) val s
  = terminal_bounds_set value x_keys struct_setitem
      (IndexTuple (bound_type :: Name "_x" :: var_name)) val s.
Proof.
  intros Hvt. unfold terminal_bounds_set.
  destruct var_name as [|n0 rest]; [reflexivity|].
  run_method. destruct (item_in bound_type bound_types); run_method;
    [|reflexivity].
  rewrite Hvt. reflexivity.
Qed.

Section Solver.

Variable tvp_fun : Q -> nat -> list Q.
Variable p_fun : Q -> nat -> list Q.
Variable solver :
  opt_x_struct -> opt_p_struct -> bound_struct -> bound_struct -> opt_x_struct.

(** The assignment to an item of a structure of bounds changes the
    bounds of the controller and nothing else. *)
Hypothesis struct_setitem_bounds :
  forall upper var_name val s s',
    struct_setitem upper var_name val s = inr s' ->
    set_bounds (bounds s') s = s'.

Lemma make_step_ignores_bounds (b : Bounds) (x : x0_arg) (s : MPC) :
  make_step tvp_fun p_fun solver x (set_bounds b s)
  = match make_step tvp_fun p_fun solver x s with
    | Done u s' => Done u (set_bounds b s')
    | Raised e s' => Raised e (set_bounds b s')
    end.
Proof.
  unfold make_step, solve. run_method. cbn.
  destruct (flag_setup (flags s)); run_method; [|reflexivity].
  destruct x as [v | v |]; run_method; try reflexivity;
    (destruct (List.length v =? n_x (model s)); run_method;
     [|reflexivity]);
    (destruct (flag_set_initial_guess (flags s)); cbn [negb];
     run_method; cbn;
     (destruct (opt_p_num s); run_method; [|reflexivity]);
     cbn; (destruct (opt_x_num s); run_method; reflexivity)).
Qed.

(** X24. The bounds of the optimization problem are written by
    [_prepare_nlp] only: a terminal bound that is set afterwards does
    not reach the solver. The step that follows the assignment returns
    the input, and stores the solution, of the step without it. *)
Theorem terminal_bounds_set_does_not_reach_solver
    (ind : index) (val : value) (x : x0_arg) (s s1 : MPC) :
  terminal_bounds_set value x_keys struct_setitem ind val s = Done tt s1 ->
  lb_opt_x s1 = lb_opt_x s /\ ub_opt_x s1 = ub_opt_x s
  /\ make_step tvp_fun p_fun solver x s1
     = match make_step tvp_fun p_fun solver x s with
       | Done u s' => Done u (set_bounds (bounds s1) s')
       | Raised e s' => Raised e (set_bounds (bounds s1) s')
       end.
Proof.
  intros Hset.
  assert (Hs1 : set_bounds (bounds s1) s = s1).
  { revert Hset. unfold terminal_bounds_set, put.
    destruct ind as [[|bt [|vt [|n0 rest]]]|]; run_method;
      try discriminate.
    destruct (item_in bt bound_types); run_method; [|discriminate].
    destruct (item_in vt var_types); run_method; [|discriminate].
    destruct (item_in n0 x_keys); run_method; [|discriminate].
    destruct (struct_setitem _ _ _ s) as [e | s'] eqn:E; run_method;
      [discriminate|].
    intros H. injection H as <-. eapply struct_setitem_bounds, E. }
  rewrite <- Hs1 at 1 2 3. cbn [lb_opt_x ub_opt_x set_bounds].
  split; [reflexivity|]. split; [reflexivity|].
  apply make_step_ignores_bounds.
Qed.

End Solver.

End TerminalBoundsProperties.

Lemma length_product {A : Type} (pools : list (list A)) :
  List.length (product pools)
  = fold_right Nat.mul 1 (map (@List.length A) pools).
Proof.
  induction pools as [|pool rest IH]; cbn [product map fold_right];
    [reflexivity|].
  rewrite <- IH. induction pool as [|x pool IHp]; cbn; [reflexivity|].
  now rewrite length_app, length_map, IHp.
Qed.

Lemma check_validity_keeps_combinations (s s1 : MPC) :
  has_p_fun s = true ->
  _check_validity s = Done tt s1 ->
  n_combinations (settings s1) = n_combinations (settings s).
Proof.
  intros Hp. unfold _check_validity. run_method. rewrite Hp. cbn [negb].
  split_ifs; intros H; try discriminate H; injection H as <-; reflexivity.
Qed.

Section UncertaintyValuesProperties.

Variable p_keys : list string.
Variable template_setitem : list string -> list (list Q) -> option exn.

(** X25. [set_uncertainty_values] without keyword arguments raises the
    NameError of [uncertainty_values]; with a keyword that is no
    parameter of the model it raises an AssertionError. In both cases
    nothing is changed: the number of combinations and the parameter
    function are as before. *)
Theorem uncertainty_values_rejected (kwargs : list (string * list Q))
    (s : MPC) :
  kwargs = []
  \/ (exists name, In name (map fst kwargs) /\ py_in name p_keys = false) ->
  exists e,
    set_uncertainty_values p_keys template_setitem kwargs s = Raised e s
    /\ (kwargs = [] -> e = NameError "uncertainty_values")
    /\ (kwargs <> [] -> exists msg, e = AssertionError msg).
Proof.
  unfold set_uncertainty_values. intros [-> | (name & Hin & Hname)].
  - eexists. split; [reflexivity|]. split; [reflexivity | congruence].
  - destruct kwargs as [|kv rest]; [destruct Hin|].
    assert (Hall : forallb (fun name => py_in name p_keys)
                     (map fst (kv :: rest)) = false).
    { apply not_true_is_false. intros Hall.
      rewrite forallb_forall in Hall. apply Hall in Hin. congruence. }
    rewrite Hall. run_method. eexists. split; [reflexivity|].
    split; [discriminate | eauto].
Qed.

(** X26. With keywords that are parameters of the model, one list of values
    each, [set_uncertainty_values] makes the number of combinations the
    product of the lengths of the lists and registers the parameter
    function, unless the assignment to the template raises. The validity
    check of [setup] then keeps that number, and the scenario structure
    has [n_combinations ** n_robust] columns. *)
Theorem uncertainty_values_fix_combinations
    (kwargs : list (string * list Q)) (s : MPC) :
  kwargs <> [] ->
  forallb (fun name => py_in name p_keys) (map fst kwargs) = true ->
  template_setitem (map fst kwargs) (product (map snd kwargs)) = None ->
  let n := fold_right Nat.mul 1
             (map (fun kv => List.length (snd kv)) kwargs) in
  exists s1,
    set_uncertainty_values p_keys template_setitem kwargs s = Done tt s1
    /\ n_combinations (settings s1) = n
    /\ flag_set_p_fun (flags s1) = true
    /\ has_p_fun s1 = true
    /\ (forall s2, _check_validity s1 = Done tt s2 ->
                   n_combinations (settings s2) = n
                   /\ n_max_scenarios s2 = n ^ n_robust (settings s)).
Proof.
  intros Hne Hnames Hassign n.
  assert (Hn : List.length (product (map snd kwargs)) = n).
  { subst n. rewrite length_product, map_map. reflexivity. }
  unfold set_uncertainty_values.
  destruct kwargs as [|kv rest]; [congruence|].
  rewrite Hnames, Hassign. run_method. rewrite Hn.
  eexists. split; [reflexivity|].
  split; [reflexivity|]. split; [reflexivity|]. split; [reflexivity|].
  intros s2 Hcv.
  pose proof (fun H => check_validity_keeps_combinations _ _ H Hcv) as Hc.
  specialize (Hc eq_refl).
  apply check_validity_done in Hcv as (Hframe & _).
  apply frame_inv in Hframe as (_ & (_ & Hrob & _) & _).
  cbn in Hc, Hrob. split; [exact Hc|].
  unfold n_max_scenarios. now rewrite Hc, Hrob.
Qed.

End UncertaintyValuesProperties.

(** * The further properties on the concrete problems *)

(** The robust controller with terminal bounds switched off, also after
    its validity check, and with no rate penalty set. *)
Definition unbounded_end_mpc : MPC := set_use_terminal_bounds false robust_mpc.

Definition unbounded_end_validated : MPC :=
  Eval vm_compute in state_after _check_validity unbounded_end_mpc.

Definition no_rterm_mpc : MPC := set_flag_set_rterm false robust_mpc.

(** The robust controller after one and after two steps. *)
Definition robust_stepped : MPC :=
  state_after
    (make_step no_parameters no_parameters idle_solver (X0Array [1%Q; 2%Q]))
    robust_ready.

Definition robust_stepped_twice : MPC :=
  state_after
    (make_step no_parameters no_parameters idle_solver (X0Struct [3%Q; 4%Q]))
    robust_stepped.

(** An item assignment that replaces the whole terminal bound. *)
Definition replace_terminal_bound (upper : bool) (var_name : list index_item)
    (val : list ebound) (s : MPC) : exn + MPC :=
  inr (if upper then set_x_terminal_ub val s else set_x_terminal_lb val s).

(** An item assignment of a penalty factor for a model with one input:
    an array must have one element. *)
Definition single_input_assign (key : string) (val : rterm_value)
    (r : list Q) : exn + list Q :=
  match val with
  | RtermNumber q => inr [q]
  | RtermArray [q] => inr [q]
  | RtermArray _ => inl (Exception_ "Cannot assign an array of this shape.")
  | RtermInvalid => inr r
  end.

Lemma constraints_and_bounds_aligned_witness :
  exists s2 P,
    _prepare_nlp radau2 (spec_scenario_tree no_offset) robust_mpc = Done tt s2
    /\ nlp s2 = Some P
    /\ List.length (nlp_cons_lb P) = List.length (nlp_cons P)
    /\ List.length (nlp_cons_ub P) = List.length (nlp_cons P)
    /\ forall blk, In blk (blocks_of P) ->
                   block_kind (radau2 robust_validated) robust_validated blk.
Proof.
  assert (Hcv : _check_validity robust_mpc = Done tt robust_validated)
    by reflexivity.
  assert (Hlive : tree_live (spec_scenario_tree no_offset robust_validated)
                    robust_validated)
    by (apply spec_tree_live; vm_compute; lia).
  exact (constraints_and_bounds_aligned radau2 (spec_scenario_tree no_offset)
           robust_mpc robust_validated Hcv Hlive).
Defined.

Lemma stage_cost_once_per_branch_witness :
  exists s2 P,
    _prepare_nlp radau2 (spec_scenario_tree no_offset) robust_mpc = Done tt s2
    /\ nlp s2 = Some P
    /\ map weight_of (filter (is_lterm_at 0) (nlp_obj P))
       = [one_over 2; one_over 2].
Proof.
  assert (Hcv : _check_validity robust_mpc = Done tt robust_validated)
    by reflexivity.
  assert (Hlive : tree_live (spec_scenario_tree no_offset robust_validated)
                    robust_validated)
    by (apply spec_tree_live; vm_compute; lia).
  assert (Hk : 0 < n_horizon (settings robust_validated))
    by (vm_compute; lia).
  exact (stage_cost_once_per_branch radau2
           (spec_scenario_tree no_offset) robust_mpc robust_validated 0
           Hcv Hlive Hk).
Defined.


Lemma path_bounds_cover_inner_stages_only_witness :
  exists s2,
    _prepare_nlp radau2 (spec_scenario_tree no_offset) robust_mpc = Done tt s2
    /\ lb_opt_x s2 (x_at 1 0 0) = [Fin (-1)%Q; NegInf]
    /\ ub_opt_x s2 (x_at 2 1 2) = [Fin 1%Q; PosInf]
    /\ lb_opt_x s2 (x_at 3 0 1) = [NegInf; NegInf]
    /\ ub_opt_x s2 (x_at 3 0 1) = [PosInf; PosInf].
Proof.
  assert (Hcv : _check_validity robust_mpc = Done tt robust_validated)
    by reflexivity.
  assert (Hlive : tree_live (spec_scenario_tree no_offset robust_validated)
                    robust_validated)
    by (apply spec_tree_live; vm_compute; lia).
  destruct (path_bounds_cover_inner_stages_only radau2
              (spec_scenario_tree no_offset) robust_mpc robust_validated
              Hcv Hlive)
    as (s2 & Hrun & Hpath & Hend).
  exists s2. split; [exact Hrun|].
  assert (H1 : 1 <= 1 < n_horizon (settings robust_mpc)) by (vm_compute; lia).
  assert (H2 : 1 <= 2 < n_horizon (settings robust_mpc)) by (vm_compute; lia).
  assert (H3 : 1 <> n_total_coll_points (radau2 robust_validated))
    by (vm_compute; lia).
  split; [exact (proj1 (Hpath 1 0 0 H1))|].
  split; [exact (proj2 (Hpath 2 1 2 H2))|].
  exact (Hend 0 1 H3).
Defined.

Lemma terminal_state_unbounded_witness :
  exists s2,
    _prepare_nlp radau2 (spec_scenario_tree no_offset) unbounded_end_mpc
    = Done tt s2
    /\ forall sc i,
         lb_opt_x s2 (x_at 3 sc i) = [NegInf; NegInf]
         /\ ub_opt_x s2 (x_at 3 sc i) = [PosInf; PosInf].
Proof.
  assert (Hcv : _check_validity unbounded_end_mpc
                = Done tt unbounded_end_validated)
    by reflexivity.
  assert (Hlive : tree_live
                    (spec_scenario_tree no_offset unbounded_end_validated)
                    unbounded_end_validated)
    by (apply spec_tree_live; vm_compute; lia).
  assert (Huse : use_terminal_bounds (settings unbounded_end_mpc) = false)
    by reflexivity.
  assert (Hlb : x_terminal_lb (bounds unbounded_end_mpc)
                = repeat NegInf (n_x (model unbounded_end_mpc)))
    by reflexivity.
  assert (Hub : x_terminal_ub (bounds unbounded_end_mpc)
                = repeat PosInf (n_x (model unbounded_end_mpc)))
    by reflexivity.
  exact (terminal_state_unbounded_without_terminal_bounds radau2
           (spec_scenario_tree no_offset) unbounded_end_mpc
           unbounded_end_validated Hcv Hlive Huse Hlb Hub).
Defined.

Lemma input_and_algebraic_bounds_witness :
  exists s2,
    _prepare_nlp radau2 (spec_scenario_tree no_offset) robust_mpc = Done tt s2
    /\ lb_opt_x s2 (u_at 0 0) = [Fin (-2)%Q]
    /\ ub_opt_x s2 (u_at 2 1) = [Fin 2%Q].
Proof.
  assert (Hcv : _check_validity robust_mpc = Done tt robust_validated)
    by reflexivity.
  assert (Hlive : tree_live (spec_scenario_tree no_offset robust_validated)
                    robust_validated)
    by (apply spec_tree_live; vm_compute; lia).
  destruct (input_and_algebraic_bounds radau2 (spec_scenario_tree no_offset)
              robust_mpc robust_validated Hcv Hlive)
    as (s2 & Hrun & Hu & _).
  exists s2. split; [exact Hrun|].
  split; [exact (proj1 (Hu 0 0)) | exact (proj1 (proj2 (Hu 2 1)))].
Defined.

Lemma validity_check_passes_iff_witness :
  (exists s1, _check_validity robust_mpc = Done tt s1
              /\ warnings s1 = [])
  /\ exists e s1, _check_validity inconsistent_mpc = Raised e s1.
Proof.
  split.
  - apply (proj1 (validity_check_passes_iff robust_mpc)). reflexivity.
  - apply (proj2 (validity_check_passes_iff inconsistent_mpc)). reflexivity.
Defined.

Lemma validity_check_defaults_witness :
  n_combinations (settings robust_validated) = 2
  /\ has_p_fun robust_validated = true
  /\ has_tvp_fun robust_validated = true.
Proof.
  assert (Hcv : _check_validity robust_mpc = Done tt robust_validated)
    by reflexivity.
  destruct (validity_check_defaults_to_one_combination robust_mpc
              robust_validated Hcv) as (_ & Hkeep & Hp & Ht).
  split; [exact (Hkeep eq_refl)|]. split; [exact Hp | exact Ht].
Defined.

Lemma validity_check_idempotent_witness :
  exists s2,
    _check_validity robust_validated = Done tt s2
    /\ bounds s2 = bounds robust_validated
    /\ settings s2 = settings robust_validated
    /\ flags s2 = flags robust_validated
    /\ frame s2 = frame robust_validated
    /\ warnings s2 = warnings robust_validated ++ validity_warnings robust_mpc.
Proof.
  assert (Hcv : _check_validity robust_mpc = Done tt robust_validated)
    by reflexivity.
  exact (validity_check_idempotent robust_mpc robust_validated Hcv).
Defined.

Lemma make_step_rejects_witness :
  exists e,
    make_step no_parameters no_parameters idle_solver (X0Array [1%Q; 2%Q])
      robust_mpc
    = Raised e robust_mpc.
Proof.
  apply make_step_rejects. left. reflexivity.
Defined.

Lemma make_step_warns_once_witness :
  warnings
    (state_after
       (make_step no_parameters no_parameters idle_solver
          (X0Struct [3%Q; 4%Q])) robust_stepped)
  = warnings robust_stepped.
Proof.
  assert (Hstep : make_step no_parameters no_parameters idle_solver
                    (X0Array [1%Q; 2%Q]) robust_ready
                  = Done (vec_mul [0%Q] [1%Q]) robust_stepped)
    by (vm_compute; reflexivity).
  exact (make_step_warns_once no_parameters no_parameters idle_solver
           (X0Array [1%Q; 2%Q]) (X0Struct [3%Q; 4%Q]) robust_ready
           robust_stepped (vec_mul [0%Q] [1%Q]) Hstep).
Defined.

Lemma make_step_chain_witness :
  exists solution1 params2,
    opt_x_num robust_stepped = Some solution1
    /\ opt_p_num robust_stepped_twice = Some params2
    /\ params2 p_u_prev = vec_mul [0%Q] [1%Q]
    /\ params2 p_x0 = [3%Q; 4%Q].
Proof.
  assert (H1 : make_step no_parameters no_parameters idle_solver
                 (X0Array [1%Q; 2%Q]) robust_ready
               = Done (vec_mul [0%Q] [1%Q]) robust_stepped)
    by (vm_compute; reflexivity).
  assert (H2 : make_step no_parameters no_parameters idle_solver
                 (X0Struct [3%Q; 4%Q]) robust_stepped
               = Done (vec_mul [0%Q] [1%Q]) robust_stepped_twice)
    by (vm_compute; reflexivity).
  destruct (make_step_chain no_parameters no_parameters idle_solver
              (X0Array [1%Q; 2%Q]) (X0Struct [3%Q; 4%Q]) robust_ready
              robust_stepped robust_stepped_twice _ _ H1 H2)
    as (solution1 & params2 & Hx & Hp & Hu & Hx0 & _).
  exists solution1, params2. split; [exact Hx|]. split; [exact Hp|].
  split; [exact Hu|]. cbn in Hx0. now injection Hx0.
Defined.

Lemma initial_guess_then_step_witness :
  exists s2 guess u s3,
    set_initial_guess robust_ready = Done tt s2
    /\ opt_x_num s2 = Some guess
    /\ guess (x_at 2 1 0) = vec_div [0%Q; 0%Q] [1%Q; 1%Q]
    /\ make_step no_parameters no_parameters idle_solver
         (X0Array [1%Q; 2%Q]) s2 = Done u s3
    /\ warnings s3 = [].
Proof.
  assert (Hsetup : setup radau2 (spec_scenario_tree no_offset) robust_mpc
                   = Done tt robust_ready)
    by (vm_compute; reflexivity).
  assert (Hv : x0_value (X0Array [1%Q; 2%Q]) = Some [1%Q; 2%Q])
    by reflexivity.
  assert (Hlen : List.length [1%Q; 2%Q] = n_x (model robust_mpc))
    by reflexivity.
  destruct (initial_guess_then_step radau2 (spec_scenario_tree no_offset)
              no_parameters no_parameters idle_solver robust_mpc robust_ready
              (X0Array [1%Q; 2%Q]) [1%Q; 2%Q] Hsetup Hv Hlen)
    as (s2 & guess & params & u & s3 & Hset & Hg & Hgx & _ & _ & Hstep & Hw
        & _).
  exists s2, guess, u, s3. split; [exact Hset|]. split; [exact Hg|].
  split; [exact (Hgx 2 1 0)|]. split; [exact Hstep | exact Hw].
Defined.

Lemma set_param_before_setup_witness :
  exists s',
    set_param [param_n_horizon 7; param_other "n_combinations";
               param_t_step (1 # 2)%Q] robust_mpc
    = Done ["n_combinations"%string] s'
    /\ n_horizon (settings s') = 7
    /\ n_combinations (settings s') = 2.
Proof.
  assert (Hsetup : flag_setup (flags robust_mpc) = false) by reflexivity.
  assert (Hnd : NoDup (map param_key
                         [param_n_horizon 7; param_other "n_combinations";
                          param_t_step (1 # 2)%Q])).
  { repeat constructor; cbn; intuition discriminate. }
  destruct (set_param_before_setup _ robust_mpc Hsetup Hnd)
    as (s' & Hrun & Hst & _ & Hn).
  exists s'. split; [exact Hrun|]. split; [|exact Hn].
  apply (Hst (param_n_horizon 7)). now left.
Defined.

Lemma set_param_calls_compose_witness :
  exists pa s1 pb s2,
    set_param [param_n_horizon 7] robust_mpc = Done pa s1
    /\ set_param [param_n_robust 0; param_other "mode"] s1 = Done pb s2
    /\ set_param [param_n_horizon 7; param_n_robust 0; param_other "mode"]
         robust_mpc
       = Done (pa ++ pb) s2.
Proof.
  assert (Hsetup : flag_setup (flags robust_mpc) = false) by reflexivity.
  assert (Hnd : NoDup (map param_key
                         ([param_n_horizon 7]
                          ++ [param_n_robust 0; param_other "mode"]))).
  { repeat constructor; cbn; intuition discriminate. }
  exact (set_param_calls_compose [param_n_horizon 7]
           [param_n_robust 0; param_other "mode"] robust_mpc Hsetup Hnd).
Defined.

Lemma set_rterm_fails_half_done_witness :
  (exists msg s',
      set_rterm ["u"%string] single_input_assign
        [("u"%string, RtermNumber 5%Q); ("v"%string, RtermNumber 1%Q)]
        no_rterm_mpc
      = Raised (AssertionError msg) s'
      /\ flag_set_rterm (flags s') = true
      /\ rterm_factor s' = [5%Q])
  /\ exists e s',
       set_rterm ["u"%string] single_input_assign
         [("u"%string, RtermNumber 5%Q);
          ("u"%string, RtermArray [1%Q; 2%Q])] no_rterm_mpc
       = Raised e s'
       /\ flag_set_rterm (flags s') = true
       /\ rterm_factor s' = [5%Q].
Proof.
  assert (Hsetup : flag_setup (flags no_rterm_mpc) = false) by reflexivity.
  assert (Hpre : forallb (rterm_keyword_ok ["u"%string])
                   [("u"%string, RtermNumber 5%Q)] = true)
    by reflexivity.
  assert (Hr : rterm_after single_input_assign
                 [("u"%string, RtermNumber 5%Q)] (rterm_factor no_rterm_mpc)
               = inr [5%Q])
    by reflexivity.
  split.
  - assert (Hbad : rterm_keyword_ok ["u"%string]
                     ("v"%string, RtermNumber 1%Q) = false)
      by reflexivity.
    destruct (set_rterm_fails_half_done ["u"%string] single_input_assign
                [("u"%string, RtermNumber 5%Q)] []
                ("v"%string, RtermNumber 1%Q) no_rterm_mpc [5%Q]
                Hsetup Hpre Hr (or_introl Hbad))
      as (e & s' & Hrun & Hflag & Hfac & Hassert & _).
    destruct (Hassert Hbad) as (msg & ->). exists msg, s'. auto.
  - destruct (set_rterm_fails_half_done ["u"%string] single_input_assign
                [("u"%string, RtermNumber 5%Q)] []
                ("u"%string, RtermArray [1%Q; 2%Q]) no_rterm_mpc [5%Q]
                Hsetup Hpre Hr
                (or_intror (ex_intro _ _ eq_refl)))
      as (e & s' & Hrun & Hflag & Hfac & _).
    exists e, s'. auto.
Defined.

Lemma set_rterm_silences_warning_witness :
  flag_set_rterm
    (flags (state_after (set_rterm ["u"%string] single_input_assign [])
              no_rterm_mpc)) = true
  /\ ~ In WarnRtermNotSet
         (validity_warnings
            (state_after (set_rterm ["u"%string] single_input_assign [])
               no_rterm_mpc))
  /\ In WarnRtermNotSet (validity_warnings no_rterm_mpc).
Proof.
  assert (Hsetup : flag_setup (flags no_rterm_mpc) = false) by reflexivity.
  destruct (set_rterm_silences_warning ["u"%string] single_input_assign []
              no_rterm_mpc Hsetup) as (Hflag & Hwarn & _).
  split; [exact Hflag|]. split; [exact Hwarn|]. now left.
Defined.

Lemma configuration_locked_after_setup_witness :
  (exists msg,
      set_param [param_n_horizon 7] robust_ready
      = Raised (AssertionError msg) robust_ready)
  /\ exists e,
       set_objective (PyCasadi SX (1, 1) true) (PyCasadi SX (1, 1) true)
         robust_ready
       = Raised e robust_ready.
Proof.
  assert (Hsetup : setup radau2 (spec_scenario_tree no_offset) robust_mpc
                   = Done tt robust_ready)
    by (vm_compute; reflexivity).
  destruct (configuration_locked_after_setup radau2
              (spec_scenario_tree no_offset) robust_mpc robust_ready Hsetup)
    as (Hparam & _ & Hobj).
  split; [apply Hparam | apply Hobj].
Defined.

Lemma terminal_bounds_query_witness :
  terminal_bounds_get (list ebound)
    (IndexTuple [Name "lower"; Name "phi_1"]) robust_mpc
  = Raised (NameError "var_type") robust_mpc.
Proof.
  destruct (terminal_bounds_query_never_returns (list ebound)
              (IndexTuple [Name "lower"; Name "phi_1"]) robust_mpc)
    as (e & Hrun & He).
  rewrite Hrun. f_equal. apply (He _ _ _ eq_refl). reflexivity.
Defined.

Lemma terminal_bounds_set_rejects_witness :
  exists msg,
    terminal_bounds_set (list ebound) ["x_1"%string; "x_2"%string]
      replace_terminal_bound
      (IndexTuple [Name "lower"; Name "x_1"]) [Fin 0%Q; Fin 0%Q] robust_mpc
    = Raised (AssertionError msg) robust_mpc.
Proof.
  assert (Hlen : index_length (IndexTuple [Name "lower"; Name "x_1"]) < 3)
    by (cbn; lia).
  destruct (terminal_bounds_set_rejects (list ebound)
              ["x_1"%string; "x_2"%string] replace_terminal_bound
              (IndexTuple [Name "lower"; Name "x_1"]) [Fin 0%Q; Fin 0%Q]
              robust_mpc (or_introl Hlen))
    as (e & Hrun & Hassert & _).
  destruct (Hassert Hlen) as (msg & ->). exists msg. exact Hrun.
Defined.

Lemma terminal_bounds_set_ignores_var_type_witness :
  terminal_bounds_set (list ebound) ["x_1"%string; "x_2"%string]
    replace_terminal_bound
    (IndexTuple [Name "upper"; Name "_u"; Name "x_1"]) [Fin 0%Q; Fin 0%Q]
    robust_mpc
  = Done tt (set_x_terminal_ub [Fin 0%Q; Fin 0%Q] robust_mpc).
Proof.
  rewrite (terminal_bounds_set_ignores_var_type (list ebound)
             ["x_1"%string; "x_2"%string] replace_terminal_bound
             (Name "upper") (Name "_u") [Name "x_1"] [Fin 0%Q; Fin 0%Q]
             robust_mpc eq_refl).
  reflexivity.
Defined.

Lemma terminal_bounds_set_does_not_reach_solver_witness :
  lb_opt_x (set_x_terminal_lb [Fin 0%Q; Fin 0%Q] robust_ready)
  = lb_opt_x robust_ready
  /\ exists u s',
       make_step no_parameters no_parameters idle_solver (X0Array [1%Q; 2%Q])
         (set_x_terminal_lb [Fin 0%Q; Fin 0%Q] robust_ready)
       = Done u s'
       /\ u = vec_mul [0%Q] [1%Q].
Proof.
  assert (Hframe : forall upper var_name val s s',
             replace_terminal_bound upper var_name val s = inr s' ->
             set_bounds (bounds s') s = s').
  { intros upper var_name val s s' H. injection H as <-.
    destruct upper, s; reflexivity. }
  assert (Hset : terminal_bounds_set (list ebound)
                   ["x_1"%string; "x_2"%string] replace_terminal_bound
                   (IndexTuple [Name "lower"; Name "_x"; Name "x_1"])
                   [Fin 0%Q; Fin 0%Q] robust_ready
                 = Done tt (set_x_terminal_lb [Fin 0%Q; Fin 0%Q] robust_ready))
    by reflexivity.
  destruct (terminal_bounds_set_does_not_reach_solver (list ebound)
              ["x_1"%string; "x_2"%string] replace_terminal_bound
              no_parameters no_parameters idle_solver Hframe
              (IndexTuple [Name "lower"; Name "_x"; Name "x_1"])
              [Fin 0%Q; Fin 0%Q] (X0Array [1%Q; 2%Q]) robust_ready _ Hset)
    as (Hlb & _ & Hstep).
  split; [exact Hlb|].
  assert (H1 : make_step no_parameters no_parameters idle_solver
                 (X0Array [1%Q; 2%Q]) robust_ready
               = Done (vec_mul [0%Q] [1%Q]) robust_stepped)
    by (vm_compute; reflexivity).
  rewrite H1 in Hstep. eexists. eexists. split; [exact Hstep | reflexivity].
Defined.

Lemma uncertainty_values_rejected_witness :
  set_uncertainty_values ["alpha"%string; "beta"%string]
    (fun _ _ => None) [] robust_mpc
  = Raised (NameError "uncertainty_values") robust_mpc.
Proof.
  destruct (uncertainty_values_rejected ["alpha"%string; "beta"%string]
              (fun _ _ => None) [] robust_mpc (or_introl eq_refl))
    as (e & Hrun & He & _).
  rewrite Hrun. f_equal. exact (He eq_refl).
Defined.

Lemma uncertainty_values_fix_combinations_witness :
  exists s1,
    set_uncertainty_values ["alpha"%string; "beta"%string] (fun _ _ => None)
      [("alpha"%string, [1%Q; (11 # 10)%Q; (9 # 10)%Q]);
       ("beta"%string, [1%Q; 2%Q])] robust_mpc
    = Done tt s1
    /\ n_combinations (settings s1) = 6.
Proof.
  assert (Hne : [("alpha"%string, [1%Q; (11 # 10)%Q; (9 # 10)%Q]);
                 ("beta"%string, [1%Q; 2%Q])] <> [])
    by discriminate.
  destruct (uncertainty_values_fix_combinations
              ["alpha"%string; "beta"%string] (fun _ _ => None)
              [("alpha"%string, [1%Q; (11 # 10)%Q; (9 # 10)%Q]);
               ("beta"%string, [1%Q; 2%Q])] robust_mpc Hne eq_refl eq_refl)
    as (s1 & Hrun & Hn & _).
  exists s1. split; [exact Hrun | exact Hn].
Defined.
